(** * EasyWay: accessibility-aware routing (utils/routing)

    A shallow embedding of the routing engine: the accessibility gate
    [isEdgeAccessible], the cost function [calculateEdgeWeight], the tri-level
    classification [getEdgeAccessibilityLevel], the adjacency index built by
    [buildAdjacencyList], the A* search [findAccessibleRoute] and the path
    reconstruction with its score.

    Modelling conventions.
    - A number of the input (a distance, a slope, a coordinate) is a rational
      [Q].  A number that the source computes is a [number]: a rational or
      NaN, with the arithmetic and the comparisons of JavaScript on NaN.
      Arithmetic on rationals is exact: infinities and the rounding of
      doubles are not represented.  The properties proved are chosen so that
      rounding does not touch them: bounds and orders that rounding keeps,
      the structure of results, and equalities between values that the
      source computes in the same way.
      The one place where the source would compute with an undefined value
      where a number is expected (a map without the entry read) is given its
      own outcome ([UndefinedNumber]), shown unreachable.
    - Node identifiers, surfaces, mobility types and restriction tags are
      strings; an optional field (temporary) is an [option].  The two tables
      of the source indexed by such a string (surfacePenalty, speeds) are
      object literals: besides their own keys they answer to the property
      names inherited from [Object.prototype], with a value that is not a
      number.
    - The [Map]s of the source (nodeMap, the adjacency list, cameFrom, gScore,
      edgeUsed) are finite maps [gmap string _]; only get/has/set are used by
      the source, so insertion order is irrelevant.
    - The haversine distance uses trigonometric functions of doubles; it only
      orders the open set, and is a parameter of the search.
    - Loops that the source runs without a bound ([while]) take fuel. *)

From Stdlib Require Import QArith Qabs Qround Lqa Sorted.
From stdpp Require Import base gmap strings list.

(** ** Data model *)

Record Node := {
  id : string;
  lat : Q;
  lng : Q
}.

Record Edge := {
  from : string;
  to : string;
  distance : Q;
  surface : string;
  curb : Q;
  hasRamp : bool;
  slope : Q;
  width : Q;
  temporary : option string
}.

Record Profile := {
  mobilityType : string;
  maxCurbHeight : Q;
  maxSlope : Q;
  minWidth : Q
}.

(** ** JavaScript primitives used by the source *)

(** [a > b] and [a < b] on numbers. *)
Definition Qgtb (a b : Q) : bool := negb (Qle_bool a b).
Definition Qltb (a b : Q) : bool := negb (Qle_bool b a).

(** [s === 'lit'] on an optional string field (undefined is never equal). *)
Definition optStrEq (o : option string) (lit : string) : bool :=
  match o with
  | Some s => String.eqb s lit
  | None => false
  end.

(** Truthiness of an optional string: undefined and the empty string are
    falsy. *)
Definition truthy (o : option string) : bool :=
  match o with
  | Some EmptyString => false
  | Some _ => true
  | None => false
  end.

(** [Math.round]: the nearest integer, halves going up. *)
Definition Math_round (x : Q) : Z := Qfloor (x + (1 # 2))%Q.

(** A computed number: a rational or NaN. *)
Inductive number :=
| Num (q : Q)
| NaN.

(** [a + b], [a - b], [a * b] and [a / b]: NaN as soon as an operand is. *)
Definition numAdd (a b : number) : number :=
  match a, b with
  | Num x, Num y => Num (x + y)
  | _, _ => NaN
  end.

Definition numSub (a b : number) : number :=
  match a, b with
  | Num x, Num y => Num (x - y)
  | _, _ => NaN
  end.

Definition numMul (a b : number) : number :=
  match a, b with
  | Num x, Num y => Num (x * y)
  | _, _ => NaN
  end.

Definition numDiv (a b : number) : number :=
  match a, b with
  | Num x, Num y => Num (x / y)
  | _, _ => NaN
  end.

(** [a < b] and [a > b]: false as soon as an operand is NaN. *)
Definition numLtb (a b : number) : bool :=
  match a, b with
  | Num x, Num y => Qltb x y
  | _, _ => false
  end.

Definition numGtb (a b : number) : bool := numLtb b a.

(** [a < b] and [a <= b] as facts: both are numbers and compare so. *)
Definition numLt (a b : number) : Prop :=
  match a, b with
  | Num x, Num y => (x < y)%Q
  | _, _ => False
  end.

Definition numLe (a b : number) : Prop :=
  match a, b with
  | Num x, Num y => (x <= y)%Q
  | _, _ => False
  end.

(** The property names that every object literal inherits from
    [Object.prototype]. *)
Definition inheritedKeys : list string :=
  [ "constructor"; "hasOwnProperty"; "isPrototypeOf"; "propertyIsEnumerable";
    "toLocaleString"; "toString"; "valueOf"; "__proto__";
    "__defineGetter__"; "__defineSetter__"; "__lookupGetter__";
    "__lookupSetter__" ].

Definition inherited (k : string) : bool := existsb (String.eqb k) inheritedKeys.

(** What [table[k]] evaluates to, for an object literal whose own properties
    are numbers: undefined, a number of its own, or an inherited function or
    object. *)
Inductive value :=
| undefined
| numeric (q : Q)
| inheritedObject.

Fixpoint tableGet (t : list (string * Q)) (k : string) : option Q :=
  match t with
  | [] => None
  | (k', v) :: t' => if String.eqb k' k then Some v else tableGet t' k
  end.

Definition objectGet (table : list (string * Q)) (k : string) : value :=
  match tableGet table k with
  | Some v => numeric v
  | None => if inherited k then inheritedObject else undefined
  end.

(** [v || d] where a number is expected afterwards: undefined and 0 are
    falsy; a function or an object is truthy and converts to NaN. *)
Definition orDefault (v : value) (d : Q) : number :=
  match v with
  | undefined => Num d
  | numeric q => if Qeq_bool q 0 then Num d else Num q
  | inheritedObject => NaN
  end.

(** ** Accessibility gate *)

Definition isEdgeAccessible (edge : Edge) (profile : Profile) : bool :=
  if Qgtb (curb edge) (maxCurbHeight profile) && negb (hasRamp edge) then false
  else if Qgtb (slope edge) (maxSlope profile) then false
  else if Qltb (width edge) (minWidth profile) then false
  else if optStrEq (temporary edge) "repair"
          && String.eqb (mobilityType profile) "wheelchair" then false
  else true.

(** ** Cost function *)

Definition surfacePenalty : list (string * Q) :=
  [ ("asphalt", 1.0%Q); ("concrete", 1.0%Q); ("wood", 1.1%Q);
    ("gravel", 1.5%Q); ("cobblestone", 1.8%Q); ("stone", 2.0%Q);
    ("sand", 2.5%Q) ].

(** [surfacePenalty[s] || 1.2]. *)
Definition surfaceFactor (s : string) : number :=
  orDefault (objectGet surfacePenalty s) 1.2.

Definition calculateEdgeWeight (edge : Edge) (profile : Profile) : number :=
  let weight := Num (distance edge) in
  let weight := numMul weight (surfaceFactor (surface edge)) in
  let weight :=
    if Qgtb (slope edge) 0 then
      let slopePenalty := (1 + slope edge / 10)%Q in
      let weight := numMul weight (Num slopePenalty) in
      if String.eqb (mobilityType profile) "wheelchair" && Qgtb (slope edge) 5
      then numMul weight (Num 1.5) else weight
    else weight in
  let weight :=
    if Qgtb (curb edge) 0 && negb (hasRamp edge) then
      let curbPenalty := (1 + curb edge / 5)%Q in
      numMul weight (Num curbPenalty)
    else weight in
  let weight :=
    if Qltb (width edge) 150 then
      let widthPenalty := (1 + (150 - width edge) / 100)%Q in
      numMul weight (Num widthPenalty)
    else weight in
  let weight :=
    if truthy (temporary edge) then numMul weight (Num 2.0) else weight in
  weight.

(** ** Tri-level classification *)

Inductive Level := accessible | partial | inaccessible.

Definition getEdgeAccessibilityLevel (edge : Edge) (profile : Profile) : Level :=
  if negb (isEdgeAccessible edge profile) then inaccessible
  else if Qgtb (curb edge) 3
          || Qgtb (slope edge) 5
          || String.eqb (surface edge) "cobblestone"
          || String.eqb (surface edge) "gravel"
          || truthy (temporary edge)
  then partial
  else accessible.

(** ** Adjacency index *)

Module Neighbor.
Record t := { to : string; edge : Edge }.
End Neighbor.

(** [adjacencyList.get(k)?.push(nb)]: nothing happens for an unknown key. *)
Definition pushNeighbor (k : string) (nb : Neighbor.t)
    (adjacencyList : gmap string (list Neighbor.t)) : gmap string (list Neighbor.t) :=
  match adjacencyList !! k with
  | Some l => <[k := l ++ [nb]]> adjacencyList
  | None => adjacencyList
  end.

Definition addEdge (adjacencyList : gmap string (list Neighbor.t)) (edge : Edge)
    : gmap string (list Neighbor.t) :=
  let adjacencyList :=
    pushNeighbor (from edge) {| Neighbor.to := to edge; Neighbor.edge := edge |}
      adjacencyList in
  pushNeighbor (to edge) {| Neighbor.to := from edge; Neighbor.edge := edge |}
    adjacencyList.

Definition buildAdjacencyList (nodes : list Node) (edges : list Edge)
    : gmap string (list Neighbor.t) :=
  let adjacencyList :=
    foldl (fun m node => <[id node := []]> m) (∅ : gmap string (list Neighbor.t)) nodes in
  foldl addEdge adjacencyList edges.

(** ** Outcomes of the unbounded parts of the source *)

Inductive outcome (A : Type) : Type :=
| Returned (a : A)   (* normal completion *)
| TypeError          (* a property is read on undefined *)
| UndefinedNumber    (* a number is read where a map has no entry *)
| OutOfFuel.         (* the fuel of the model ran out *)
Arguments Returned {A} a.
Arguments TypeError {A}.
Arguments UndefinedNumber {A}.
Arguments OutOfFuel {A}.

#[export] Instance outcome_bind : MBind outcome := fun A B k o =>
  match o with
  | Returned a => k a
  | TypeError => TypeError
  | UndefinedNumber => UndefinedNumber
  | OutOfFuel => OutOfFuel
  end.

(** ** Route result and issue report *)

Inductive Reason :=
| CurbReason (curb : Q)          (* the curb height, in cm *)
| SlopeReason (slope : Q)        (* the slope, in percent *)
| SurfaceReason (cobblestone : bool)  (* cobblestone, otherwise gravel *)
| TemporaryReason
| NoRampReason.

Record Issue := {
  issueEdge : Edge;
  level : Level;
  reasons : list Reason
}.

(** A field that a result object does not have is [None]. *)
Record RouteResult := {
  path : list string;
  edges : list Edge;
  totalDistance : Q;
  totalWeight : option number;
  issues : list Issue;
  accessibilityScore : option Q;
  notFound : option bool
}.

(** ** Accessibility score *)

Definition levelScore (l : Level) : Q :=
  match l with
  | accessible => 100
  | partial => 60
  | inaccessible => 0
  end.

Definition calculateAccessibilityScore (edges : list Edge) (profile : Profile) : Q :=
  if Nat.eqb (length edges) 0 then 100%Q
  else
    let totalScore :=
      foldl (fun totalScore edge =>
               (totalScore + levelScore (getEdgeAccessibilityLevel edge profile))%Q)
            0%Q edges in
    inject_Z (Math_round (totalScore / inject_Z (Z.of_nat (length edges)))).

(** ** Path reconstruction *)

Definition issueReasons (edge : Edge) : list Reason :=
  (if Qgtb (curb edge) 3 then [CurbReason (curb edge)] else [])
  ++ (if Qgtb (slope edge) 5 then [SlopeReason (slope edge)] else [])
  ++ (if String.eqb (surface edge) "cobblestone" || String.eqb (surface edge) "gravel"
      then [SurfaceReason (String.eqb (surface edge) "cobblestone")] else [])
  ++ (if truthy (temporary edge) then [TemporaryReason] else [])
  ++ (if negb (hasRamp edge) && Qgtb (curb edge) 0 then [NoRampReason] else []).

(** The local variables of [reconstructPath] that its loop updates. *)
Record Walk := {
  wPath : list string;
  wEdges : list Edge;
  wIssues : list Issue;
  wCurrent : string;
  wTotalDistance : Q
}.

Fixpoint walkBack (fuel : nat) (cameFrom : gmap string string)
    (edgeUsed : gmap string Edge) (profile : Profile) (w : Walk) : outcome Walk :=
  match cameFrom !! wCurrent w with
  | None => Returned w
  | Some prev =>
    match fuel with
    | O => OutOfFuel
    | S fuel' =>
      match edgeUsed !! wCurrent w with
      | None => TypeError
      | Some edge =>
        let accessibility := getEdgeAccessibilityLevel edge profile in
        let issues :=
          match accessibility with
          | accessible => wIssues w
          | _ => wIssues w ++ [ {| issueEdge := edge; level := accessibility;
                                   reasons := issueReasons edge |} ]
          end in
        walkBack fuel' cameFrom edgeUsed profile
          {| wPath := prev :: wPath w;
             wEdges := edge :: wEdges w;
             wIssues := issues;
             wCurrent := prev;
             wTotalDistance := (wTotalDistance w + distance edge)%Q |}
      end
    end
  end.

Definition reconstructPath (fuel : nat) (cameFrom : gmap string string)
    (edgeUsed : gmap string Edge) (endId : string) (totalWeight : number)
    (profile : Profile) : outcome RouteResult :=
  w ← walkBack fuel cameFrom edgeUsed profile
        {| wPath := [endId]; wEdges := []; wIssues := [];
           wCurrent := endId; wTotalDistance := 0 |};
  Returned {| path := wPath w;
              edges := wEdges w;
              totalDistance := wTotalDistance w;
              totalWeight := Some totalWeight;
              issues := wIssues w;
              accessibilityScore :=
                Some (calculateAccessibilityScore (wEdges w) profile);
              notFound := None |}.

(** ** The A* search *)

Module Entry.
Record t := { id : string; fScore : number }.
End Entry.

(** The comparator [(a, b) => a.fScore - b.fScore]. *)
Definition compareEntries (a b : Entry.t) : number :=
  numSub (Entry.fScore a) (Entry.fScore b).

(** [openSet.sort(compareEntries)]: a stable sort; an entry goes behind
    another one when the comparator is positive, and a comparator that is
    NaN counts as zero.  (With NaN among the f-scores the comparator is not
    consistent and the language leaves the order to the engine; the order
    taken here is that of an insertion sort.) *)
Fixpoint insertEntry (x : Entry.t) (l : list Entry.t) : list Entry.t :=
  match l with
  | [] => [x]
  | y :: l' =>
    if numGtb (compareEntries x y) (Num 0) then y :: insertEntry x l'
    else x :: y :: l'
  end.

Definition sortOpenSet (l : list Entry.t) : list Entry.t :=
  foldr insertEntry [] l.

(** [openSet.find(n => n.id === k)] as a test. *)
Definition inOpenSet (k : string) (l : list Entry.t) : bool :=
  existsb (fun n => String.eqb (Entry.id n) k) l.

(** The mutable state of one query. *)
Record Search := {
  openSet : list Entry.t;
  cameFrom : gmap string string;
  gScore : gmap string number;
  edgeUsed : gmap string Edge
}.

(** [new Map(nodes.map(n => [n.id, n]))]: a later node replaces an earlier
    one with the same id. *)
Definition makeNodeMap (nodes : list Node) : gmap string Node :=
  foldl (fun m n => <[id n := n]> m) (∅ : gmap string Node) nodes.

Definition failureResult : RouteResult :=
  {| path := []; edges := []; totalDistance := 0; totalWeight := None;
     issues := []; accessibilityScore := None; notFound := None |}.

Definition notFoundResult : RouteResult :=
  {| path := []; edges := []; totalDistance := 0; totalWeight := None;
     issues := []; accessibilityScore := None; notFound := Some true |}.

Section Pathfinder.

(** The haversine distance of the source, kept abstract. *)
Variable calculateDistance : Q -> Q -> Q -> Q -> Q.

Variable graph : gmap string (list Neighbor.t).
Variable nodeMap : gmap string Node.
Variable endNode : Node.
Variable endId : string.
Variable profile : Profile.

(** [heuristic(nodeId)]; reading [lat] of a missing node throws. *)
Definition heuristic (nodeId : string) : outcome Q :=
  match nodeMap !! nodeId with
  | Some node =>
    Returned (calculateDistance (lat node) (lng node) (lat endNode) (lng endNode))
  | None => TypeError
  end.

(** The body of [for (const neighbor of neighbors)]. *)
Definition relax (current : string) (st : Search) (neighbor : Neighbor.t)
    : outcome Search :=
  if negb (isEdgeAccessible (Neighbor.edge neighbor) profile) then Returned st
  else
    match gScore st !! current with
    | None => UndefinedNumber
    | Some gCurrent =>
      let tentativeGScore :=
        numAdd gCurrent (calculateEdgeWeight (Neighbor.edge neighbor) profile) in
      let improves :=
        match gScore st !! Neighbor.to neighbor with
        | None => true
        | Some g => numLtb tentativeGScore g
        end in
      if improves then
        h ← heuristic (Neighbor.to neighbor);
        let fScore := numAdd tentativeGScore (Num h) in
        Returned
          {| openSet :=
               if inOpenSet (Neighbor.to neighbor) (openSet st) then openSet st
               else openSet st ++
                      [ {| Entry.id := Neighbor.to neighbor; Entry.fScore := fScore |} ];
             cameFrom := <[Neighbor.to neighbor := current]> (cameFrom st);
             gScore := <[Neighbor.to neighbor := tentativeGScore]> (gScore st);
             edgeUsed := <[Neighbor.to neighbor := Neighbor.edge neighbor]> (edgeUsed st) |}
      else Returned st
    end.

Fixpoint expand (current : string) (neighbors : list Neighbor.t) (st : Search)
    : outcome Search :=
  match neighbors with
  | [] => Returned st
  | neighbor :: rest =>
    st' ← relax current st neighbor;
    expand current rest st'
  end.

(** One turn of [while (openSet.length > 0)]: either the query is answered
    (left) or the search goes on from a new state (right). *)
Definition searchStep (pathFuel : nat) (st : Search) : outcome (RouteResult + Search) :=
  match sortOpenSet (openSet st) with
  | [] => Returned (inl notFoundResult)
  | current :: rest =>
    if String.eqb (Entry.id current) endId then
      match gScore st !! endId with
      | None => UndefinedNumber
      | Some totalWeight =>
        r ← reconstructPath pathFuel (cameFrom st) (edgeUsed st) (Entry.id current)
              totalWeight profile;
        Returned (inl r)
      end
    else
      let neighbors := default [] (graph !! Entry.id current) in
      st' ← expand (Entry.id current) neighbors
              {| openSet := rest; cameFrom := cameFrom st;
                 gScore := gScore st; edgeUsed := edgeUsed st |};
      Returned (inr st')
  end.

Fixpoint searchLoop (fuel pathFuel : nat) (st : Search) : outcome RouteResult :=
  match fuel with
  | O => OutOfFuel
  | S fuel' =>
    next ← searchStep pathFuel st;
    match next with
    | inl r => Returned r
    | inr st' => searchLoop fuel' pathFuel st'
    end
  end.

(** *** Relaxation, case by case *)

(** The tentative cost improves on, or first establishes, the best-known
    cost of node [v]. *)
Definition improves (st : Search) (v : string) (tentative : number) : Prop :=
  match gScore st !! v with
  | None => True
  | Some g => numLt tentative g
  end.

(** The state after an improving relaxation, as the source leaves it. *)
Definition recorded (current : string) (st : Search) (neighbor : Neighbor.t)
    (tentative : number) (h : Q) : Search :=
  {| openSet :=
       if inOpenSet (Neighbor.to neighbor) (openSet st) then openSet st
       else openSet st ++
              [ {| Entry.id := Neighbor.to neighbor;
                   Entry.fScore := numAdd tentative (Num h) |} ];
     cameFrom := <[Neighbor.to neighbor := current]> (cameFrom st);
     gScore := <[Neighbor.to neighbor := tentative]> (gScore st);
     edgeUsed := <[Neighbor.to neighbor := Neighbor.edge neighbor]> (edgeUsed st) |}.

(** The five ways through the loop body. *)
Inductive RelaxCase (current : string) (st : Search) (neighbor : Neighbor.t)
    : outcome Search -> Prop :=
| relax_skip :
    isEdgeAccessible (Neighbor.edge neighbor) profile = false ->
    RelaxCase current st neighbor (Returned st)
| relax_undefined :
    isEdgeAccessible (Neighbor.edge neighbor) profile = true ->
    gScore st !! current = None ->
    RelaxCase current st neighbor UndefinedNumber
| relax_keep gCurrent g :
    isEdgeAccessible (Neighbor.edge neighbor) profile = true ->
    gScore st !! current = Some gCurrent ->
    gScore st !! Neighbor.to neighbor = Some g ->
    ~ numLt (numAdd gCurrent (calculateEdgeWeight (Neighbor.edge neighbor) profile)) g ->
    RelaxCase current st neighbor (Returned st)
| relax_throw gCurrent :
    isEdgeAccessible (Neighbor.edge neighbor) profile = true ->
    gScore st !! current = Some gCurrent ->
    improves st (Neighbor.to neighbor)
      (numAdd gCurrent (calculateEdgeWeight (Neighbor.edge neighbor) profile)) ->
    nodeMap !! Neighbor.to neighbor = None ->
    RelaxCase current st neighbor TypeError
| relax_record gCurrent node :
    isEdgeAccessible (Neighbor.edge neighbor) profile = true ->
    gScore st !! current = Some gCurrent ->
    improves st (Neighbor.to neighbor)
      (numAdd gCurrent (calculateEdgeWeight (Neighbor.edge neighbor) profile)) ->
    nodeMap !! Neighbor.to neighbor = Some node ->
    RelaxCase current st neighbor
      (Returned
         (recorded current st neighbor
            (numAdd gCurrent (calculateEdgeWeight (Neighbor.edge neighbor) profile))
            (calculateDistance (lat node) (lng node) (lat endNode) (lng endNode)))).

(** Only edges that pass the gate are recorded. *)
Definition gated (edgeUsed : gmap string Edge) : Prop :=
  forall k e, edgeUsed !! k = Some e -> isEdgeAccessible e profile = true.

(** An answer of the search loop is the not-found record or comes out of
    [reconstructPath] at the goal. *)
Inductive Answer (st : Search) (pathFuel : nat) (r : RouteResult) : Prop :=
| answer_notFound : r = notFoundResult -> Answer st pathFuel r
| answer_route (totalWeight : number) :
    gScore st !! endId = Some totalWeight ->
    reconstructPath pathFuel (cameFrom st) (edgeUsed st) endId totalWeight profile
      = Returned r ->
    Answer st pathFuel r.

(** *** Measures and invariants of the search *)

Variable startId : string.

(** Every adjacency entry of the graph. *)
Definition entries : list Neighbor.t := concat (map snd (map_to_list graph)).

(** A common denominator of the weights of all entries: every best-known
    cost that is a number is a multiple of [1 / grid]. *)
Definition denominator (n : number) : positive :=
  match n with
  | Num q => Qden q
  | NaN => 1%positive
  end.

Definition grid : positive :=
  foldr (fun nb d =>
           (denominator (calculateEdgeWeight (Neighbor.edge nb) profile) * d)%positive)
        1%positive entries.

Definition onGrid (q : Q) : Prop := exists k : Z, (q == k # grid)%Q.

Definition ticks (n : number) : nat :=
  match n with
  | Num q => Z.to_nat (Qfloor (q * inject_Z (Zpos grid)))
  | NaN => 0
  end.

Definition costSum (g : gmap string number) : nat :=
  map_fold (fun _ n acc => ticks n + acc) 0 g.

(** The nodes without a best-known cost. *)
Definition unknown (st : Search) : nat := size (dom nodeMap ∖ dom (gScore st)).

Definition effort (st : Search) : nat :=
  2 * costSum (gScore st) + length (openSet st).

(** [st'] is below [st] in the lexicographic order on (unknown, effort). *)
Definition below (st' st : Search) : Prop :=
  unknown st' < unknown st \/ (unknown st' = unknown st /\ effort st' < effort st).

Definition notAbove (st' st : Search) : Prop :=
  unknown st' < unknown st \/ (unknown st' = unknown st /\ effort st' <= effort st).

(** Following the back-pointers from [v] ends. *)
Inductive reaches (cf : gmap string string) : string -> Prop :=
| reaches_root v : cf !! v = None -> reaches cf v
| reaches_step v u : cf !! v = Some u -> reaches cf u -> reaches cf v.

(** The same, never meeting node [x]. *)
Inductive reachesAvoiding (cf : gmap string string) (x : string) : string -> Prop :=
| avoiding_root v : v <> x -> cf !! v = None -> reachesAvoiding cf x v
| avoiding_step v u :
    v <> x -> cf !! v = Some u -> reachesAvoiding cf x u -> reachesAvoiding cf x v.

(** [v] can be walked to from the start over edges that pass the gate. *)
Inductive connected : string -> Prop :=
| connected_start : connected startId
| connected_step u l nb :
    connected u -> graph !! u = Some l -> nb ∈ l ->
    isEdgeAccessible (Neighbor.edge nb) profile = true ->
    connected (Neighbor.to nb).

(** Well-formed input: every neighbour is a node, no distance is negative. *)
Definition wellFormed : Prop :=
  forall k l nb, graph !! k = Some l -> nb ∈ l ->
    is_Some (nodeMap !! Neighbor.to nb) /\ (0 <= distance (Neighbor.edge nb))%Q.

(** The cost [gu] of a node a back-pointer leads to, against the cost [gv] of
    the node it starts from: when [gv] is a number, so is [gu], and it is not
    above. *)
Definition before (gu gv : number) : Prop :=
  match gv with
  | Num _ => numLe gu gv
  | NaN => True
  end.

Record Invariant (st : Search) : Prop := {
  inv_open : forall x, x ∈ openSet st -> is_Some (gScore st !! Entry.id x);
  inv_cost : forall v q, gScore st !! v = Some (Num q) -> (0 <= q)%Q /\ onGrid q;
  inv_edge : forall v u, cameFrom st !! v = Some u -> is_Some (edgeUsed st !! v);
  inv_order : forall v u, cameFrom st !! v = Some u ->
    exists gu gv, gScore st !! u = Some gu /\ gScore st !! v = Some gv /\ before gu gv;
  inv_reaches : forall v, is_Some (gScore st !! v) -> reaches (cameFrom st) v;
  inv_connected : forall v, is_Some (gScore st !! v) -> connected v
}.

End Pathfinder.

(** [fuel] bounds the turns of the search loop and, separately, the turns of
    the loop of [reconstructPath]. *)
Definition findAccessibleRoute (calculateDistance : Q -> Q -> Q -> Q -> Q)
    (fuel : nat) (graph : gmap string (list Neighbor.t)) (nodes : list Node)
    (startId endId : string) (profile : Profile) : outcome RouteResult :=
  let nodeMap := makeNodeMap nodes in
  match nodeMap !! startId, nodeMap !! endId with
  | Some startNode, Some endNode =>
    h ← heuristic calculateDistance nodeMap endNode startId;
    searchLoop calculateDistance graph nodeMap endNode endId profile fuel fuel
      {| openSet := [ {| Entry.id := startId; Entry.fScore := Num h |} ];
         cameFrom := ∅;
         gScore := {[ startId := Num 0 ]};
         edgeUsed := ∅ |}
  | _, _ => Returned failureResult
  end.

(** ** Presentation helpers of the routing module *)

(** [getRouteCoordinates(path, nodeMap)]: [path.map] visits the ids in order;
    reading [lat] of a missing node throws. *)
Fixpoint getRouteCoordinates (path : list string) (nodeMap : gmap string Node)
    : outcome (list (Q * Q)) :=
  match path with
  | [] => Returned []
  | nodeId :: rest =>
    match nodeMap !! nodeId with
    | None => TypeError
    | Some node =>
      coordinates ← getRouteCoordinates rest nodeMap;
      Returned ((lat node, lng node) :: coordinates)
    end
  end.

(** The two texts of [formatDistance]: a whole number of metres, or the
    kilometres that [toFixed(1)] then prints with one decimal.  The digits
    that [toFixed] prints depend on the binary expansion of the quotient and
    are not represented. *)
Inductive DistanceText :=
| MetresText (metres : Z)
| KilometresText (kilometres : Q).

Definition formatDistance (meters : Q) : DistanceText :=
  if Qltb meters 1000 then MetresText (Math_round meters)
  else KilometresText (meters / 1000).

Definition speeds : list (string * Q) :=
  [ ("wheelchair", 40%Q); ("wheelchair_assisted", 50%Q); ("stroller", 60%Q);
    ("crutches", 30%Q) ].

(** The texts of [estimateTime]: minutes alone, hours and minutes, or hours
    and minutes that are both NaN. *)
Inductive TimeText :=
| MinutesText (minutes : Z)
| HoursText (hours remainingMinutes : Z)
| NaNText.

Definition estimateTime (distance : Q) (profile : Profile) : TimeText :=
  let speed := orDefault (objectGet speeds (mobilityType profile)) 50 in
  match numDiv (Num distance) speed with
  | Num quotient =>
    let minutes := Qceiling quotient in
    if (minutes <? 60)%Z then MinutesText minutes
    else
      let hours := Qfloor (inject_Z minutes / 60) in
      let remainingMinutes := Z.rem minutes 60 in
      HoursText hours remainingMinutes
  | NaN => NaNText
  end.

(** ** The caller in the application *)

(** The part of [buildRoute] of the application after its two points are
    chosen: [None] stands for the error toast, [Some] for the route stored
    with its coordinates. *)
Definition buildRoute (calculateDistance : Q -> Q -> Q -> Q -> Q) (fuel : nat)
    (graph : gmap string (list Neighbor.t)) (nodes : list Node)
    (startId endId : string) (profile : Profile)
    : outcome (option (RouteResult * list (Q * Q))) :=
  result ← findAccessibleRoute calculateDistance fuel graph nodes startId endId profile;
  if match notFound result with Some b => b | None => false end
     || Nat.eqb (length (path result)) 0
  then Returned None
  else
    coordinates ← getRouteCoordinates (path result) (makeNodeMap nodes);
    Returned (Some (result, coordinates)).

(** ** Notions used to state the properties *)

(** The disqualifiers as the source tests them: the slope is compared as a
    signed grade. *)
Definition disqualified (edge : Edge) (profile : Profile) : Prop :=
  ((maxCurbHeight profile < curb edge)%Q /\ hasRamp edge = false)
  \/ (maxSlope profile < slope edge)%Q
  \/ (width edge < minWidth profile)%Q
  \/ (temporary edge = Some "repair" /\ mobilityType profile = "wheelchair").

(** The disqualifiers in the words of the specification: the magnitude of the
    slope is compared. *)
Definition disqualifiedByMagnitude (edge : Edge) (profile : Profile) : Prop :=
  ((maxCurbHeight profile < curb edge)%Q /\ hasRamp edge = false)
  \/ (maxSlope profile < Qabs (slope edge))%Q
  \/ (width edge < minWidth profile)%Q
  \/ (temporary edge = Some "repair" /\ mobilityType profile = "wheelchair").

(** The per-edge value in the words of the specification: 100 for an edge
    classified accessible, 60 for partial, 0 for inaccessible. *)
Definition edgeScore (profile : Profile) (edge : Edge) : Q :=
  match getEdgeAccessibilityLevel edge profile with
  | accessible => 100
  | partial => 60
  | inaccessible => 0
  end.

(** The mean of the per-edge values, in the words of the specification. *)
Definition meanScore (edges : list Edge) (profile : Profile) : Q :=
  (foldr Qplus 0 (map (edgeScore profile) edges) / inject_Z (Z.of_nat (length edges)))%Q.

(** [z] is [x] rounded to the nearest integer, a half going up. *)
Definition roundsTo (x : Q) (z : Z) : Prop :=
  (x - (1 # 2) < inject_Z z)%Q /\ (inject_Z z <= x + (1 # 2))%Q.

#[export] Instance Q_eq_dec : EqDecision Q.
Proof. solve_decision. Defined.

#[export] Instance Edge_eq_dec : EqDecision Edge.
Proof. solve_decision. Defined.

(** What one edge adds to the adjacency list of node [k]. *)
Definition contribution (k : string) (e : Edge) : list Neighbor.t :=
  (if decide (from e = k)
   then [ {| Neighbor.to := to e; Neighbor.edge := e |} ] else [])
  ++ (if decide (to e = k)
      then [ {| Neighbor.to := from e; Neighbor.edge := e |} ] else []).

Definition carries (e : Edge) (nb : Neighbor.t) : Prop := Neighbor.edge nb = e.

#[export] Instance carries_dec (e : Edge) (nb : Neighbor.t) : Decision (carries e nb).
Proof. unfold carries. apply _. Defined.

(** The number of times an edge is listed in the input. *)
Definition occurrences (e : Edge) (edges : list Edge) : nat :=
  length (filter (fun x => x = e) edges).

(** The claim of C9, in its words: an edge with a negative or zero distance,
    or with identical endpoints, is kept out of the index. *)
Definition malformed (e : Edge) : Prop :=
  (distance e <= 0)%Q \/ from e = to e.

Definition keptOut (e : Edge) (graph : gmap string (list Neighbor.t)) : Prop :=
  forall k l, graph !! k = Some l -> filter (carries e) l = [].

(** Well-formed input of a query: every neighbour listed in the graph is one
    of the nodes, and no edge has a negative distance. *)
Definition wellFormedInput (graph : gmap string (list Neighbor.t)) (nodes : list Node)
    : Prop :=
  forall k l nb, graph !! k = Some l -> nb ∈ l ->
    Neighbor.to nb ∈ map id nodes /\ (0 <= distance (Neighbor.edge nb))%Q.





(** The penalties of the barriers of an edge, multiplied: the slope, with
    the surcharge of the wheelchair, then curb without ramp, narrow width and
    restriction tag. *)
Definition slopeFactor (e : Edge) (profile : Profile) : Q :=
  (if Qgtb (slope e) 0
   then (1 + slope e / 10)
        * (if String.eqb (mobilityType profile) "wheelchair" && Qgtb (slope e) 5
           then 1.5 else 1)
   else 1)%Q.

Definition obstacleFactor (e : Edge) : Q :=
  ((if Qgtb (curb e) 0 && negb (hasRamp e) then 1 + curb e / 5 else 1)
   * ((if Qltb (width e) 150 then 1 + (150 - width e) / 100 else 1)
      * (if truthy (temporary e) then 2.0 else 1)))%Q.

Definition barrierFactor (e : Edge) (profile : Profile) : Q :=
  (slopeFactor e profile * obstacleFactor e)%Q.

(** The number of adjacency entries of an index. *)
Definition totalEntries (graph : gmap string (list Neighbor.t)) : nat :=
  map_fold (fun _ l acc => length l + acc) 0 graph.

#[export] Instance Level_eq_dec : EqDecision Level.
Proof. solve_decision. Defined.

(** A node sequence and an edge sequence that follow the back-pointers:
    each node is the [cameFrom] of the next one, reached over the [edgeUsed]
    of that next one. *)
Inductive backChain (cameFrom : gmap string string) (edgeUsed : gmap string Edge)
    : list string -> list Edge -> Prop :=
| backChain_end v : backChain cameFrom edgeUsed [v] []
| backChain_step u v p e es :
    cameFrom !! v = Some u -> edgeUsed !! v = Some e ->
    backChain cameFrom edgeUsed (v :: p) es ->
    backChain cameFrom edgeUsed (u :: v :: p) (e :: es).

(** A node sequence and an edge sequence that form a walk in the graph: each
    edge is listed at its node, pointing to the next node. *)
Inductive walk (graph : gmap string (list Neighbor.t))
    : list string -> list Edge -> Prop :=
| walk_end v : walk graph [v] []
| walk_step u v p e es l :
    graph !! u = Some l ->
    {| Neighbor.to := v; Neighbor.edge := e |} ∈ l ->
    walk graph (v :: p) es ->
    walk graph (u :: v :: p) (e :: es).

(** The issue that [reconstructPath] records for an edge, and the edges it
    records one for. *)
Definition issueOf (profile : Profile) (e : Edge) : Issue :=
  {| issueEdge := e; level := getEdgeAccessibilityLevel e profile;
     reasons := issueReasons e |}.

Definition problematic (profile : Profile) (e : Edge) : Prop :=
  getEdgeAccessibilityLevel e profile <> accessible.

#[export] Instance problematic_dec (profile : Profile) (e : Edge)
  : Decision (problematic profile e).
Proof. unfold problematic. apply _. Defined.

(** The speed of a mobility type in metres per minute, as the module
    documents it: 40 for wheelchair, 50 for wheelchair_assisted, 60 for
    stroller, 30 for crutches, and 50 for any other name that is not a
    property name inherited by the table. *)
Inductive ratedSpeed : string -> Q -> Prop :=
| rated_wheelchair : ratedSpeed "wheelchair" 40
| rated_assisted : ratedSpeed "wheelchair_assisted" 50
| rated_stroller : ratedSpeed "stroller" 60
| rated_crutches : ratedSpeed "crutches" 30
| rated_other name :
    name <> "wheelchair" -> name <> "wheelchair_assisted" ->
    name <> "stroller" -> name <> "crutches" ->
    name ∉ inheritedKeys ->
    ratedSpeed name 50.

(** The number of minutes that a time text stands for, if it stands for a
    number. *)
Definition minutesOf (t : TimeText) : option Z :=
  match t with
  | MinutesText minutes => Some minutes
  | HoursText hours remainingMinutes => Some (60 * hours + remainingMinutes)%Z
  | NaNText => None
  end.

(** The state in which [findAccessibleRoute] enters its loop. *)
Definition startState (startId : string) (h : Q) : Search :=
  {| openSet := [ {| Entry.id := startId; Entry.fScore := Num h |} ];
     cameFrom := ∅;
     gScore := {[ startId := Num 0 ]};
     edgeUsed := ∅ |}.

(** The states that the loop passes through from a given state, one turn
    after the other. *)
Inductive visits (calculateDistance : Q -> Q -> Q -> Q -> Q)
    (graph : gmap string (list Neighbor.t)) (nodeMap : gmap string Node)
    (endNode : Node) (endId : string) (profile : Profile)
    : Search -> Search -> Prop :=
| visits_here st :
    visits calculateDistance graph nodeMap endNode endId profile st st
| visits_next st st1 st2 pathFuel :
    searchStep calculateDistance graph nodeMap endNode endId profile pathFuel st
    = Returned (inr st1) ->
    visits calculateDistance graph nodeMap endNode endId profile st1 st2 ->
    visits calculateDistance graph nodeMap endNode endId profile st st2.

(** Node [v] has an entry in the open set. *)
Definition inOpen (v : string) (st : Search) : Prop :=
  exists x, x ∈ openSet st /\ Entry.id x = v.

(** The order of the open set after sorting. *)
Definition fScoreLe (x y : Entry.t) : Prop := numLe (Entry.fScore x) (Entry.fScore y).

(** All f-scores of a list of entries are numbers. *)
Definition numbered (l : list Entry.t) : Prop :=
  Forall (fun x => Entry.fScore x <> NaN) l.

(** The entries of a given f-score, in their order. *)
Definition withFScore (f : Q) (l : list Entry.t) : list Entry.t :=
  List.filter (fun x => match Entry.fScore x with
                        | Num q => Qeq_bool q f
                        | NaN => false
                        end) l.

(** The weights of a list of edges, added up from the first edge on. *)
Definition sumWeights (profile : Profile) (es : list Edge) : number :=
  foldl numAdd (Num 0) (map (fun e => calculateEdgeWeight e profile) es).

(** Every back-pointer is paid for: a cost that is a number is at least the
    cost of the node it came from plus the weight of the edge used, both
    numbers; and no cost is negative. *)
Record Charged (profile : Profile) (st : Search) : Prop := {
  charged_edge : forall v u e q,
    cameFrom st !! v = Some u -> edgeUsed st !! v = Some e ->
    gScore st !! v = Some (Num q) ->
    exists gu w, gScore st !! u = Some (Num gu)
                 /\ calculateEdgeWeight e profile = Num w
                 /\ (gu + w <= q)%Q;
  charged_nonneg : forall v q, gScore st !! v = Some (Num q) -> (0 <= q)%Q
}.

(** The number of edges of a list that are classified at a level. *)
Definition levelCount (profile : Profile) (l : Level) (edges : list Edge) : nat :=
  length (filter (fun e => getEdgeAccessibilityLevel e profile = l) edges).

(** Every edge that passes the gate at node [v] leads to a node with a
    cost. *)
Definition settled (graph : gmap string (list Neighbor.t)) (profile : Profile)
    (v : string) (st : Search) : Prop :=
  forall l nb, graph !! v = Some l -> nb ∈ l ->
    isEdgeAccessible (Neighbor.edge nb) profile = true ->
    is_Some (gScore st !! Neighbor.to nb).

(** The frontier of the search: the start has a cost; the goal, once it has
    a cost, waits in the open set; every node with a cost is in the open set
    or settled. *)
Record Explored (graph : gmap string (list Neighbor.t)) (profile : Profile)
    (startId endId : string) (st : Search) : Prop := {
  explored_start : is_Some (gScore st !! startId);
  explored_goal : is_Some (gScore st !! endId) -> inOpen endId st;
  explored_frontier : forall v, is_Some (gScore st !! v) ->
    inOpen v st \/ settled graph profile v st
}.

(** From [st] to [st'] the search only adds: costs and open-set entries
    stay, and a node that gets its first cost is in the open set. *)
Definition grows (st st' : Search) : Prop :=
  (forall v, is_Some (gScore st !! v) -> is_Some (gScore st' !! v))
  /\ (forall x, x ∈ openSet st -> x ∈ openSet st')
  /\ (forall v, is_Some (gScore st' !! v) ->
      is_Some (gScore st !! v) \/ inOpen v st').

(** ** Sample data *)

Definition steepDescent : Edge :=
  {| from := "A"; to := "B"; distance := 40; surface := "asphalt"; curb := 0;
     hasRamp := true; slope := (-20)%Q; width := 200; temporary := None |}.

Definition wheelchairProfile : Profile :=
  {| mobilityType := "wheelchair"; maxCurbHeight := 5; maxSlope := 8;
     minWidth := 90 |}.

Definition rampedStep : Edge :=
  {| from := "A"; to := "B"; distance := 40; surface := "wood"; curb := 5;
     hasRamp := false; slope := 8; width := 90; temporary := Some "event" |}.

Definition relaxedProfile : Profile :=
  {| mobilityType := "wheelchair"; maxCurbHeight := 7; maxSlope := 10;
     minWidth := 80 |}.

Definition backwardsEdge : Edge :=
  {| from := "A"; to := "B"; distance := (-5)%Q; surface := "asphalt"; curb := 0;
     hasRamp := true; slope := 0; width := 200; temporary := None |}.

Definition loopEdge : Edge :=
  {| from := "A"; to := "A"; distance := 0; surface := "asphalt"; curb := 0;
     hasRamp := true; slope := 0; width := 200; temporary := None |}.

Definition twoNodes : list Node :=
  [ {| id := "A"; lat := 0; lng := 0 |}; {| id := "B"; lat := 0; lng := 1 |} ].

Definition plainEdge (a b : string) (d : Q) : Edge :=
  {| from := a; to := b; distance := d; surface := "asphalt"; curb := 0;
     hasRamp := true; slope := 0; width := 200; temporary := None |}.

Definition spot (name : string) : Node := {| id := name; lat := 0; lng := 0 |}.

(** A triangle in which A is first reached directly from S at cost 10 and
    then, through B, at cost 2. *)
Definition detourNodes : list Node := [spot "S"; spot "A"; spot "B"].

Definition detourEdges : list Edge :=
  [plainEdge "S" "A" 10; plainEdge "S" "B" 1; plainEdge "B" "A" 1].

Definition detour : gmap string (list Neighbor.t) :=
  buildAdjacencyList detourNodes detourEdges.

(** A chain A - B - C whose second edge has a curb of 10 cm and no ramp. *)
Definition chainNodes : list Node := [spot "A"; spot "B"; spot "C"].

Definition curbEdge : Edge :=
  {| from := "B"; to := "C"; distance := 50; surface := "asphalt"; curb := 10;
     hasRamp := false; slope := 0; width := 200; temporary := None |}.

Definition chainEdges : list Edge := [plainEdge "A" "B" 100; curbEdge].

Definition chain : gmap string (list Neighbor.t) :=
  buildAdjacencyList chainNodes chainEdges.

(** A heuristic that is zero everywhere, standing in for the haversine
    distance where a concrete run is evaluated. *)
Definition flat (lat1 lng1 lat2 lng2 : Q) : Q := 0%Q.

(** The state of the query S -> A on the triangle while B is expanded, just
    before its neighbour A is relaxed: A is in the open set with the f-score
    of its first cost. *)
Definition detourMidTurn : Search :=
  {| openSet := [ {| Entry.id := "A"; Entry.fScore := Num 10.0 |} ];
     cameFrom := <["B" := "S"]> (<["A" := "S"]> ∅);
     gScore := <["B" := Num 1.0]> (<["A" := Num 10.0]> {[ "S" := Num 0 ]});
     edgeUsed := <["B" := plainEdge "S" "B" 1]> (<["A" := plainEdge "S" "A" 10]> ∅) |}.

Definition towardsA : Neighbor.t :=
  {| Neighbor.to := "A"; Neighbor.edge := plainEdge "B" "A" 1 |}.

(** The route S - A found with one back-pointer. *)
Definition directRoute : RouteResult :=
  {| path := ["S"; "A"];
     edges := [plainEdge "S" "A" 10];
     totalDistance := (0 + 10)%Q;
     totalWeight := Some (Num 10);
     issues := [];
     accessibilityScore := Some (inject_Z 100);
     notFound := None |}.

(** The route S - B - A that the query S -> A finds on the triangle. *)
Definition detourRoute : RouteResult :=
  {| path := ["S"; "B"; "A"];
     edges := [plainEdge "S" "B" 1; plainEdge "B" "A" 1];
     totalDistance := (0 + 1 + 1)%Q;
     totalWeight := Some (Num (0 + 1 * 1.0 + 1 * 1.0));
     issues := [];
     accessibilityScore := Some (inject_Z 100);
     notFound := None |}.

(** Two nodes and an edge from A to X, which is not a node. *)
Definition danglingNodes : list Node := [spot "A"; spot "C"].

Definition dangling : gmap string (list Neighbor.t) :=
  buildAdjacencyList danglingNodes [plainEdge "A" "X" 5].

Definition strollerProfile : Profile :=
  {| mobilityType := "stroller"; maxCurbHeight := 10; maxSlope := 12;
     minWidth := 70 |}.

(** What the back-pointers of a query record: the edge of a back-pointer is
    listed in the graph at the node pointed to; both ends of a back-pointer
    have a cost; every node with a cost other than the start has a
    back-pointer; every node with a cost is a node of the node map. *)
Record Tracked (graph : gmap string (list Neighbor.t)) (nodeMap : gmap string Node)
    (startId : string) (st : Search) : Prop := {
  tracked_edge : forall v u, cameFrom st !! v = Some u ->
    exists e l, edgeUsed st !! v = Some e /\ graph !! u = Some l
                /\ {| Neighbor.to := v; Neighbor.edge := e |} ∈ l;
  tracked_cost : forall v u, cameFrom st !! v = Some u ->
    is_Some (gScore st !! u) /\ is_Some (gScore st !! v);
  tracked_root : forall v, is_Some (gScore st !! v) ->
    v = startId \/ is_Some (cameFrom st !! v);
  tracked_node : forall v, is_Some (gScore st !! v) -> is_Some (nodeMap !! v)
}.

(** The state of the query S -> A on the triangle after its first turn. *)
Definition detourFirstTurn : Search :=
  {| openSet := [ {| Entry.id := "A"; Entry.fScore := Num 10.0 |};
                  {| Entry.id := "B"; Entry.fScore := Num 1.0 |} ];
     cameFrom := <["B" := "S"]> (<["A" := "S"]> ∅);
     gScore := <["B" := Num 1.0]> (<["A" := Num 10.0]> {[ "S" := Num 0 ]});
     edgeUsed := <["B" := plainEdge "S" "B" 1]> (<["A" := plainEdge "S" "A" 10]> ∅) |}.

(** A graph with a direct edge S - T of distance 5 and a way round
    S - B - A - T of distance 3, A also being joined to S at distance 10. *)
Definition shortcutNodes : list Node := [spot "S"; spot "A"; spot "B"; spot "T"].

Definition shortcutEdges : list Edge :=
  [plainEdge "S" "A" 10; plainEdge "S" "B" 1; plainEdge "B" "A" 1;
   plainEdge "A" "T" 1; plainEdge "S" "T" 5].

Definition shortcut : gmap string (list Neighbor.t) :=
  buildAdjacencyList shortcutNodes shortcutEdges.






(** The state of the query A -> C on the chain after its second turn: A and
    B are expanded, the curb keeps C out, and the open set is empty. *)
Definition chainExhausted : Search :=
  {| openSet := [];
     cameFrom := {[ "B" := "A" ]};
     gScore := <["B" := Num (0 + 100 * 1.0)]> {[ "A" := Num 0 ]};
     edgeUsed := {[ "B" := plainEdge "A" "B" 100 ]} |}.

(** Back-pointers along eight edges from node 0 to node 8: one edge
    classified accessible, two partial and five inaccessible for the
    wheelchair profile. *)
Definition cobbledStep (a b : string) : Edge :=
  {| from := a; to := b; distance := 10; surface := "cobblestone"; curb := 0;
     hasRamp := true; slope := 0; width := 200; temporary := None |}.

Definition curbStep (a b : string) : Edge :=
  {| from := a; to := b; distance := 10; surface := "asphalt"; curb := 10;
     hasRamp := false; slope := 0; width := 200; temporary := None |}.

Definition mixedEdges : list (string * Edge) :=
  [ ("1", plainEdge "0" "1" 10); ("2", cobbledStep "1" "2");
    ("3", cobbledStep "2" "3"); ("4", curbStep "3" "4"); ("5", curbStep "4" "5");
    ("6", curbStep "5" "6"); ("7", curbStep "6" "7"); ("8", curbStep "7" "8") ].

Definition mixedUsed : gmap string Edge := list_to_map mixedEdges.

Definition mixedBack : gmap string string :=
  list_to_map (map (fun ke => (fst ke, from (snd ke))) mixedEdges).

Definition mixedRoute : RouteResult :=
  {| path := ["0"; "1"; "2"; "3"; "4"; "5"; "6"; "7"; "8"];
     edges := map snd mixedEdges;
     totalDistance := (0 + 10 + 10 + 10 + 10 + 10 + 10 + 10 + 10)%Q;
     totalWeight := Some (Num 0);
     issues :=
       map (fun e => {| issueEdge := e;
                        level := getEdgeAccessibilityLevel e wheelchairProfile;
                        reasons := issueReasons e |})
           (rev (tail (map snd mixedEdges)));
     accessibilityScore := Some (inject_Z 28);
     notFound := None |}.

(** * Properties *)

(** ** Comparisons *)

Lemma Qgtb_true (a b : Q) : Qgtb a b = true <-> (b < a)%Q.
Proof.
  unfold Qgtb. rewrite negb_true_iff, <- not_true_iff_false, Qle_bool_iff.
  split; [apply Qnot_le_lt | apply Qlt_not_le].
Qed.

Lemma Qgtb_false (a b : Q) : Qgtb a b = false <-> (a <= b)%Q.
Proof. unfold Qgtb. rewrite negb_false_iff. apply Qle_bool_iff. Qed.

Lemma Qltb_true (a b : Q) : Qltb a b = true <-> (a < b)%Q.
Proof. unfold Qltb. apply (Qgtb_true b a). Qed.

Lemma Qltb_false (a b : Q) : Qltb a b = false <-> (b <= a)%Q.
Proof. unfold Qltb. apply (Qgtb_false b a). Qed.

Lemma numLtb_true (a b : number) : numLtb a b = true <-> numLt a b.
Proof.
  destruct a as [x|], b as [y|]; simpl; try (split; [discriminate | contradiction]).
  apply Qltb_true.
Qed.

Lemma numLtb_false (a b : number) : numLtb a b = false <-> ~ numLt a b.
Proof. rewrite <- numLtb_true. symmetry. apply not_true_iff_false. Qed.

Lemma optStrEq_true (o : option string) (lit : string) :
  optStrEq o lit = true <-> o = Some lit.
Proof.
  destruct o as [s|]; simpl; [|split; discriminate].
  rewrite String.eqb_eq. split; congruence.
Qed.

(** ** The gate *)

Lemma isEdgeAccessible_true (edge : Edge) (profile : Profile) :
  isEdgeAccessible edge profile = true <->
  ((curb edge <= maxCurbHeight profile)%Q \/ hasRamp edge = true)
  /\ (slope edge <= maxSlope profile)%Q
  /\ (minWidth profile <= width edge)%Q
  /\ (temporary edge <> Some "repair" \/ mobilityType profile <> "wheelchair").
Proof.
  unfold isEdgeAccessible.
  destruct (Qgtb (curb edge) (maxCurbHeight profile)) eqn:Hc;
  destruct (hasRamp edge) eqn:Hr;
  destruct (Qgtb (slope edge) (maxSlope profile)) eqn:Hs;
  destruct (Qltb (width edge) (minWidth profile)) eqn:Hw;
  destruct (optStrEq (temporary edge) "repair") eqn:Ht;
  destruct (String.eqb (mobilityType profile) "wheelchair") eqn:Hm; simpl;
  repeat match goal with
  | H : Qgtb _ _ = true |- _ => apply Qgtb_true in H
  | H : Qgtb _ _ = false |- _ => apply Qgtb_false in H
  | H : Qltb _ _ = true |- _ => apply Qltb_true in H
  | H : Qltb _ _ = false |- _ => apply Qltb_false in H
  | H : optStrEq _ _ = true |- _ => apply optStrEq_true in H
  | H : optStrEq _ _ = false |- _ =>
      apply not_true_iff_false in H; rewrite optStrEq_true in H
  | H : String.eqb _ _ = true |- _ => apply String.eqb_eq in H
  | H : String.eqb _ _ = false |- _ => apply String.eqb_neq in H
  end;
  split; try discriminate; try (intros _; repeat split; auto; fail);
  intros (H1 & H2 & H3 & H4);
  try (exfalso; lra);
  try (destruct H1 as [H1|H1]; [exfalso; lra | discriminate]);
  try (destruct H4 as [H4|H4]; contradiction).
Qed.

(** C1, as stated, fails: an edge descending at 20 percent exceeds the limit
    of 8 in magnitude, yet the gate accepts it. *)
Lemma gate_accepts_steep_descent :
  disqualifiedByMagnitude steepDescent wheelchairProfile
  /\ isEdgeAccessible steepDescent wheelchairProfile = true.
Proof.
  split; [|reflexivity].
  right; left. vm_compute. reflexivity.
Qed.

(** C1 (amended): the gate rejects an edge exactly when a disqualifier holds,
    the slope disqualifier being [slope > maxSlope] on the signed grade; so a
    value equal to its threshold is accepted. *)
Theorem isEdgeAccessible_false_iff (edge : Edge) (profile : Profile) :
  isEdgeAccessible edge profile = false <-> disqualified edge profile.
Proof.
  rewrite <- not_true_iff_false, isEdgeAccessible_true. unfold disqualified.
  split.
  - intros Hn.
    destruct (Qlt_le_dec (maxCurbHeight profile) (curb edge)) as [Hc|Hc];
    destruct (hasRamp edge) eqn:Hr;
    destruct (Qlt_le_dec (maxSlope profile) (slope edge)) as [Hs|Hs]; auto;
    destruct (Qlt_le_dec (width edge) (minWidth profile)) as [Hw|Hw]; auto;
    destruct (decide (temporary edge = Some "repair")) as [Ht|Ht];
    destruct (decide (mobilityType profile = "wheelchair")) as [Hm|Hm]; auto 6;
    exfalso; apply Hn; auto 6.
  - intros [[Hc Hr]|[Hs|[Hw|[Ht Hm]]]] (H1 & H2 & H3 & H4).
    + destruct H1 as [H1|H1]; [lra | congruence].
    + lra.
    + lra.
    + destruct H4; contradiction.
Qed.

(** C6: a profile that is at least as permissive on every limit, for the same
    mobility type, accepts every edge the stricter profile accepts. *)
Theorem isEdgeAccessible_monotone (edge : Edge) (p1 p2 : Profile) :
  mobilityType p1 = mobilityType p2 ->
  (maxCurbHeight p1 <= maxCurbHeight p2)%Q ->
  (maxSlope p1 <= maxSlope p2)%Q ->
  (minWidth p2 <= minWidth p1)%Q ->
  isEdgeAccessible edge p1 = true ->
  isEdgeAccessible edge p2 = true.
Proof.
  intros Hm Hc Hs Hw. rewrite !isEdgeAccessible_true.
  intros (H1 & H2 & H3 & H4). repeat split.
  - destruct H1 as [H1|H1]; [left; lra | right; exact H1].
  - lra.
  - lra.
  - rewrite <- Hm. exact H4.
Qed.

Lemma isEdgeAccessible_monotone_witness :
  isEdgeAccessible rampedStep relaxedProfile = true.
Proof.
  apply (isEdgeAccessible_monotone rampedStep wheelchairProfile relaxedProfile).
  - reflexivity.
  - vm_compute; discriminate.
  - vm_compute; discriminate.
  - vm_compute; discriminate.
  - reflexivity.
Defined.

(** ** The cost function *)

Lemma inherited_elem (k : string) : inherited k = true <-> k ∈ inheritedKeys.
Proof.
  unfold inherited. rewrite existsb_exists. split.
  - intros (x & Hx & Heq). apply String.eqb_eq in Heq. subst x.
    apply list_elem_of_In, Hx.
  - intros H. exists k. split; [apply list_elem_of_In, H | apply String.eqb_refl].
Qed.

Lemma inherited_not_elem (k : string) : inherited k = false <-> k ∉ inheritedKeys.
Proof. rewrite <- inherited_elem. symmetry. apply not_true_iff_false. Qed.

(** The surface factor is a number of at least 1 for every surface but the
    inherited property names, for which it is NaN. *)
Lemma surfaceFactor_cases (s : string) :
  (inherited s = true /\ surfaceFactor s = NaN)
  \/ (inherited s = false /\ exists f, surfaceFactor s = Num f /\ (1 <= f)%Q).
Proof.
  unfold surfaceFactor, objectGet, surfacePenalty, tableGet.
  repeat match goal with
  | |- context [String.eqb ?a s] =>
      let H := fresh "H" in
      destruct (String.eqb a s) eqn:H;
      [apply String.eqb_eq in H; subst s; right; split; [reflexivity|];
       eexists; split; [reflexivity | vm_compute; discriminate] |]
  end.
  destruct (inherited s); [left; split; reflexivity | right; split; [reflexivity|]].
  eexists; split; [reflexivity | vm_compute; discriminate].
Qed.

Lemma slopeFactor_ge_1 (e : Edge) (profile : Profile) :
  (1 <= slopeFactor e profile)%Q.
Proof.
  unfold slopeFactor. destruct (Qgtb (slope e) 0) eqn:Hs; [|lra].
  apply Qgtb_true in Hs.
  assert (0 <= slope e / 10)%Q by (apply Qle_shift_div_l; lra).
  destruct (_ && _); nra.
Qed.

Lemma obstacleFactor_ge_1 (e : Edge) : (1 <= obstacleFactor e)%Q.
Proof.
  unfold obstacleFactor.
  assert (HB : (1 <= if Qgtb (curb e) 0 && negb (hasRamp e)
                     then 1 + curb e / 5 else 1)%Q).
  { destruct (Qgtb (curb e) 0) eqn:Hc; simpl; [|lra].
    destruct (negb (hasRamp e)); [|lra].
    apply Qgtb_true in Hc.
    assert (0 <= curb e / 5)%Q by (apply Qle_shift_div_l; lra). lra. }
  assert (HC : (1 <= if Qltb (width e) 150
                     then 1 + (150 - width e) / 100 else 1)%Q).
  { destruct (Qltb (width e) 150) eqn:Hw; [|lra].
    apply Qltb_true in Hw.
    assert (0 <= (150 - width e) / 100)%Q by (apply Qle_shift_div_l; lra). lra. }
  assert (HT : (1 <= if truthy (temporary e) then 2.0 else 1)%Q).
  { destruct (truthy (temporary e)); [vm_compute; discriminate | lra]. }
  revert HB HC HT.
  generalize (if Qgtb (curb e) 0 && negb (hasRamp e) then 1 + curb e / 5 else 1)%Q.
  generalize (if Qltb (width e) 150 then 1 + (150 - width e) / 100 else 1)%Q.
  generalize (if truthy (temporary e) then 2.0 else 1)%Q.
  intros T C B HB HC HT.
  assert (HCT : (1 <= C * T)%Q) by nra.
  nra.
Qed.

Lemma barrierFactor_ge_1 (e : Edge) (profile : Profile) :
  (1 <= barrierFactor e profile)%Q.
Proof.
  unfold barrierFactor.
  pose proof (slopeFactor_ge_1 e profile). pose proof (obstacleFactor_ge_1 e). nra.
Qed.

(** The weight as a product: the distance, the surface factor and the
    penalties of the barriers. *)
Lemma calculateEdgeWeight_value (e : Edge) (profile : Profile) (f : Q) :
  surfaceFactor (surface e) = Num f ->
  exists w, calculateEdgeWeight e profile = Num w
            /\ (w == distance e * f * barrierFactor e profile)%Q.
Proof.
  intros Hf. unfold calculateEdgeWeight, barrierFactor, slopeFactor, obstacleFactor.
  rewrite Hf.
  destruct (Qgtb (slope e) 0);
    [destruct (String.eqb (mobilityType profile) "wheelchair" && Qgtb (slope e) 5)|];
    destruct (Qgtb (curb e) 0 && negb (hasRamp e));
    destruct (Qltb (width e) 150);
    destruct (truthy (temporary e)); simpl;
    (eexists; split; [reflexivity | ring]).
Qed.

Lemma calculateEdgeWeight_NaN (e : Edge) (profile : Profile) :
  surfaceFactor (surface e) = NaN -> calculateEdgeWeight e profile = NaN.
Proof.
  intros Hf. unfold calculateEdgeWeight. rewrite Hf.
  destruct (Qgtb (slope e) 0);
    [destruct (String.eqb (mobilityType profile) "wheelchair" && Qgtb (slope e) 5)|];
    destruct (Qgtb (curb e) 0 && negb (hasRamp e));
    destruct (Qltb (width e) 150);
    destruct (truthy (temporary e)); reflexivity.
Qed.

(** The weight is NaN exactly for the inherited property names; otherwise it
    is a number, and every penalty factor being at least 1, a non-negative
    distance is never decreased. *)
Lemma calculateEdgeWeight_cases (e : Edge) (profile : Profile) :
  (inherited (surface e) = true /\ calculateEdgeWeight e profile = NaN)
  \/ (inherited (surface e) = false
      /\ exists w, calculateEdgeWeight e profile = Num w
                   /\ ((0 <= distance e)%Q -> (distance e <= w)%Q)).
Proof.
  destruct (surfaceFactor_cases (surface e)) as [[Hi Hf]|(Hi & f & Hf & H1)].
  - left. split; [exact Hi | apply calculateEdgeWeight_NaN, Hf].
  - right. split; [exact Hi|].
    destruct (calculateEdgeWeight_value e profile f Hf) as (w & Hw & Heq).
    exists w. split; [exact Hw|]. intros Hd. rewrite Heq.
    pose proof (barrierFactor_ge_1 e profile) as HB.
    assert (Hdf : (distance e <= distance e * f)%Q) by nra.
    nra.
Qed.




(** ** The accessibility score *)

Lemma roundsTo_unique (x : Q) (z1 z2 : Z) : roundsTo x z1 -> roundsTo x z2 -> z1 = z2.
Proof.
  intros [Ha Hb] [Hc Hd].
  assert (H1 : (inject_Z z1 < inject_Z (z2 + 1))%Q).
  { rewrite inject_Z_plus. change (inject_Z 1) with 1%Q. lra. }
  assert (H2 : (inject_Z z2 < inject_Z (z1 + 1))%Q).
  { rewrite inject_Z_plus. change (inject_Z 1) with 1%Q. lra. }
  rewrite <- Zlt_Qlt in H1, H2. lia.
Qed.

Lemma Math_round_roundsTo (x : Q) : roundsTo x (Math_round x).
Proof.
  unfold roundsTo, Math_round. split.
  - pose proof (Qlt_floor (x + (1 # 2))) as H.
    rewrite inject_Z_plus in H. change (inject_Z 1) with 1%Q in H. lra.
  - apply Qfloor_le.
Qed.

Lemma totalScore_sum (profile : Profile) (edges : list Edge) (acc : Q) :
  (foldl (fun totalScore edge =>
            (totalScore + levelScore (getEdgeAccessibilityLevel edge profile))%Q)
         acc edges
   == acc + foldr Qplus 0 (map (edgeScore profile) edges))%Q.
Proof.
  revert acc. induction edges as [|e edges IH]; intros acc; simpl.
  - lra.
  - rewrite IH. unfold edgeScore.
    destruct (getEdgeAccessibilityLevel e profile); simpl; lra.
Qed.

Lemma levelCount_cons (profile : Profile) (l : Level) (e : Edge) (edges : list Edge) :
  levelCount profile l (e :: edges)
  = (if decide (getEdgeAccessibilityLevel e profile = l) then 1 else 0)
    + levelCount profile l edges.
Proof.
  unfold levelCount.
  destruct (decide (getEdgeAccessibilityLevel e profile = l)) as [Heq|Hne].
  - rewrite filter_cons_True by exact Heq. reflexivity.
  - rewrite filter_cons_False by exact Hne. reflexivity.
Qed.

(** The sum of the per-edge values, level by level. *)
Lemma edgeScore_sum (profile : Profile) (edges : list Edge) :
  (foldr Qplus 0 (map (edgeScore profile) edges)
   == 100 * inject_Z (Z.of_nat (levelCount profile accessible edges))
      + 60 * inject_Z (Z.of_nat (levelCount profile partial edges))
      + 0 * inject_Z (Z.of_nat (levelCount profile inaccessible edges)))%Q.
Proof.
  induction edges as [|e edges IH]; [reflexivity|].
  cbn [map foldr]. rewrite IH, !levelCount_cons. unfold edgeScore.
  destruct (getEdgeAccessibilityLevel e profile);
    repeat match goal with
    | |- context [decide (?a = ?b)] => destruct (decide (a = b)); try congruence
    end;
    rewrite ?Nat2Z.inj_add, ?inject_Z_plus; simpl (Z.of_nat 0); simpl (Z.of_nat 1);
    change (inject_Z 1) with 1%Q; change (inject_Z 0) with 0%Q; ring.
Qed.

Lemma calculateAccessibilityScore_nil (profile : Profile) :
  calculateAccessibilityScore [] profile = 100%Q.
Proof. reflexivity. Qed.

Lemma calculateAccessibilityScore_cons (profile : Profile) (e : Edge) (edges : list Edge) :
  exists z : Z,
    calculateAccessibilityScore (e :: edges) profile = inject_Z z
    /\ roundsTo (meanScore (e :: edges) profile) z.
Proof.
  unfold calculateAccessibilityScore.
  change (Nat.eqb (length (e :: edges)) 0) with false. cbv iota.
  eexists. split; [reflexivity|].
  unfold meanScore.
  set (n := inject_Z (Z.of_nat (length (e :: edges)))).
  assert (Heq : (foldl (fun totalScore edge =>
            (totalScore + levelScore (getEdgeAccessibilityLevel edge profile))%Q)
            0%Q (e :: edges) / n
          == foldr Qplus 0 (map (edgeScore profile) (e :: edges)) / n)%Q).
  { rewrite totalScore_sum. apply Qdiv_comp; [lra | reflexivity]. }
  unfold Math_round. rewrite Heq. apply Math_round_roundsTo.
Qed.

Lemma reconstructPath_Returned (fuel : nat) (cameFrom : gmap string string)
    (edgeUsed : gmap string Edge) (endId : string) (totalWeight : number)
    (profile : Profile) (r : RouteResult) :
  reconstructPath fuel cameFrom edgeUsed endId totalWeight profile = Returned r ->
  exists w,
    walkBack fuel cameFrom edgeUsed profile
      {| wPath := [endId]; wEdges := []; wIssues := [];
         wCurrent := endId; wTotalDistance := 0 |} = Returned w
    /\ r = {| path := wPath w; edges := wEdges w;
              totalDistance := wTotalDistance w;
              totalWeight := Some totalWeight;
              issues := wIssues w;
              accessibilityScore :=
                Some (calculateAccessibilityScore (wEdges w) profile);
              notFound := None |}.
Proof.
  unfold reconstructPath.
  destruct (walkBack _ _ _ _ _) as [w| | |]; simpl; try discriminate.
  intros [= <-]. exists w. split; reflexivity.
Qed.

(** C8: the score of a reconstructed route is 100 when the route has no edge,
    and otherwise the mean over its edges of 100 per edge classified
    accessible, 60 per partial and 0 per inaccessible, rounded to the nearest
    integer, a half going up. *)
Theorem accessibilityScore_rounded_mean (fuel : nat) (cameFrom : gmap string string)
    (edgeUsed : gmap string Edge) (endId : string) (totalWeight : number)
    (profile : Profile) (r : RouteResult) :
  reconstructPath fuel cameFrom edgeUsed endId totalWeight profile = Returned r ->
  exists s : Q,
    accessibilityScore r = Some s
    /\ (edges r = [] -> s = 100%Q)
    /\ (edges r <> [] ->
        exists z : Z,
          s = inject_Z z
          /\ roundsTo
               ((100 * inject_Z (Z.of_nat (levelCount profile accessible (edges r)))
                 + 60 * inject_Z (Z.of_nat (levelCount profile partial (edges r)))
                 + 0 * inject_Z (Z.of_nat (levelCount profile inaccessible (edges r))))
                / inject_Z (Z.of_nat (length (edges r)))) z).
Proof.
  intros H. apply reconstructPath_Returned in H as (w & _ & ->). simpl.
  eexists. split; [reflexivity|]. split.
  - intros ->. reflexivity.
  - destruct (wEdges w) as [|e l]; [congruence|]. intros _.
    destruct (calculateAccessibilityScore_cons profile e l) as (z & Hz & [H1 H2]).
    exists z. split; [exact Hz|].
    unfold meanScore in H1, H2. rewrite edgeScore_sum in H1, H2.
    split; assumption.
Qed.

(** ** The adjacency index *)

Lemma pushNeighbor_lookup (k j : string) (nb : Neighbor.t)
    (m : gmap string (list Neighbor.t)) :
  pushNeighbor k nb m !! j
  = (fun l => if decide (k = j) then l ++ [nb] else l) <$> (m !! j).
Proof.
  unfold pushNeighbor. destruct (m !! k) as [l|] eqn:Hk.
  - destruct (decide (k = j)) as [<-|Hne].
    + rewrite lookup_insert_eq, Hk. reflexivity.
    + rewrite lookup_insert_ne by exact Hne. destruct (m !! j); reflexivity.
  - destruct (decide (k = j)) as [<-|Hne].
    + rewrite Hk. reflexivity.
    + destruct (m !! j); reflexivity.
Qed.

Lemma addEdge_lookup (m : gmap string (list Neighbor.t)) (e : Edge) (k : string) :
  addEdge m e !! k = (fun l => l ++ contribution k e) <$> (m !! k).
Proof.
  unfold addEdge, contribution. rewrite !pushNeighbor_lookup.
  destruct (m !! k) as [l|]; simpl; [|reflexivity].
  destruct (decide (from e = k)), (decide (to e = k)); simpl;
    rewrite ?app_nil_r, <- ?app_assoc; reflexivity.
Qed.

Lemma foldl_addEdge_lookup (edges : list Edge) (m : gmap string (list Neighbor.t))
    (k : string) :
  foldl addEdge m edges !! k
  = (fun l => l ++ flat_map (contribution k) edges) <$> (m !! k).
Proof.
  revert m. induction edges as [|e edges IH]; intros m; simpl.
  - destruct (m !! k); simpl; rewrite ?app_nil_r; reflexivity.
  - rewrite IH, addEdge_lookup.
    destruct (m !! k); simpl; rewrite <- ?app_assoc; reflexivity.
Qed.

Lemma emptyLists_lookup (nodes : list Node) (m : gmap string (list Neighbor.t))
    (k : string) :
  foldl (fun m node => <[id node := []]> m) m nodes !! k
  = if decide (k ∈ map id nodes) then Some [] else m !! k.
Proof.
  revert m. induction nodes as [|n nodes IH]; intros m; cbn [foldl map].
  - rewrite decide_False by apply not_elem_of_nil. reflexivity.
  - rewrite IH. destruct (decide (k ∈ map id nodes)) as [Hin|Hnin].
    + rewrite decide_True by (right; exact Hin). reflexivity.
    + destruct (decide (id n = k)) as [<-|Hne].
      * rewrite decide_True by left. apply lookup_insert_eq.
      * rewrite decide_False by (rewrite elem_of_cons; intros [->|?]; tauto).
        apply lookup_insert_ne, Hne.
Qed.

(** The built index, entry by entry. *)
Lemma buildAdjacencyList_lookup (nodes : list Node) (edges : list Edge) (k : string) :
  buildAdjacencyList nodes edges !! k
  = if decide (k ∈ map id nodes) then Some (flat_map (contribution k) edges) else None.
Proof.
  unfold buildAdjacencyList. rewrite foldl_addEdge_lookup, emptyLists_lookup.
  destruct (decide (k ∈ map id nodes)); [reflexivity|].
  rewrite lookup_empty. reflexivity.
Qed.

Lemma filter_carries_flat_map (e : Edge) (k : string) (edges : list Edge) :
  filter (carries e) (flat_map (contribution k) edges)
  = flat_map (fun x => if decide (x = e) then contribution k e else []) edges.
Proof.
  induction edges as [|x edges IH]; simpl; [reflexivity|].
  rewrite filter_app, IH. f_equal.
  unfold contribution, carries.
  destruct (decide (x = e)) as [->|Hne].
  - destruct (decide (from e = k)), (decide (to e = k)); simpl;
      rewrite ?filter_cons_True, ?filter_nil by reflexivity; reflexivity.
  - destruct (decide (from x = k)), (decide (to x = k)); simpl;
      rewrite ?filter_cons_False, ?filter_nil by exact Hne; reflexivity.
Qed.

Lemma flat_map_single (e : Edge) (nb : Neighbor.t) (edges : list Edge) :
  flat_map (fun x => if decide (x = e) then [nb] else []) edges
  = replicate (occurrences e edges) nb.
Proof.
  unfold occurrences. induction edges as [|x edges IH]; simpl; [reflexivity|].
  destruct (decide (x = e)) as [->|Hne].
  - rewrite filter_cons_True by reflexivity. simpl. f_equal. exact IH.
  - rewrite filter_cons_False by exact Hne. exact IH.
Qed.

Lemma flat_map_none (e : Edge) (edges : list Edge) :
  flat_map (fun x => if decide (x = e) then @nil Neighbor.t else []) edges = [].
Proof.
  induction edges as [|x edges IH]; simpl; [reflexivity|].
  rewrite IH. destruct (decide (x = e)); reflexivity.
Qed.

Lemma flat_map_listed (e : Edge) (entries : list Neighbor.t) (edges : list Edge) :
  flat_map (fun x => if decide (x = e) then entries else []) edges
  = concat (replicate (occurrences e edges) entries).
Proof.
  unfold occurrences. induction edges as [|x edges IH]; simpl; [reflexivity|].
  destruct (decide (x = e)) as [->|Hne].
  - rewrite filter_cons_True by reflexivity. simpl. f_equal. exact IH.
  - rewrite filter_cons_False by exact Hne. exact IH.
Qed.

(** C9, as stated, fails: construction validates nothing.  An edge of
    distance -5 is indexed at both endpoints, and a zero-length self-loop is
    indexed twice at its only endpoint. *)
Lemma buildAdjacencyList_admits_malformed :
  malformed backwardsEdge /\ malformed loopEdge
  /\ ~ keptOut backwardsEdge (buildAdjacencyList twoNodes [backwardsEdge])
  /\ ~ keptOut loopEdge (buildAdjacencyList twoNodes [loopEdge])
  /\ buildAdjacencyList twoNodes [backwardsEdge; loopEdge] !! "A"
     = Some [ {| Neighbor.to := "B"; Neighbor.edge := backwardsEdge |};
              {| Neighbor.to := "A"; Neighbor.edge := loopEdge |};
              {| Neighbor.to := "A"; Neighbor.edge := loopEdge |} ].
Proof.
  split; [left; vm_compute; discriminate|].
  split; [right; reflexivity|].
  split; [|split].
  - intros H.
    specialize (H "A" [ {| Neighbor.to := "B"; Neighbor.edge := backwardsEdge |} ]).
    rewrite buildAdjacencyList_lookup in H. specialize (H eq_refl).
    rewrite filter_cons_True in H by reflexivity. discriminate.
  - intros H.
    specialize (H "A" [ {| Neighbor.to := "A"; Neighbor.edge := loopEdge |};
                        {| Neighbor.to := "A"; Neighbor.edge := loopEdge |} ]).
    rewrite buildAdjacencyList_lookup in H. specialize (H eq_refl).
    rewrite filter_cons_True in H by reflexivity. discriminate.
  - rewrite buildAdjacencyList_lookup. reflexivity.
Qed.

(** C9 (amended): construction validates nothing and never fails: an id
    that is not a node has no list, and in the list of a node every input
    edge, whatever its distance, appears once per listing in the input for
    each of its endpoints that is this node, pointing to the other endpoint.
    So a self-loop is listed twice at its node, an edge with one endpoint
    that is not a node is listed at the other, and an edge whose endpoints
    are distinct nodes is indexed once per listing at each endpoint and
    nowhere else: listed once, it is carried by exactly two adjacency
    entries, one per endpoint. *)
Theorem buildAdjacencyList_entries (nodes : list Node) (edges : list Edge)
    (e : Edge) (k : string) :
  let graph := buildAdjacencyList nodes edges in
  (k ∉ map id nodes -> graph !! k = None)
  /\ (k ∈ map id nodes ->
      exists l, graph !! k = Some l
        /\ filter (carries e) l
           = concat (replicate (occurrences e edges)
               ((if decide (from e = k)
                 then [ {| Neighbor.to := to e; Neighbor.edge := e |} ] else [])
                ++ (if decide (to e = k)
                    then [ {| Neighbor.to := from e; Neighbor.edge := e |} ] else []))))
  /\ (from e ∈ map id nodes -> to e ∈ map id nodes -> from e <> to e ->
      (exists l, graph !! from e = Some l
         /\ filter (carries e) l
            = replicate (occurrences e edges)
                {| Neighbor.to := to e; Neighbor.edge := e |})
      /\ (exists l, graph !! to e = Some l
         /\ filter (carries e) l
            = replicate (occurrences e edges)
                {| Neighbor.to := from e; Neighbor.edge := e |})
      /\ (forall j l, j <> from e -> j <> to e -> graph !! j = Some l ->
          filter (carries e) l = [])).
Proof.
  intros graph. subst graph. split; [|split].
  - intros Hk. rewrite buildAdjacencyList_lookup, decide_False by exact Hk.
    reflexivity.
  - intros Hk. eexists. split.
    + rewrite buildAdjacencyList_lookup, decide_True by exact Hk. reflexivity.
    + rewrite filter_carries_flat_map. apply flat_map_listed.
  - intros Hf Ht Hne. repeat split.
    + eexists. split.
      * rewrite buildAdjacencyList_lookup, decide_True by exact Hf. reflexivity.
      * rewrite filter_carries_flat_map. unfold contribution.
        rewrite decide_True by reflexivity.
        rewrite decide_False by congruence. simpl. apply flat_map_single.
    + eexists. split.
      * rewrite buildAdjacencyList_lookup, decide_True by exact Ht. reflexivity.
      * rewrite filter_carries_flat_map. unfold contribution.
        rewrite decide_False by exact Hne.
        rewrite decide_True by reflexivity. simpl. apply flat_map_single.
    + intros j l Hj1 Hj2. rewrite buildAdjacencyList_lookup.
      destruct (decide (j ∈ map id nodes)); [|discriminate].
      intros [= <-]. rewrite filter_carries_flat_map. unfold contribution.
      rewrite decide_False by congruence.
      rewrite decide_False by congruence. simpl. apply flat_map_none.
Qed.

(** A self-loop is listed twice at its node, and an edge of negative
    distance once at its other end. *)
Lemma buildAdjacencyList_entries_witness :
  (exists l, buildAdjacencyList twoNodes [backwardsEdge; loopEdge] !! "A" = Some l
     /\ filter (carries loopEdge) l
        = [ {| Neighbor.to := "A"; Neighbor.edge := loopEdge |};
            {| Neighbor.to := "A"; Neighbor.edge := loopEdge |} ])
  /\ (exists l, buildAdjacencyList twoNodes [backwardsEdge; loopEdge] !! "B" = Some l
        /\ filter (carries backwardsEdge) l
           = [ {| Neighbor.to := "A"; Neighbor.edge := backwardsEdge |} ]).
Proof.
  split.
  - destruct (proj1 (proj2 (buildAdjacencyList_entries twoNodes
                              [backwardsEdge; loopEdge] loopEdge "A")))
      as (l & Hl & Hf); [left|].
    exists l. split; [exact Hl|]. rewrite Hf. reflexivity.
  - destruct (proj2 (proj2 (buildAdjacencyList_entries twoNodes
                              [backwardsEdge; loopEdge] backwardsEdge "B")))
      as (_ & (l & Hl & Hf) & _); [left | right; left | discriminate|].
    exists l. split; [exact Hl|]. rewrite Hf. reflexivity.
Defined.

(** ** The open set *)

Lemma insertEntry_perm (x : Entry.t) (l : list Entry.t) : insertEntry x l ≡ₚ x :: l.
Proof.
  induction l as [|y l IH]; cbn [insertEntry]; [reflexivity|].
  destruct (numGtb (compareEntries x y) (Num 0)); [|reflexivity].
  rewrite IH. apply Permutation_swap.
Qed.

Lemma sortOpenSet_perm (l : list Entry.t) : sortOpenSet l ≡ₚ l.
Proof.
  induction l as [|x l IH]; simpl; [reflexivity|].
  rewrite insertEntry_perm, IH. reflexivity.
Qed.

(** ** The node map *)

Lemma nodeMap_fold_lookup (nodes : list Node) (m : gmap string Node) (k : string) :
  is_Some (foldl (fun m n => <[id n := n]> m) m nodes !! k)
  <-> k ∈ map id nodes \/ is_Some (m !! k).
Proof.
  revert m. induction nodes as [|n nodes IH]; intros m; cbn [foldl map].
  - rewrite elem_of_nil. tauto.
  - rewrite IH, elem_of_cons. destruct (decide (id n = k)) as [<-|Hne].
    + rewrite lookup_insert_eq. split; [auto | intros _; right; eauto].
    + rewrite lookup_insert_ne by exact Hne. split; [tauto|].
      intros [[->|?]|?]; tauto.
Qed.

Lemma makeNodeMap_is_Some (nodes : list Node) (k : string) :
  is_Some (makeNodeMap nodes !! k) <-> k ∈ map id nodes.
Proof.
  unfold makeNodeMap. rewrite nodeMap_fold_lookup, lookup_empty.
  split; [intros [H|[x H]]; [exact H | discriminate] | auto].
Qed.

(** ** One relaxation *)

Section Relaxation.

Variable calculateDistance : Q -> Q -> Q -> Q -> Q.
Variable graph : gmap string (list Neighbor.t).
Variable nodeMap : gmap string Node.
Variable endNode : Node.
Variable endId : string.
Variable profile : Profile.

Local Abbreviation Heuristic := (heuristic calculateDistance nodeMap endNode).
Local Abbreviation Relax := (relax calculateDistance nodeMap endNode profile).
Local Abbreviation Expand := (expand calculateDistance nodeMap endNode profile).
Local Abbreviation SearchStep :=
  (searchStep calculateDistance graph nodeMap endNode endId profile).
Local Abbreviation SearchLoop :=
  (searchLoop calculateDistance graph nodeMap endNode endId profile).
Local Abbreviation Case := (RelaxCase calculateDistance nodeMap endNode profile).
Local Abbreviation Gated := (gated profile).
Local Abbreviation Accessible := (fun e => isEdgeAccessible e profile = true).

Lemma relax_case (current : string) (st : Search) (neighbor : Neighbor.t) :
  Case current st neighbor (Relax current st neighbor).
Proof.
  unfold relax.
  destruct (isEdgeAccessible (Neighbor.edge neighbor) profile) eqn:Hacc; simpl;
    [|apply relax_skip; exact Hacc].
  destruct (gScore st !! current) as [gCurrent|] eqn:Hcur;
    [|apply relax_undefined; assumption].
  destruct (gScore st !! Neighbor.to neighbor) as [g|] eqn:Hto.
  - destruct (numLtb _ g) eqn:Hlt.
    + apply numLtb_true in Hlt. unfold heuristic.
      destruct (nodeMap !! Neighbor.to neighbor) as [node|] eqn:Hnode; simpl.
      * apply relax_record; try assumption. unfold improves. rewrite Hto. exact Hlt.
      * eapply relax_throw; try eassumption. unfold improves. rewrite Hto. exact Hlt.
    + apply numLtb_false in Hlt. eapply relax_keep; eassumption.
  - unfold heuristic.
    destruct (nodeMap !! Neighbor.to neighbor) as [node|] eqn:Hnode; simpl.
    + apply relax_record; try assumption. unfold improves. rewrite Hto. exact I.
    + eapply relax_throw; try eassumption. unfold improves. rewrite Hto. exact I.
Qed.

(** *** Only accessible edges are recorded *)

Lemma relax_gated (current : string) (st st' : Search) (neighbor : Neighbor.t) :
  Relax current st neighbor = Returned st' ->
  Gated (edgeUsed st) -> Gated (edgeUsed st').
Proof.
  intros Hr Hg. pose proof (relax_case current st neighbor) as Hc.
  rewrite Hr in Hc. inversion Hc; subst; try exact Hg.
  intros k e. simpl. destruct (decide (Neighbor.to neighbor = k)) as [<-|Hne].
  - rewrite lookup_insert_eq. intros [= <-]. assumption.
  - rewrite lookup_insert_ne by exact Hne. apply Hg.
Qed.

Lemma expand_gated (current : string) (neighbors : list Neighbor.t) (st st' : Search) :
  Expand current neighbors st = Returned st' ->
  Gated (edgeUsed st) -> Gated (edgeUsed st').
Proof.
  revert st. induction neighbors as [|nb rest IH]; intros st; simpl.
  - intros [= <-]. auto.
  - destruct (Relax current st nb) as [st1| | |] eqn:Hr; simpl; try discriminate.
    intros He Hg. eapply IH; [exact He|]. eapply relax_gated; eassumption.
Qed.

Lemma walkBack_gated (fuel : nat) (cf : gmap string string) (eu : gmap string Edge)
    (w w' : Walk) :
  walkBack fuel cf eu profile w = Returned w' ->
  Gated eu ->
  Forall Accessible (wEdges w) ->
  Forall Accessible (wEdges w').
Proof.
  revert w. induction fuel as [|fuel IH]; intros w; simpl.
  - destruct (cf !! wCurrent w); [discriminate|]. intros [= <-]. auto.
  - destruct (cf !! wCurrent w) as [prev|]; [|intros [= <-]; auto].
    destruct (eu !! wCurrent w) as [e|] eqn:He; [|discriminate].
    intros Hw Hg Hall. eapply IH; [exact Hw | exact Hg |]. simpl.
    constructor; [eapply Hg; exact He | exact Hall].
Qed.

Lemma reconstructPath_gated (fuel : nat) (cf : gmap string string)
    (eu : gmap string Edge) (k : string) (totalWeight : number) (r : RouteResult) :
  reconstructPath fuel cf eu k totalWeight profile = Returned r ->
  Gated eu ->
  Forall Accessible (edges r).
Proof.
  intros Hr Hg. apply reconstructPath_Returned in Hr as (w & Hw & ->). simpl.
  eapply walkBack_gated; [exact Hw | exact Hg | constructor].
Qed.

(** *** The shape of an answer *)

Lemma searchStep_cases (pathFuel : nat) (st : Search) (next : RouteResult + Search) :
  SearchStep pathFuel st = Returned next ->
  match next with
  | inl r => Answer endId profile st pathFuel r
  | inr st' =>
    exists current rest,
      sortOpenSet (openSet st) = current :: rest
      /\ Entry.id current <> endId
      /\ Expand (Entry.id current) (default [] (graph !! Entry.id current))
           {| openSet := rest; cameFrom := cameFrom st;
              gScore := gScore st; edgeUsed := edgeUsed st |} = Returned st'
  end.
Proof.
  unfold searchStep.
  destruct (sortOpenSet (openSet st)) as [|current rest] eqn:Hs.
  - intros [= <-]. apply answer_notFound. reflexivity.
  - destruct (String.eqb (Entry.id current) endId) eqn:Heq.
    + apply String.eqb_eq in Heq. rewrite Heq.
      destruct (gScore st !! endId) as [tw|] eqn:Hg; [|discriminate].
      destruct (reconstructPath _ _ _ _ _ _) as [r| | |] eqn:Hr; simpl;
        try discriminate.
      intros [= <-]. eapply answer_route; [exact Hg | exact Hr].
    + apply String.eqb_neq in Heq.
      destruct (expand _ _ _ _ _ _ _) as [st'| | |] eqn:He; simpl;
        try discriminate.
      intros [= <-]. exists current, rest. auto.
Qed.

Lemma searchStep_gated (pathFuel : nat) (st : Search) (next : RouteResult + Search) :
  SearchStep pathFuel st = Returned next ->
  Gated (edgeUsed st) ->
  match next with
  | inl r => Forall Accessible (edges r)
  | inr st' => Gated (edgeUsed st')
  end.
Proof.
  intros Hs Hg. apply searchStep_cases in Hs. destruct next as [r|st'].
  - destruct Hs as [->|tw _ Hr]; [constructor|].
    eapply reconstructPath_gated; eassumption.
  - destruct Hs as (current & rest & _ & _ & He).
    eapply expand_gated in He; [exact He | exact Hg].
Qed.

Lemma searchLoop_gated (fuel pathFuel : nat) (st : Search) (r : RouteResult) :
  SearchLoop fuel pathFuel st = Returned r ->
  Gated (edgeUsed st) ->
  Forall Accessible (edges r).
Proof.
  revert st. induction fuel as [|fuel IH]; intros st; simpl; [discriminate|].
  destruct (SearchStep pathFuel st) as [next| | |] eqn:Hs; simpl; try discriminate.
  intros Hl Hg. pose proof (searchStep_gated _ _ _ Hs Hg) as Hn.
  destruct next as [r'|st'].
  - injection Hl as <-. exact Hn.
  - eapply IH; eassumption.
Qed.

End Relaxation.

(** ** More fuel never changes an outcome *)

Section Fuel.

Variable calculateDistance : Q -> Q -> Q -> Q -> Q.
Variable graph : gmap string (list Neighbor.t).
Variable nodeMap : gmap string Node.
Variable endNode : Node.
Variable endId : string.
Variable profile : Profile.

Local Abbreviation SearchStep :=
  (searchStep calculateDistance graph nodeMap endNode endId profile).
Local Abbreviation SearchLoop :=
  (searchLoop calculateDistance graph nodeMap endNode endId profile).

Lemma walkBack_more_fuel (cf : gmap string string) (eu : gmap string Edge)
    (n m : nat) (w : Walk) :
  n <= m ->
  walkBack n cf eu profile w <> OutOfFuel ->
  walkBack m cf eu profile w = walkBack n cf eu profile w.
Proof.
  revert m w. induction n as [|n IH]; intros m w Hle Hne.
  - simpl in *. destruct m; simpl; destruct (cf !! wCurrent w); congruence.
  - destruct m as [|m]; [lia|]. simpl in *.
    destruct (cf !! wCurrent w); [|reflexivity].
    destruct (eu !! wCurrent w); [|reflexivity].
    apply IH; [lia | exact Hne].
Qed.

Lemma reconstructPath_more_fuel (cf : gmap string string) (eu : gmap string Edge)
    (k : string) (totalWeight : number) (n m : nat) :
  n <= m ->
  reconstructPath n cf eu k totalWeight profile <> OutOfFuel ->
  reconstructPath m cf eu k totalWeight profile
  = reconstructPath n cf eu k totalWeight profile.
Proof.
  intros Hle Hne. unfold reconstructPath in *.
  rewrite (walkBack_more_fuel cf eu n m); [reflexivity | exact Hle |].
  intros Heq. rewrite Heq in Hne. apply Hne. reflexivity.
Qed.

Lemma searchStep_more_fuel (st : Search) (n m : nat) :
  n <= m ->
  SearchStep n st <> OutOfFuel ->
  SearchStep m st = SearchStep n st.
Proof.
  intros Hle Hne. unfold searchStep in *.
  destruct (sortOpenSet (openSet st)) as [|current rest]; [reflexivity|].
  destruct (String.eqb (Entry.id current) endId); [|reflexivity].
  destruct (gScore st !! endId) as [tw|]; [|reflexivity].
  rewrite (reconstructPath_more_fuel _ _ _ _ n m); [reflexivity | exact Hle |].
  intros Heq. rewrite Heq in Hne. apply Hne. reflexivity.
Qed.

Lemma searchLoop_more_fuel (n m pn pm : nat) (st : Search) :
  n <= m -> pn <= pm ->
  SearchLoop n pn st <> OutOfFuel ->
  SearchLoop m pm st = SearchLoop n pn st.
Proof.
  revert m st. induction n as [|n IH]; intros m st Hle Hp Hne.
  - simpl in Hne. congruence.
  - destruct m as [|m]; [lia|]. simpl in *.
    assert (Hs : SearchStep pn st <> OutOfFuel).
    { intros Heq. rewrite Heq in Hne. apply Hne. reflexivity. }
    rewrite (searchStep_more_fuel st pn pm Hp Hs).
    destruct (SearchStep pn st) as [[r|st']| | |]; simpl in *; try reflexivity.
    apply IH; [lia | exact Hp | exact Hne].
Qed.

(** An answer of the loop comes from some state of the search. *)
Lemma searchLoop_answer (fuel pathFuel : nat) (st : Search) (r : RouteResult) :
  SearchLoop fuel pathFuel st = Returned r ->
  exists st', Answer endId profile st' pathFuel r.
Proof.
  revert st. induction fuel as [|fuel IH]; intros st; simpl; [discriminate|].
  destruct (SearchStep pathFuel st) as [next| | |] eqn:Hs; simpl; try discriminate.
  apply (searchStep_cases calculateDistance graph nodeMap endNode endId profile) in Hs.
  destruct next as [r'|st'].
  - intros [= <-]. exists st. exact Hs.
  - apply IH.
Qed.

End Fuel.

Lemma findAccessibleRoute_more_fuel (calculateDistance : Q -> Q -> Q -> Q -> Q)
    (graph : gmap string (list Neighbor.t)) (nodes : list Node)
    (startId endId : string) (profile : Profile) (n m : nat) :
  n <= m ->
  findAccessibleRoute calculateDistance n graph nodes startId endId profile <> OutOfFuel ->
  findAccessibleRoute calculateDistance m graph nodes startId endId profile
  = findAccessibleRoute calculateDistance n graph nodes startId endId profile.
Proof.
  intros Hle. unfold findAccessibleRoute.
  destruct (makeNodeMap nodes !! startId); [|reflexivity].
  destruct (makeNodeMap nodes !! endId); [|reflexivity].
  destruct (heuristic _ _ _ _); simpl; try reflexivity.
  intros Hne. apply searchLoop_more_fuel; assumption.
Qed.

Lemma walkBack_path (fuel : nat) (cf : gmap string string) (eu : gmap string Edge)
    (profile : Profile) (w w' : Walk) :
  walkBack fuel cf eu profile w = Returned w' -> wPath w <> [] -> wPath w' <> [].
Proof.
  revert w. induction fuel as [|fuel IH]; intros w; simpl.
  - destruct (cf !! wCurrent w); [discriminate|]. intros [= <-]. auto.
  - destruct (cf !! wCurrent w); [|intros [= <-]; auto].
    destruct (eu !! wCurrent w); [|discriminate].
    intros Hw _. apply IH in Hw; [exact Hw|]. simpl. discriminate.
Qed.

(** ** Termination and totality of the search *)

Lemma lex_induction (P : nat -> nat -> Prop) :
  (forall a b,
     (forall a' b', a' < a \/ (a' = a /\ b' < b) -> P a' b') -> P a b) ->
  forall a b, P a b.
Proof.
  intros step a. induction a as [a IHa] using lt_wf_ind.
  intros b. induction b as [b IHb] using lt_wf_ind.
  apply step. intros a' b' [Hlt|[-> Hlt]].
  - apply IHa, Hlt.
  - apply IHb, Hlt.
Qed.

Section Totality.

Variable calculateDistance : Q -> Q -> Q -> Q -> Q.
Variable graph : gmap string (list Neighbor.t).
Variable nodeMap : gmap string Node.
Variable endNode : Node.
Variable endId : string.
Variable profile : Profile.
Variable startId : string.

Hypothesis well_formed : wellFormed graph nodeMap.

Local Abbreviation Relax := (relax calculateDistance nodeMap endNode profile).
Local Abbreviation Expand := (expand calculateDistance nodeMap endNode profile).
Local Abbreviation SearchStep :=
  (searchStep calculateDistance graph nodeMap endNode endId profile).
Local Abbreviation SearchLoop :=
  (searchLoop calculateDistance graph nodeMap endNode endId profile).
Local Abbreviation Case := (RelaxCase calculateDistance nodeMap endNode profile).
Local Abbreviation Weight nb := (calculateEdgeWeight (Neighbor.edge nb) profile).
Local Abbreviation Grid := (grid graph profile).
Local Abbreviation OnGrid := (onGrid graph profile).
Local Abbreviation Ticks := (ticks graph profile).
Local Abbreviation CostSum := (costSum graph profile).
Local Abbreviation Unknown := (unknown nodeMap).
Local Abbreviation Effort := (effort graph profile).
Local Abbreviation Below := (below graph nodeMap profile).
Local Abbreviation NotAbove := (notAbove graph nodeMap profile).
Local Abbreviation Connected := (connected graph profile startId).
Local Abbreviation Inv := (Invariant graph profile startId).

(** *** The grid of costs *)

Lemma entry_listed (k : string) (l : list Neighbor.t) (nb : Neighbor.t) :
  graph !! k = Some l -> nb ∈ l -> nb ∈ entries graph.
Proof.
  intros Hk Hin. unfold entries. apply list_elem_of_In, in_concat.
  exists l. split; [|apply list_elem_of_In, Hin].
  apply in_map_iff. exists (k, l). split; [reflexivity|].
  apply list_elem_of_In, elem_of_map_to_list, Hk.
Qed.

Lemma denominator_divides (f : Neighbor.t -> positive) (l : list Neighbor.t)
    (nb : Neighbor.t) :
  nb ∈ l ->
  exists c : positive, foldr (fun nb d => (f nb * d)%positive) 1%positive l
                       = (f nb * c)%positive.
Proof.
  induction l as [|x l IH]; [intros H; inversion H|].
  rewrite elem_of_cons. intros [->|Hin]; simpl.
  - eexists. reflexivity.
  - destruct (IH Hin) as [c ->]. exists (f x * c)%positive. lia.
Qed.

Lemma onGrid_weight (nb : Neighbor.t) (w : Q) :
  nb ∈ entries graph -> Weight nb = Num w -> OnGrid w.
Proof.
  intros Hin Hw. unfold onGrid, grid.
  destruct (denominator_divides
              (fun nb => denominator (calculateEdgeWeight (Neighbor.edge nb) profile))
              _ _ Hin) as [c ->].
  rewrite Hw. destruct w as [n d]. simpl.
  exists (n * Zpos c)%Z. unfold Qeq. simpl. lia.
Qed.

Lemma onGrid_0 : OnGrid 0.
Proof. exists 0%Z. reflexivity. Qed.

Lemma onGrid_plus (a b : Q) : OnGrid a -> OnGrid b -> OnGrid (a + b).
Proof.
  intros [ka Ha] [kb Hb]. exists (ka + kb)%Z. rewrite Ha, Hb.
  unfold Qeq, Qplus. simpl. nia.
Qed.

Lemma ticks_onGrid (q : Q) (k : Z) :
  (q == k # Grid)%Q -> Ticks (Num q) = Z.to_nat k.
Proof.
  intros Hq. unfold ticks. f_equal.
  assert (H : (q * inject_Z (Zpos Grid) == inject_Z k)%Q).
  { rewrite Hq. unfold Qeq, Qmult, inject_Z. simpl. lia. }
  rewrite H. apply Qfloor_Z.
Qed.

Lemma ticks_lt (a b : Q) :
  OnGrid a -> OnGrid b -> (0 <= a)%Q -> (a < b)%Q -> Ticks (Num a) < Ticks (Num b).
Proof.
  intros [ka Ha] [kb Hb] H0 Hlt.
  rewrite (ticks_onGrid a ka Ha), (ticks_onGrid b kb Hb).
  rewrite Ha in H0. rewrite Ha, Hb in Hlt.
  unfold Qle in H0. unfold Qlt in Hlt. simpl in *. nia.
Qed.

Lemma weight_nonneg (k : string) (l : list Neighbor.t) (nb : Neighbor.t) (w : Q) :
  graph !! k = Some l -> nb ∈ l -> Weight nb = Num w -> (0 <= w)%Q.
Proof.
  intros Hk Hin Hw. destruct (well_formed k l nb Hk Hin) as [_ Hd].
  destruct (calculateEdgeWeight_cases (Neighbor.edge nb) profile)
    as [[_ Hnan]|(_ & w' & Hw' & Hle)]; [congruence|].
  rewrite Hw in Hw'. injection Hw' as <-. specialize (Hle Hd). lra.
Qed.

(** *** The measures under an update of a best-known cost *)

Lemma costSum_insert_new (g : gmap string number) (v : string) (q : number) :
  g !! v = None -> CostSum (<[v := q]> g) = Ticks q + CostSum g.
Proof.
  intros Hv. unfold costSum.
  rewrite map_fold_insert_L; [reflexivity | intros; lia | exact Hv].
Qed.

Lemma costSum_insert_old (g : gmap string number) (v : string) (q q0 : number) :
  g !! v = Some q0 -> CostSum (<[v := q]> g) + Ticks q0 = Ticks q + CostSum g.
Proof.
  intros Hv. rewrite <- (insert_delete_eq g).
  rewrite costSum_insert_new by apply lookup_delete_eq.
  unfold costSum at 2.
  rewrite (map_fold_delete_L _ _ v q0 g); [|intros; lia | exact Hv].
  fold (CostSum (delete v g)). lia.
Qed.

Lemma unknown_insert_new (st st' : Search) (v : string) (q : number) :
  gScore st' = <[v := q]> (gScore st) ->
  gScore st !! v = None -> is_Some (nodeMap !! v) ->
  Unknown st' < Unknown st.
Proof.
  intros Heq Hv Hn. unfold unknown. rewrite Heq. apply subset_size.
  rewrite dom_insert_L.
  apply elem_of_dom in Hn. apply not_elem_of_dom in Hv.
  set_solver.
Qed.

Lemma unknown_insert_old (st st' : Search) (v : string) (q : number) :
  gScore st' = <[v := q]> (gScore st) ->
  is_Some (gScore st !! v) ->
  Unknown st' = Unknown st.
Proof.
  intros Heq Hv. unfold unknown.
  rewrite Heq, dom_insert_lookup_L by exact Hv. reflexivity.
Qed.

Lemma notAbove_refl (st : Search) : NotAbove st st.
Proof. right. split; [reflexivity | lia]. Qed.

Lemma notAbove_trans (st1 st2 st3 : Search) :
  NotAbove st1 st2 -> NotAbove st2 st3 -> NotAbove st1 st3.
Proof. unfold notAbove. lia. Qed.

Lemma below_notAbove (st1 st2 st3 : Search) :
  NotAbove st1 st2 -> Below st2 st3 -> Below st1 st3.
Proof. unfold notAbove, below. lia. Qed.

(** *** Back-pointers under an update *)

Lemma reachesAvoiding_insert (cf : gmap string string) (x y v : string) :
  reachesAvoiding cf x v -> reaches (<[x := y]> cf) v.
Proof.
  induction 1 as [v Hne Hv|v u Hne Hv _ IH].
  - apply reaches_root. rewrite lookup_insert_ne by congruence. exact Hv.
  - apply reaches_step with u; [|exact IH].
    rewrite lookup_insert_ne by congruence. exact Hv.
Qed.

Lemma reaches_avoiding_new (st : Search) (x : string) :
  (forall v u, cameFrom st !! v = Some u ->
     exists gu gv, gScore st !! u = Some gu /\ gScore st !! v = Some gv /\ before gu gv) ->
  gScore st !! x = None ->
  forall v, reaches (cameFrom st) v -> is_Some (gScore st !! v) ->
  reachesAvoiding (cameFrom st) x v.
Proof.
  intros Horder Hx v Hv.
  assert (Hne : forall v, is_Some (gScore st !! v) -> v <> x).
  { intros v' [g Hg] ->. congruence. }
  induction Hv as [v Hroot|v u Hstep _ IH]; intros Hg.
  - apply avoiding_root; [apply Hne, Hg | exact Hroot].
  - apply avoiding_step with u; [apply Hne, Hg | exact Hstep |].
    apply IH. destruct (Horder v u Hstep) as (gu & gv & Hgu & _). rewrite Hgu. eauto.
Qed.

Lemma reaches_avoiding_old (st : Search) (x : string) (gx c : Q) :
  (forall v u, cameFrom st !! v = Some u ->
     exists gu gv, gScore st !! u = Some gu /\ gScore st !! v = Some gv /\ before gu gv) ->
  gScore st !! x = Some (Num gx) -> (c < gx)%Q ->
  forall v, reaches (cameFrom st) v ->
  forall q, gScore st !! v = Some (Num q) -> (q <= c)%Q ->
  reachesAvoiding (cameFrom st) x v.
Proof.
  intros Horder Hx Hlt v Hv.
  assert (Hne : forall v q, gScore st !! v = Some (Num q) -> (q <= c)%Q -> v <> x).
  { intros v' q Hg Hle ->. rewrite Hx in Hg. injection Hg as <-. lra. }
  induction Hv as [v Hroot|v u Hstep _ IH]; intros q Hg Hle.
  - apply avoiding_root; [eapply Hne; eassumption | exact Hroot].
  - apply avoiding_step with u; [eapply Hne; eassumption | exact Hstep |].
    destruct (Horder v u Hstep) as (gu & gv & Hgu & Hgv & Hbefore).
    rewrite Hg in Hgv. injection Hgv as <-.
    destruct gu as [qu|]; simpl in Hbefore; [|contradiction].
    apply (IH qu Hgu). lra.
Qed.

Lemma reaches_insert (cf : gmap string string) (x y : string) :
  reaches (<[x := y]> cf) y ->
  forall v, reaches cf v -> reaches (<[x := y]> cf) v.
Proof.
  intros Hy v Hv. induction Hv as [v Hroot|v u Hstep _ IH].
  - destruct (decide (x = v)) as [<-|Hne].
    + apply reaches_step with y; [apply lookup_insert_eq | exact Hy].
    + apply reaches_root. rewrite lookup_insert_ne by exact Hne. exact Hroot.
  - destruct (decide (x = v)) as [<-|Hne].
    + apply reaches_step with y; [apply lookup_insert_eq | exact Hy].
    + apply reaches_step with u; [|exact IH].
      rewrite lookup_insert_ne by exact Hne. exact Hstep.
Qed.

(** *** An improving relaxation keeps the invariant and does not go up *)

Lemma recorded_invariant (current : string) (st : Search) (nb : Neighbor.t)
    (l : list Neighbor.t) (gCurrent : number) (h : Q) :
  Inv st ->
  graph !! current = Some l -> nb ∈ l ->
  isEdgeAccessible (Neighbor.edge nb) profile = true ->
  gScore st !! current = Some gCurrent ->
  improves st (Neighbor.to nb) (numAdd gCurrent (Weight nb)) ->
  Inv (recorded current st nb (numAdd gCurrent (Weight nb)) h).
Proof.
  intros HI Hl Hin Hacc Hcur Himp.
  pose proof (fun w => weight_nonneg _ _ _ w Hl Hin) as Hw.
  assert (Hne : current <> Neighbor.to nb).
  { intros Heq. unfold improves in Himp. rewrite <- Heq, Hcur in Himp.
    destruct gCurrent as [g|]; [|contradiction].
    destruct (Weight nb) as [w|] eqn:HW; [|contradiction].
    simpl in Himp. specialize (Hw w eq_refl). lra. }
  destruct HI as [Hopen Hcost Hedge Horder Hreach Hconn].
  split; simpl.
  - intros x Hx. rewrite lookup_insert_is_Some'.
    destruct (inOpenSet _ _).
    + right. apply Hopen, Hx.
    + apply elem_of_app in Hx as [Hx|Hx]; [right; apply Hopen, Hx|].
      apply list_elem_of_singleton in Hx. subst x. left. reflexivity.
  - intros v q. destruct (decide (Neighbor.to nb = v)) as [<-|Hv].
    + rewrite lookup_insert_eq. intros [= Heq].
      destruct gCurrent as [g|]; [|discriminate].
      destruct (Weight nb) as [w|] eqn:HW; [|discriminate].
      injection Heq as <-.
      destruct (Hcost _ _ Hcur) as [H0 Hg]. specialize (Hw w eq_refl).
      split; [lra|].
      apply onGrid_plus; [exact Hg|].
      eapply onGrid_weight; [eapply entry_listed; eassumption | exact HW].
    + rewrite lookup_insert_ne by exact Hv. apply Hcost.
  - intros v u. destruct (decide (Neighbor.to nb = v)) as [<-|Hv].
    + rewrite !lookup_insert_eq. eauto.
    + rewrite !lookup_insert_ne by exact Hv. apply Hedge.
  - intros v u. destruct (decide (Neighbor.to nb = v)) as [<-|Hv].
    + rewrite !lookup_insert_eq. intros [= <-].
      rewrite lookup_insert_ne by congruence.
      exists gCurrent. eexists. split; [exact Hcur|]. split; [reflexivity|].
      destruct gCurrent as [g|]; [|exact I].
      destruct (Weight nb) as [w|] eqn:HW; [|exact I].
      simpl. specialize (Hw w eq_refl). lra.
    + rewrite lookup_insert_ne by exact Hv. intros Hcf.
      destruct (Horder v u Hcf) as (gu & gv & Hgu & Hgv & Hle).
      rewrite (lookup_insert_ne _ _ v) by exact Hv.
      destruct (decide (Neighbor.to nb = u)) as [<-|Hu].
      * rewrite lookup_insert_eq. eexists. exists gv.
        split; [reflexivity|]. split; [exact Hgv|].
        unfold improves in Himp. rewrite Hgu in Himp.
        destruct gv as [qv|]; [|exact I]. simpl in Hle.
        destruct gu as [qu|]; [|contradiction].
        destruct (numAdd gCurrent (Weight nb)) as [t|]; [|contradiction].
        simpl in *. lra.
      * rewrite lookup_insert_ne by exact Hu. exists gu, gv. auto.
  - assert (Hcurrent : reaches (<[Neighbor.to nb := current]> (cameFrom st)) current).
    { apply reachesAvoiding_insert.
      assert (Hrc : reaches (cameFrom st) current)
        by (apply Hreach; rewrite Hcur; eauto).
      unfold improves in Himp.
      destruct (gScore st !! Neighbor.to nb) as [g0|] eqn:Hto.
      - destruct gCurrent as [g|]; [|contradiction].
        destruct (Weight nb) as [w|] eqn:HW; [|contradiction].
        destruct g0 as [q0|]; [|contradiction]. simpl in Himp.
        specialize (Hw w eq_refl).
        apply (reaches_avoiding_old st _ q0 (g + w) Horder Hto Himp _ Hrc g Hcur).
        lra.
      - apply (reaches_avoiding_new st _ Horder Hto _ Hrc). rewrite Hcur. eauto. }
    intros v Hv. destruct (decide (Neighbor.to nb = v)) as [<-|Hne'].
    + apply reaches_step with current; [apply lookup_insert_eq | exact Hcurrent].
    + rewrite lookup_insert_ne in Hv by exact Hne'.
      apply reaches_insert; [exact Hcurrent | apply Hreach, Hv].
  - intros v Hv. destruct (decide (Neighbor.to nb = v)) as [<-|Hne'].
    + eapply connected_step; [|exact Hl | exact Hin | exact Hacc].
      apply Hconn. rewrite Hcur. eauto.
    + rewrite lookup_insert_ne in Hv by exact Hne'. apply Hconn, Hv.
Qed.

Lemma recorded_notAbove (current : string) (st : Search) (nb : Neighbor.t)
    (l : list Neighbor.t) (gCurrent : number) (h : Q) :
  Inv st ->
  graph !! current = Some l -> nb ∈ l ->
  gScore st !! current = Some gCurrent ->
  improves st (Neighbor.to nb) (numAdd gCurrent (Weight nb)) ->
  NotAbove (recorded current st nb (numAdd gCurrent (Weight nb)) h) st.
Proof.
  intros HI Hl Hin Hcur Himp.
  pose proof (fun w => weight_nonneg _ _ _ w Hl Hin) as Hw.
  destruct (well_formed _ _ _ Hl Hin) as [Hnode _].
  set (st' := recorded current st nb (numAdd gCurrent (Weight nb)) h).
  destruct (gScore st !! Neighbor.to nb) as [g0|] eqn:Hto.
  - right. split.
    + apply (unknown_insert_old st st' (Neighbor.to nb) (numAdd gCurrent (Weight nb)));
        [reflexivity | rewrite Hto; eauto].
    + unfold improves in Himp. rewrite Hto in Himp.
      pose proof (costSum_insert_old (gScore st) (Neighbor.to nb)
                    (numAdd gCurrent (Weight nb)) g0 Hto) as Hsum.
      destruct gCurrent as [g|]; [|contradiction].
      destruct (Weight nb) as [w|] eqn:HW; [|contradiction].
      destruct g0 as [q0|]; [|contradiction]. simpl in Himp.
      change (numAdd (Num g) (Num w)) with (Num (g + w)) in *.
      specialize (Hw w eq_refl).
      destruct (inv_cost _ _ _ _ HI _ _ Hcur) as [H0 Hg].
      destruct (inv_cost _ _ _ _ HI _ _ Hto) as [_ Hg0].
      assert (Hlt : Ticks (Num (g + w)) < Ticks (Num q0)).
      { apply ticks_lt; [|exact Hg0 | lra | exact Himp].
        apply onGrid_plus; [exact Hg|].
        eapply onGrid_weight; [eapply entry_listed; eassumption | exact HW]. }
      unfold effort. subst st'. unfold recorded. cbn [gScore openSet].
      destruct (inOpenSet _ _); [lia|].
      rewrite length_app. cbn [length]. lia.
  - left.
    apply (unknown_insert_new st st' (Neighbor.to nb) (numAdd gCurrent (Weight nb)));
      [reflexivity | exact Hto | exact Hnode].
Qed.

(** *** The inner loop *)

Lemma expand_total (current : string) (l : list Neighbor.t) :
  graph !! current = Some l ->
  forall (neighbors : list Neighbor.t) (st : Search),
    (forall nb, nb ∈ neighbors -> nb ∈ l) ->
    Inv st -> is_Some (gScore st !! current) ->
    exists st', Expand current neighbors st = Returned st'
                /\ Inv st' /\ NotAbove st' st.
Proof.
  intros Hl neighbors. induction neighbors as [|nb rest IH]; intros st Hsub HI Hcur.
  - exists st. split; [reflexivity|]. split; [exact HI | apply notAbove_refl].
  - assert (Hin : nb ∈ l) by (apply Hsub; left).
    assert (Hrest : forall nb', nb' ∈ rest -> nb' ∈ l) by (intros; apply Hsub; right; assumption).
    assert (Hnext : exists st1, Relax current st nb = Returned st1
                      /\ Inv st1 /\ NotAbove st1 st
                      /\ is_Some (gScore st1 !! current)).
    { pose proof (relax_case calculateDistance nodeMap endNode profile current st nb) as Hc.
      inversion Hc as [Hacc Heq|Hacc Hnone Heq|gC g Hacc HgC Hg Hle Heq
                       |gC Hacc HgC Himp Hnode Heq|gC node Hacc HgC Himp Hnode Heq].
      - exists st. auto using notAbove_refl.
      - rewrite Hnone in Hcur. destruct Hcur; discriminate.
      - exists st. auto using notAbove_refl.
      - destruct (well_formed _ _ _ Hl Hin) as [[x Hx] _]. congruence.
      - eexists. split; [reflexivity|]. split; [|split].
        + eapply recorded_invariant; eassumption.
        + eapply recorded_notAbove; eassumption.
        + simpl. rewrite lookup_insert_is_Some'. right. exact Hcur. }
    destruct Hnext as (st1 & Hr & HI1 & Hna1 & Hcur1).
    destruct (IH st1 Hrest HI1 Hcur1) as (st' & He & HI' & Hna').
    exists st'. split; [|split].
    + simpl. rewrite Hr. exact He.
    + exact HI'.
    + eapply notAbove_trans; eassumption.
Qed.

(** *** The loop of [reconstructPath] ends *)

Lemma walkBack_total (cf : gmap string string) (eu : gmap string Edge) :
  (forall x u, cf !! x = Some u -> is_Some (eu !! x)) ->
  forall v, reaches cf v ->
  exists d, forall w0, wCurrent w0 = v ->
    exists w, forall pathFuel, d <= pathFuel ->
      walkBack pathFuel cf eu profile w0 = Returned w.
Proof.
  intros Hedge v Hv. induction Hv as [v Hroot|v u Hstep _ [d IH]].
  - exists 0. intros w0 Hw0. exists w0. intros pathFuel _.
    destruct pathFuel; simpl; rewrite Hw0, Hroot; reflexivity.
  - exists (S d). intros w0 Hw0.
    destruct (Hedge v u Hstep) as [e He].
    set (issues' :=
           match getEdgeAccessibilityLevel e profile with
           | accessible => wIssues w0
           | lv => wIssues w0 ++ [ {| issueEdge := e; level := lv;
                                      reasons := issueReasons e |} ]
           end).
    destruct (IH {| wPath := u :: wPath w0; wEdges := e :: wEdges w0;
                    wIssues := issues'; wCurrent := u;
                    wTotalDistance := (wTotalDistance w0 + distance e)%Q |}
                 eq_refl) as [w Hw].
    exists w. intros pathFuel Hle.
    destruct pathFuel as [|pathFuel]; [lia|].
    simpl. rewrite Hw0, Hstep, He. subst issues'.
    destruct (getEdgeAccessibilityLevel e profile); apply Hw; lia.
Qed.

(** *** The search loop ends with an answer *)

Lemma popped_invariant (st : Search) (current : Entry.t) (rest : list Entry.t) :
  sortOpenSet (openSet st) = current :: rest ->
  Inv st ->
  Inv {| openSet := rest; cameFrom := cameFrom st;
         gScore := gScore st; edgeUsed := edgeUsed st |}
  /\ Below {| openSet := rest; cameFrom := cameFrom st;
              gScore := gScore st; edgeUsed := edgeUsed st |} st
  /\ is_Some (gScore st !! Entry.id current).
Proof.
  intros Hs HI.
  assert (Hperm : current :: rest ≡ₚ openSet st).
  { rewrite <- Hs. apply sortOpenSet_perm. }
  destruct HI as [Hopen Hcost Hedge Horder Hreach Hconn].
  split; [|split].
  - split; simpl; try assumption.
    intros x Hx. apply Hopen. rewrite <- Hperm. right. exact Hx.
  - right. split; [reflexivity|]. unfold effort. simpl.
    apply Permutation_length in Hperm. simpl in Hperm. lia.
  - apply Hopen. rewrite <- Hperm. left.
Qed.

Lemma searchLoop_total (st : Search) :
  Inv st ->
  exists n r,
    (forall fuel pathFuel, n <= fuel -> n <= pathFuel ->
       SearchLoop fuel pathFuel st = Returned r)
    /\ (r = notFoundResult \/ Connected endId).
Proof.
  remember (Unknown st) as a eqn:Ha. remember (Effort st) as b eqn:Hb.
  revert st Ha Hb. pattern a, b. apply lex_induction. clear a b.
  intros a b IH st Ha Hb HI.
  destruct (sortOpenSet (openSet st)) as [|current rest] eqn:Hs.
  { exists 1, notFoundResult. split; [|left; reflexivity].
    intros fuel pathFuel Hf _. destruct fuel as [|fuel]; [lia|].
    simpl. unfold searchStep. rewrite Hs. reflexivity. }
  destruct (popped_invariant st current rest Hs HI) as (HI0 & Hbelow & Hcur).
  destruct (String.eqb (Entry.id current) endId) eqn:Heq.
  - apply String.eqb_eq in Heq. rewrite Heq in Hcur.
    destruct Hcur as [tw Htw].
    destruct (walkBack_total (cameFrom st) (edgeUsed st)
                (inv_edge _ _ _ _ HI) endId
                (inv_reaches _ _ _ _ HI endId (ex_intro _ tw Htw))) as [d Hd].
    destruct (Hd {| wPath := [endId]; wEdges := []; wIssues := [];
                    wCurrent := endId; wTotalDistance := 0 |} eq_refl) as [w Hw].
    exists (S d). eexists. split.
    + intros fuel pathFuel Hf Hp. destruct fuel as [|fuel]; [lia|].
      simpl. unfold searchStep. rewrite Hs.
      rewrite (proj2 (String.eqb_eq _ _) Heq), Htw, Heq.
      unfold reconstructPath. rewrite (Hw pathFuel) by lia. reflexivity.
    + right. apply (inv_connected _ _ _ _ HI). rewrite Htw. eauto.
  - set (st0 := {| openSet := rest; cameFrom := cameFrom st;
                   gScore := gScore st; edgeUsed := edgeUsed st |}) in *.
    assert (Hexp : exists st',
               Expand (Entry.id current) (default [] (graph !! Entry.id current)) st0
               = Returned st' /\ Inv st' /\ NotAbove st' st0).
    { destruct (graph !! Entry.id current) as [l|] eqn:Hl; simpl.
      - apply (expand_total (Entry.id current) l Hl l st0); auto.
      - exists st0. split; [reflexivity|]. split; [exact HI0 | apply notAbove_refl]. }
    destruct Hexp as (st' & He & HI' & Hna).
    assert (Hlt : Below st' st) by (eapply below_notAbove; eassumption).
    destruct (IH (Unknown st') (Effort st')) with (st := st') as (n & r & Hrun & Hr);
      try reflexivity; try exact HI'.
    { unfold below in Hlt. subst a b. exact Hlt. }
    exists (S n), r. split; [|exact Hr].
    intros fuel pathFuel Hf Hp. destruct fuel as [|fuel]; [lia|].
    simpl. unfold searchStep. rewrite Hs, Heq.
    fold st0. rewrite He. simpl. apply Hrun; lia.
Qed.

(** *** The first state of a query *)

Lemma initial_invariant (h : Q) :
  Inv {| openSet := [ {| Entry.id := startId; Entry.fScore := Num h |} ];
         cameFrom := ∅; gScore := {[ startId := Num 0 ]}; edgeUsed := ∅ |}.
Proof.
  split; simpl.
  - intros x Hx. apply list_elem_of_singleton in Hx. subst x. simpl.
    rewrite lookup_singleton_eq. eauto.
  - intros v q Hv. apply lookup_singleton_Some in Hv as [_ Hq].
    injection Hq as <-. split; [lra | apply onGrid_0].
  - intros v u Hv. rewrite lookup_empty in Hv. discriminate.
  - intros v u Hv. rewrite lookup_empty in Hv. discriminate.
  - intros v _. apply reaches_root, lookup_empty.
  - intros v [q Hv]. apply lookup_singleton_Some in Hv as [<- _].
    apply connected_start.
Qed.

End Totality.

(** ** The query as a whole *)

Lemma wellFormedInput_wellFormed (graph : gmap string (list Neighbor.t))
    (nodes : list Node) :
  wellFormedInput graph nodes -> wellFormed graph (makeNodeMap nodes).
Proof.
  intros H k l nb Hk Hin. destruct (H k l nb Hk Hin) as [Hto Hd].
  split; [apply makeNodeMap_is_Some, Hto | exact Hd].
Qed.

(** An index built from edges between nodes, none of negative distance, is
    well-formed input. *)
Lemma buildAdjacencyList_wellFormed (nodes : list Node) (edges : list Edge) :
  Forall (fun e => from e ∈ map id nodes /\ to e ∈ map id nodes
                   /\ (0 <= distance e)%Q) edges ->
  wellFormedInput (buildAdjacencyList nodes edges) nodes.
Proof.
  intros Hall k l nb. rewrite buildAdjacencyList_lookup.
  destruct (decide (k ∈ map id nodes)) as [_|_]; [|discriminate].
  intros [= <-] Hin.
  apply list_elem_of_In, in_flat_map in Hin as (e & He & Hnb).
  rewrite Forall_forall in Hall.
  destruct (Hall e (proj2 (list_elem_of_In _ _) He)) as (Hf & Ht & Hd).
  unfold contribution in Hnb. apply in_app_or in Hnb.
  destruct Hnb as [Hnb|Hnb];
    [destruct (decide (from e = k)) | destruct (decide (to e = k))];
    simpl in Hnb; try contradiction;
    destruct Hnb as [<-|[]]; simpl; auto.
Qed.

Lemma findAccessibleRoute_missing (calculateDistance : Q -> Q -> Q -> Q -> Q)
    (fuel : nat) (graph : gmap string (list Neighbor.t)) (nodes : list Node)
    (startId endId : string) (profile : Profile) :
  startId ∉ map id nodes \/ endId ∉ map id nodes ->
  findAccessibleRoute calculateDistance fuel graph nodes startId endId profile
  = Returned failureResult.
Proof.
  intros H. unfold findAccessibleRoute.
  destruct (makeNodeMap nodes !! startId) as [sn|] eqn:Hs; [|reflexivity].
  destruct (makeNodeMap nodes !! endId) as [en|] eqn:He; [|reflexivity].
  exfalso. destruct H as [H|H]; apply H, makeNodeMap_is_Some; eauto.
Qed.

Lemma findAccessibleRoute_returns (calculateDistance : Q -> Q -> Q -> Q -> Q)
    (graph : gmap string (list Neighbor.t)) (nodes : list Node)
    (startId endId : string) (profile : Profile) :
  wellFormedInput graph nodes ->
  exists n r,
    (forall fuel, n <= fuel ->
       findAccessibleRoute calculateDistance fuel graph nodes startId endId profile
       = Returned r)
    /\ (startId ∈ map id nodes -> endId ∈ map id nodes ->
        r = notFoundResult \/ connected graph profile startId endId).
Proof.
  intros Hwf. apply wellFormedInput_wellFormed in Hwf.
  unfold findAccessibleRoute.
  destruct (makeNodeMap nodes !! startId) as [sn|] eqn:Hs.
  2:{ exists 0, failureResult. split; [reflexivity|].
      intros H. apply makeNodeMap_is_Some in H as [x Hx]. congruence. }
  destruct (makeNodeMap nodes !! endId) as [en|] eqn:He.
  2:{ exists 0, failureResult. split; [reflexivity|].
      intros _ H. apply makeNodeMap_is_Some in H as [x Hx]. congruence. }
  unfold heuristic. rewrite Hs. simpl.
  set (h := calculateDistance (lat sn) (lng sn) (lat en) (lng en)).
  destruct (searchLoop_total calculateDistance graph (makeNodeMap nodes) en endId
              profile startId Hwf _ (initial_invariant graph profile startId h))
    as (n & r & Hrun & Hr).
  exists n, r. split; [|intros _ _; exact Hr].
  intros fuel Hle. apply Hrun; exact Hle.
Qed.

Lemma findAccessibleRoute_shape (calculateDistance : Q -> Q -> Q -> Q -> Q)
    (fuel : nat) (graph : gmap string (list Neighbor.t)) (nodes : list Node)
    (startId endId : string) (profile : Profile) (r : RouteResult) :
  findAccessibleRoute calculateDistance fuel graph nodes startId endId profile
  = Returned r ->
  (r = failureResult /\ (startId ∉ map id nodes \/ endId ∉ map id nodes))
  \/ (startId ∈ map id nodes /\ endId ∈ map id nodes
      /\ exists st, Answer endId profile st fuel r).
Proof.
  unfold findAccessibleRoute.
  destruct (makeNodeMap nodes !! startId) as [sn|] eqn:Hs.
  2:{ intros [= <-]. left. split; [reflexivity|]. left.
      rewrite <- makeNodeMap_is_Some, Hs. intros [x Hx]. discriminate. }
  destruct (makeNodeMap nodes !! endId) as [en|] eqn:He.
  2:{ intros [= <-]. left. split; [reflexivity|]. right.
      rewrite <- makeNodeMap_is_Some, He. intros [x Hx]. discriminate. }
  unfold heuristic. rewrite Hs. simpl. intros Hrun. right.
  split; [apply makeNodeMap_is_Some; eauto|].
  split; [apply makeNodeMap_is_Some; eauto|].
  eapply searchLoop_answer. exact Hrun.
Qed.

(** ** Invariants along the turns of the search *)

Lemma inOpenSet_inOpen (k : string) (st : Search) :
  inOpenSet k (openSet st) = true <-> inOpen k st.
Proof.
  unfold inOpenSet, inOpen. rewrite existsb_exists. split.
  - intros (n & Hin & Heq). exists n. split.
    + apply list_elem_of_In, Hin.
    + apply String.eqb_eq, Heq.
  - intros (n & Hin & Heq). exists n. split.
    + apply list_elem_of_In, Hin.
    + apply String.eqb_eq, Heq.
Qed.

Section Passage.

Variable calculateDistance : Q -> Q -> Q -> Q -> Q.
Variable graph : gmap string (list Neighbor.t).
Variable nodeMap : gmap string Node.
Variable endNode : Node.
Variable endId : string.
Variable profile : Profile.

Local Abbreviation Relax := (relax calculateDistance nodeMap endNode profile).
Local Abbreviation Expand := (expand calculateDistance nodeMap endNode profile).
Local Abbreviation SearchStep :=
  (searchStep calculateDistance graph nodeMap endNode endId profile).
Local Abbreviation SearchLoop :=
  (searchLoop calculateDistance graph nodeMap endNode endId profile).
Local Abbreviation Visits :=
  (visits calculateDistance graph nodeMap endNode endId profile).
Local Abbreviation Case := (RelaxCase calculateDistance nodeMap endNode profile).

Lemma expand_preserves (P : Search -> Prop) (current : string) (l : list Neighbor.t) :
  (forall nb st st', nb ∈ l -> P st -> Relax current st nb = Returned st' -> P st') ->
  forall nbs st st',
    (forall nb, nb ∈ nbs -> nb ∈ l) -> P st ->
    Expand current nbs st = Returned st' -> P st'.
Proof.
  intros Hrelax nbs. induction nbs as [|nb nbs IH]; intros st st' Hsub HP; simpl.
  - intros [= <-]. exact HP.
  - destruct (Relax current st nb) as [st1| | |] eqn:Hr; simpl; try discriminate.
    apply IH.
    + intros nb' Hnb'. apply Hsub. right. exact Hnb'.
    + eapply Hrelax; [apply Hsub; left | exact HP | exact Hr].
Qed.

(** What a turn does when it goes on: it sorts, extracts the head, and
    expands it. *)
Lemma searchStep_inr (pathFuel : nat) (st st' : Search) :
  SearchStep pathFuel st = Returned (inr st') ->
  exists current rest,
    sortOpenSet (openSet st) = current :: rest
    /\ Entry.id current <> endId
    /\ Expand (Entry.id current) (default [] (graph !! Entry.id current))
         {| openSet := rest; cameFrom := cameFrom st;
            gScore := gScore st; edgeUsed := edgeUsed st |} = Returned st'.
Proof.
  intros H.
  apply (searchStep_cases calculateDistance graph nodeMap endNode endId profile) in H.
  exact H.
Qed.

(** What a turn does when it answers. *)
Lemma searchStep_inl (pathFuel : nat) (st : Search) (r : RouteResult) :
  SearchStep pathFuel st = Returned (inl r) ->
  (openSet st = [] /\ r = notFoundResult)
  \/ (exists current rest totalWeight,
        sortOpenSet (openSet st) = current :: rest
        /\ Entry.id current = endId
        /\ gScore st !! endId = Some totalWeight
        /\ reconstructPath pathFuel (cameFrom st) (edgeUsed st) endId totalWeight
             profile = Returned r).
Proof.
  unfold searchStep.
  destruct (sortOpenSet (openSet st)) as [|current rest] eqn:Hs.
  - intros [= <-]. left. split; [|reflexivity].
    apply Permutation_nil_r. rewrite <- Hs. symmetry. apply sortOpenSet_perm.
  - destruct (String.eqb (Entry.id current) endId) eqn:Heq.
    + apply String.eqb_eq in Heq. rewrite Heq.
      destruct (gScore st !! endId) as [tw|] eqn:Hg; [|discriminate].
      destruct (reconstructPath _ _ _ _ _ _) as [r'| | |] eqn:Hr; simpl;
        try discriminate.
      intros [= <-]. right. exists current, rest, tw. auto.
    + destruct (expand _ _ _ _ _ _ _); simpl; discriminate.
Qed.

Lemma searchStep_preserves (P : Search -> Prop) :
  (forall st current rest,
     P st -> sortOpenSet (openSet st) = current :: rest ->
     P {| openSet := rest; cameFrom := cameFrom st;
          gScore := gScore st; edgeUsed := edgeUsed st |}) ->
  (forall current l nb st st',
     graph !! current = Some l -> nb ∈ l ->
     P st -> Relax current st nb = Returned st' -> P st') ->
  forall pathFuel st st',
    P st -> SearchStep pathFuel st = Returned (inr st') -> P st'.
Proof.
  intros Hpop Hrelax pathFuel st st' HP Hs.
  apply searchStep_inr in Hs as (current & rest & Hsort & _ & He).
  pose proof (Hpop st current rest HP Hsort) as HP0.
  destruct (graph !! Entry.id current) as [l|] eqn:Hl; simpl in He.
  - eapply (expand_preserves P (Entry.id current) l); [| |exact HP0 | exact He]; auto.
    intros nb s s' Hnb. apply (Hrelax (Entry.id current) l nb s s' Hl Hnb).
  - injection He as <-. exact HP0.
Qed.

Lemma visits_preserves (P : Search -> Prop) :
  (forall pathFuel st st',
     P st -> SearchStep pathFuel st = Returned (inr st') -> P st') ->
  forall st st', Visits st st' -> P st -> P st'.
Proof.
  intros Hstep st st' Hv. induction Hv as [|st st1 st2 pathFuel Hs _ IH]; [auto|].
  intros HP. apply IH. eapply Hstep; eassumption.
Qed.

(** An answer of the loop is the answer of a turn at a visited state. *)
Lemma searchLoop_visits (fuel pathFuel : nat) (st : Search) (r : RouteResult) :
  SearchLoop fuel pathFuel st = Returned r ->
  exists st', Visits st st' /\ SearchStep pathFuel st' = Returned (inl r).
Proof.
  revert st. induction fuel as [|fuel IH]; intros st; simpl; [discriminate|].
  destruct (SearchStep pathFuel st) as [[r'|st1]| | |] eqn:Hs; simpl; try discriminate.
  - intros [= <-]. exists st. split; [constructor | exact Hs].
  - intros Hl. destruct (IH st1 Hl) as (st' & Hv & Hr).
    exists st'. split; [|exact Hr]. econstructor; eassumption.
Qed.

(** A turn that goes on does so whatever the fuel of the reconstruction. *)
Lemma searchStep_continues (pathFuel pathFuel' : nat) (st st' : Search) :
  SearchStep pathFuel st = Returned (inr st') ->
  SearchStep pathFuel' st = Returned (inr st').
Proof.
  unfold searchStep.
  destruct (sortOpenSet (openSet st)) as [|current rest]; [discriminate|].
  destruct (String.eqb (Entry.id current) endId); [|auto].
  destruct (gScore st !! endId); [|discriminate].
  destruct (reconstructPath pathFuel _ _ _ _ _); simpl; discriminate.
Qed.

(** Once a visited state has an empty open set, the loop ends with the
    not-found result. *)
Lemma visits_exhausted (st0 st : Search) :
  Visits st0 st -> openSet st = [] ->
  exists n, forall fuel pathFuel, n <= fuel ->
    SearchLoop fuel pathFuel st0 = Returned notFoundResult.
Proof.
  induction 1 as [st|st st1 st2 pf Hs _ IH]; intros Hopen.
  - exists 1. intros fuel pathFuel Hf. destruct fuel as [|fuel]; [lia|].
    simpl. unfold searchStep. rewrite Hopen. reflexivity.
  - destruct (IH Hopen) as [n Hn]. exists (S n).
    intros fuel pathFuel Hf. destruct fuel as [|fuel]; [lia|].
    simpl. rewrite (searchStep_continues pf pathFuel _ _ Hs). simpl.
    apply Hn. lia.
Qed.

(** *** No node is in the open set twice *)

Lemma relax_open_NoDup (current : string) (st st' : Search) (nb : Neighbor.t) :
  NoDup (map Entry.id (openSet st)) ->
  Relax current st nb = Returned st' ->
  NoDup (map Entry.id (openSet st')).
Proof.
  intros Hnd Hr. pose proof (relax_case calculateDistance nodeMap endNode profile
                               current st nb) as Hc.
  rewrite Hr in Hc. inversion Hc; subst; try exact Hnd.
  simpl. destruct (inOpenSet (Neighbor.to nb) (openSet st)) eqn:Hin; [exact Hnd|].
  rewrite map_app. simpl. apply NoDup_app. split; [exact Hnd|].
  split; [|apply NoDup_singleton].
  intros k Hk Hk'. apply list_elem_of_singleton in Hk'. subst k.
  apply list_elem_of_fmap in Hk as (x & Hx & Hxin).
  assert (Htrue : inOpenSet (Neighbor.to nb) (openSet st) = true).
  { apply inOpenSet_inOpen. exists x. auto. }
  congruence.
Qed.

Lemma open_NoDup_step (pathFuel : nat) (st st' : Search) :
  NoDup (map Entry.id (openSet st)) ->
  SearchStep pathFuel st = Returned (inr st') ->
  NoDup (map Entry.id (openSet st')).
Proof.
  apply (searchStep_preserves (fun st => NoDup (map Entry.id (openSet st)))).
  - intros s current rest Hnd Hs. simpl.
    assert (Hperm : map Entry.id (current :: rest) ≡ₚ map Entry.id (openSet s)).
    { rewrite <- Hs. apply Permutation_map, sortOpenSet_perm. }
    rewrite <- Hperm in Hnd. simpl in Hnd. apply NoDup_cons in Hnd. apply Hnd.
  - intros current l nb s s' _ _ Hnd Hr. eapply relax_open_NoDup; eassumption.
Qed.

End Passage.

Lemma findAccessibleRoute_visit (calculateDistance : Q -> Q -> Q -> Q -> Q)
    (fuel : nat) (graph : gmap string (list Neighbor.t)) (nodes : list Node)
    (startId endId : string) (profile : Profile) (r : RouteResult) :
  findAccessibleRoute calculateDistance fuel graph nodes startId endId profile
  = Returned r ->
  (r = failureResult
   /\ (makeNodeMap nodes !! startId = None \/ makeNodeMap nodes !! endId = None))
  \/ exists endNode h st,
       is_Some (makeNodeMap nodes !! startId)
       /\ visits calculateDistance graph (makeNodeMap nodes) endNode endId profile
            (startState startId h) st
       /\ searchStep calculateDistance graph (makeNodeMap nodes) endNode endId
            profile fuel st = Returned (inl r).
Proof.
  unfold findAccessibleRoute.
  destruct (makeNodeMap nodes !! startId) as [sn|] eqn:Hs; [|intros [= <-]; auto].
  destruct (makeNodeMap nodes !! endId) as [en|] eqn:He; [|intros [= <-]; auto].
  unfold heuristic. rewrite Hs. simpl. intros Hrun. right.
  apply searchLoop_visits in Hrun as (st & Hv & Hr).
  exists en, (calculateDistance (lat sn) (lng sn) (lat en) (lng en)), st.
  split; [eauto|]. split; [exact Hv | exact Hr].
Qed.

(** ** The frontier of the search *)

Section Frontier.

Variable calculateDistance : Q -> Q -> Q -> Q -> Q.
Variable graph : gmap string (list Neighbor.t).
Variable nodeMap : gmap string Node.
Variable endNode : Node.
Variable endId : string.
Variable profile : Profile.
Variable startId : string.

Local Abbreviation Relax := (relax calculateDistance nodeMap endNode profile).
Local Abbreviation Expand := (expand calculateDistance nodeMap endNode profile).
Local Abbreviation SearchStep :=
  (searchStep calculateDistance graph nodeMap endNode endId profile).
Local Abbreviation Visits :=
  (visits calculateDistance graph nodeMap endNode endId profile).
Local Abbreviation Explore := (Explored graph profile startId endId).

Lemma grows_refl (st : Search) : grows st st.
Proof. repeat split; auto. Qed.

Lemma grows_trans (st1 st2 st3 : Search) :
  grows st1 st2 -> grows st2 st3 -> grows st1 st3.
Proof.
  intros (A1 & B1 & C1) (A2 & B2 & C2). repeat split; auto.
  intros v Hv. destruct (C2 v Hv) as [H|H]; [|auto].
  destruct (C1 v H) as [H'|(x & Hx & Hid)]; [auto|].
  right. exists x. auto.
Qed.

Lemma relax_grows (current : string) (st st' : Search) (nb : Neighbor.t) :
  Relax current st nb = Returned st' ->
  grows st st'
  /\ (isEdgeAccessible (Neighbor.edge nb) profile = true ->
      is_Some (gScore st' !! Neighbor.to nb)).
Proof.
  intros Hr.
  pose proof (relax_case calculateDistance nodeMap endNode profile current st nb) as Hc.
  rewrite Hr in Hc.
  inversion Hc as [Hacc Heq|Hacc Hnone Heq|gC g Hacc HgC Hg Hle Heq
                   |gC Hacc HgC Himp Hnode Heq|gC node Hacc HgC Himp Hnode Heq];
    subst.
  - split; [apply grows_refl | congruence].
  - split; [apply grows_refl | intros _; rewrite Hg; eauto].
  - split; [|intros _; simpl; rewrite lookup_insert_eq; eauto].
    repeat split; simpl.
    + intros v Hv. rewrite lookup_insert_is_Some'. auto.
    + intros x Hx. destruct (inOpenSet _ _); [exact Hx|].
      apply elem_of_app. auto.
    + intros v. rewrite lookup_insert_is_Some'. intros [<-|Hv]; [|auto].
      right. unfold inOpen. simpl.
      destruct (inOpenSet (Neighbor.to nb) (openSet st)) eqn:Hin.
      * apply inOpenSet_inOpen in Hin. exact Hin.
      * eexists. split; [apply elem_of_app; right; left | reflexivity].
Qed.

Lemma expand_grows (current : string) (nbs : list Neighbor.t) (st st' : Search) :
  Expand current nbs st = Returned st' ->
  grows st st'
  /\ (forall nb, nb ∈ nbs -> isEdgeAccessible (Neighbor.edge nb) profile = true ->
      is_Some (gScore st' !! Neighbor.to nb)).
Proof.
  revert st. induction nbs as [|nb nbs IH]; intros st; simpl.
  - intros [= <-]. split; [apply grows_refl|]. intros nb H. inversion H.
  - destruct (Relax current st nb) as [st1| | |] eqn:Hr; simpl; try discriminate.
    intros He. destruct (relax_grows _ _ _ _ Hr) as [Hg1 Hnb].
    destruct (IH st1 He) as [Hg2 Hrest].
    split; [eapply grows_trans; eassumption|].
    intros nb' Hin Hacc. apply elem_of_cons in Hin as [-> | Hin].
    + apply Hg2, Hnb, Hacc.
    + apply Hrest; assumption.
Qed.

Lemma startState_explored (h : Q) : Explore (startState startId h).
Proof.
  assert (Hopen : inOpen startId (startState startId h)).
  { eexists. split; [left | reflexivity]. }
  split; simpl.
  - rewrite lookup_singleton_eq. eauto.
  - intros [q Hq]. apply lookup_singleton_Some in Hq as [<- _]. exact Hopen.
  - intros v [q Hq]. apply lookup_singleton_Some in Hq as [<- _]. left. exact Hopen.
Qed.

Lemma searchStep_explored (pathFuel : nat) (st st' : Search) :
  Explore st -> SearchStep pathFuel st = Returned (inr st') -> Explore st'.
Proof.
  intros [Hstart Hgoal Hfront] Hs.
  apply searchStep_inr in Hs as (current & rest & Hsort & Hne & He).
  apply expand_grows in He as [(Hcost & Hopen & Hnew) Hnbs]. simpl in *.
  assert (Hperm : current :: rest ≡ₚ openSet st).
  { rewrite <- Hsort. apply sortOpenSet_perm. }
  assert (Hkeep : forall v, inOpen v st -> v <> Entry.id current -> inOpen v st').
  { intros v (x & Hx & Hid) Hv. rewrite <- Hperm in Hx.
    apply elem_of_cons in Hx as [-> | Hx]; [congruence|].
    exists x. split; [apply Hopen, Hx | exact Hid]. }
  assert (Hsettled : forall v, settled graph profile v st -> settled graph profile v st').
  { intros v Hv l nb Hl Hin Hacc. apply Hcost. eapply Hv; eassumption. }
  split.
  - apply Hcost, Hstart.
  - intros Hend. destruct (Hnew endId Hend) as [Hold|Hin]; [|exact Hin].
    apply Hkeep; [apply Hgoal, Hold | congruence].
  - intros v Hv. destruct (Hnew v Hv) as [Hold|Hin]; [|left; exact Hin].
    destruct (decide (v = Entry.id current)) as [->|Hvc].
    + right. intros l nb Hl Hin Hacc. apply Hnbs; [|exact Hacc].
      rewrite Hl. exact Hin.
    + destruct (Hfront v Hold) as [Hin|Hset]; [left; apply Hkeep; assumption|].
      right. apply Hsettled, Hset.
Qed.

Lemma visits_explored (h : Q) (st : Search) :
  Visits (startState startId h) st -> Explore st.
Proof.
  intros Hv.
  apply (visits_preserves calculateDistance graph nodeMap endNode endId profile
           Explore) with (st := startState startId h); [|exact Hv|].
  - intros pathFuel s s'. apply searchStep_explored.
  - apply startState_explored.
Qed.

(** With an empty open set, every node connected to the start has a cost,
    which the goal cannot have. *)
Lemma explored_exhausted (st : Search) :
  Explore st -> openSet st = [] -> ~ connected graph profile startId endId.
Proof.
  intros [Hstart Hgoal Hfront] Hopen Hconn.
  assert (Hno : forall v, ~ inOpen v st).
  { intros v (x & Hx & _). rewrite Hopen in Hx. inversion Hx. }
  assert (Hall : forall v, connected graph profile startId v -> is_Some (gScore st !! v)).
  { intros v Hv. induction Hv as [|u l nb _ IH Hl Hin Hacc]; [exact Hstart|].
    destruct (Hfront u IH) as [Hin'|Hset]; [destruct (Hno _ Hin')|].
    eapply Hset; eassumption. }
  apply (Hno endId), Hgoal, Hall, Hconn.
Qed.

End Frontier.


(** ** The claims about the search *)




(** C7: with the start as the goal, the first turn of the loop returns the
    one-node route: no edges, distance and weight 0, score 100, no issues. *)
Theorem findAccessibleRoute_same_node (calculateDistance : Q -> Q -> Q -> Q -> Q)
    (fuel : nat) (graph : gmap string (list Neighbor.t)) (nodes : list Node)
    (s : string) (profile : Profile) :
  s ∈ map id nodes ->
  findAccessibleRoute calculateDistance (S fuel) graph nodes s s profile
  = Returned {| path := [s]; edges := []; totalDistance := 0;
                totalWeight := Some (Num 0); issues := [];
                accessibilityScore := Some 100%Q; notFound := None |}.
Proof.
  intros Hs. apply makeNodeMap_is_Some in Hs as [n Hn].
  unfold findAccessibleRoute, heuristic. rewrite Hn. simpl.
  unfold searchStep. simpl. rewrite String.eqb_refl, lookup_singleton_eq.
  unfold reconstructPath.
  destruct fuel; simpl; rewrite lookup_empty; reflexivity.
Qed.

(** C5: on well-formed input the query returns a result, the same for every
    sufficient fuel, and no fuel makes it throw; a missing endpoint gives the
    plain failure result; and the query answers with the not-found result
    exactly when it comes to a state whose open set is empty. *)
Theorem findAccessibleRoute_total (calculateDistance : Q -> Q -> Q -> Q -> Q)
    (graph : gmap string (list Neighbor.t)) (nodes : list Node)
    (startId endId : string) (profile : Profile) :
  (wellFormedInput graph nodes ->
   exists r,
     (exists n, forall fuel, n <= fuel ->
        findAccessibleRoute calculateDistance fuel graph nodes startId endId profile
        = Returned r)
     /\ (forall fuel,
           findAccessibleRoute calculateDistance fuel graph nodes startId endId profile
           = Returned r
           \/ findAccessibleRoute calculateDistance fuel graph nodes startId endId profile
              = OutOfFuel))
  /\ (startId ∉ map id nodes \/ endId ∉ map id nodes ->
      forall fuel,
        findAccessibleRoute calculateDistance fuel graph nodes startId endId profile
        = Returned {| path := []; edges := []; totalDistance := 0;
                      totalWeight := None; issues := [];
                      accessibilityScore := None; notFound := None |})
  /\ (forall startNode endNode st,
        makeNodeMap nodes !! startId = Some startNode ->
        makeNodeMap nodes !! endId = Some endNode ->
        visits calculateDistance graph (makeNodeMap nodes) endNode endId profile
          (startState startId
             (calculateDistance (lat startNode) (lng startNode)
                                (lat endNode) (lng endNode))) st ->
        openSet st = [] ->
        exists n, forall fuel, n <= fuel ->
          findAccessibleRoute calculateDistance fuel graph nodes startId endId profile
          = Returned {| path := []; edges := []; totalDistance := 0;
                        totalWeight := None; issues := [];
                        accessibilityScore := None; notFound := Some true |})
  /\ (forall fuel r,
        findAccessibleRoute calculateDistance fuel graph nodes startId endId profile
        = Returned r ->
        notFound r = Some true ->
        exists endNode h st,
          visits calculateDistance graph (makeNodeMap nodes) endNode endId profile
            (startState startId h) st
          /\ openSet st = []).
Proof.
  split; [|split; [|split]].
  - intros Hwf.
    destruct (findAccessibleRoute_returns calculateDistance graph nodes startId
                endId profile Hwf) as (n & r & Hrun & _).
    exists r. split; [exists n; exact Hrun|].
    intros fuel.
    destruct (Nat.le_gt_cases n fuel) as [Hle|Hlt]; [left; apply Hrun, Hle|].
    destruct (findAccessibleRoute calculateDistance fuel graph nodes startId endId
                profile) as [r'| | |] eqn:Hf; [left| | |right; reflexivity].
    all: pose proof (findAccessibleRoute_more_fuel calculateDistance graph nodes
                       startId endId profile fuel n) as Hm;
         rewrite Hf, Hrun in Hm by lia;
         specialize (Hm ltac:(lia) ltac:(discriminate)); congruence.
  - intros Hmiss fuel. apply findAccessibleRoute_missing, Hmiss.
  - intros startNode endNode st Hs He Hv Hopen.
    destruct (visits_exhausted calculateDistance graph (makeNodeMap nodes) endNode
                endId profile _ st Hv Hopen) as [n Hn].
    exists n. intros fuel Hfuel.
    unfold findAccessibleRoute, heuristic. rewrite Hs, He. simpl.
    apply (Hn fuel fuel Hfuel).
  - intros fuel r Hrun Hflag.
    apply findAccessibleRoute_visit in Hrun
      as [[-> _]|(en & h & st & _ & Hv & Hstep)]; [discriminate|].
    exists en, h, st. split; [exact Hv|].
    apply searchStep_inl in Hstep as [[Hopen _]|(c & rest & tw & _ & _ & _ & Hrec)];
      [exact Hopen|].
    apply reconstructPath_Returned in Hrec as (w & _ & ->). discriminate.
Qed.

(** C10: a result returned for a missing endpoint or an exhausted open set
    has neither a totalWeight nor an accessibilityScore field; a result that
    has them comes out of a reconstruction and has a non-empty path. *)
Theorem failure_results_lack_score (calculateDistance : Q -> Q -> Q -> Q -> Q)
    (fuel : nat) (graph : gmap string (list Neighbor.t)) (nodes : list Node)
    (startId endId : string) (profile : Profile) (r : RouteResult) :
  findAccessibleRoute calculateDistance fuel graph nodes startId endId profile
  = Returned r ->
  (startId ∉ map id nodes \/ endId ∉ map id nodes -> r = failureResult)
  /\ (((r = failureResult \/ r = notFoundResult)
       /\ totalWeight r = None /\ accessibilityScore r = None)
      \/ ((exists cameFrom edgeUsed totalWeight,
             reconstructPath fuel cameFrom edgeUsed endId totalWeight profile
             = Returned r)
          /\ path r <> []
          /\ is_Some (totalWeight r) /\ is_Some (accessibilityScore r))).
Proof.
  intros Hrun. split.
  - intros Hmiss.
    rewrite (findAccessibleRoute_missing _ _ _ _ _ _ _ Hmiss) in Hrun. congruence.
  - apply findAccessibleRoute_shape in Hrun
      as [[-> _]|(_ & _ & st & [->|tw Hg Hr])].
    + left. auto.
    + left. auto.
    + right. split; [eauto|].
      apply reconstructPath_Returned in Hr as (w & Hw & ->). simpl.
      split; [|split; eauto].
      eapply walkBack_path; [exact Hw | discriminate].
Qed.

(** ** The claims on concrete runs *)


(** The state [detourMidTurn] arises in the query: S is expanded first, B is
    extracted next, and its neighbour S is relaxed before A. *)
Lemma detourMidTurn_reached :
  exists st1,
    expand flat (makeNodeMap detourNodes) (spot "A") wheelchairProfile "S"
      (default [] (detour !! "S"))
      {| openSet := []; cameFrom := ∅; gScore := {[ "S" := Num 0 ]}; edgeUsed := ∅ |}
    = Returned st1
    /\ sortOpenSet (openSet st1)
       = [ {| Entry.id := "B"; Entry.fScore := Num 1.0 |};
           {| Entry.id := "A"; Entry.fScore := Num 10.0 |} ]
    /\ default [] (detour !! "B")
       = [ {| Neighbor.to := "S"; Neighbor.edge := plainEdge "S" "B" 1 |}; towardsA ]
    /\ relax flat (makeNodeMap detourNodes) (spot "A") wheelchairProfile "B"
         {| openSet := [ {| Entry.id := "A"; Entry.fScore := Num 10.0 |} ];
            cameFrom := cameFrom st1; gScore := gScore st1; edgeUsed := edgeUsed st1 |}
         {| Neighbor.to := "S"; Neighbor.edge := plainEdge "S" "B" 1 |}
       = Returned detourMidTurn.
Proof.
  eexists. split; [vm_compute; reflexivity|].
  split; [vm_compute; reflexivity|].
  split; [vm_compute; reflexivity|].
  vm_compute. reflexivity.
Qed.


Lemma chain_wellFormed : wellFormedInput chain chainNodes.
Proof.
  apply buildAdjacencyList_wellFormed.
  repeat constructor; try (vm_compute; discriminate).
Qed.


(** The query A -> C on the chain comes to [chainExhausted] in two turns. *)
Lemma chainExhausted_visited :
  visits flat chain (makeNodeMap chainNodes) (spot "C") "C" wheelchairProfile
    (startState "A" 0) chainExhausted.
Proof.
  eapply (visits_next _ _ _ _ _ _ _ _ _ 0); [vm_compute; reflexivity|].
  eapply (visits_next _ _ _ _ _ _ _ _ _ 0); [vm_compute; reflexivity|].
  apply visits_here.
Qed.



(** The query A -> C on the chain empties its open set and answers with the
    not-found result. *)
Lemma findAccessibleRoute_total_witness :
  exists n, forall fuel, n <= fuel ->
    findAccessibleRoute flat fuel chain chainNodes "A" "C" wheelchairProfile
    = Returned notFoundResult.
Proof.
  apply (proj1 (proj2 (proj2 (findAccessibleRoute_total flat chain chainNodes "A" "C"
                                wheelchairProfile)))
           (spot "A") (spot "C") chainExhausted).
  - vm_compute. reflexivity.
  - vm_compute. reflexivity.
  - exact chainExhausted_visited.
  - reflexivity.
Defined.

Lemma findAccessibleRoute_same_node_witness :
  findAccessibleRoute flat 1 detour detourNodes "S" "S" wheelchairProfile
  = Returned {| path := ["S"]; edges := []; totalDistance := 0;
                totalWeight := Some (Num 0); issues := [];
                accessibilityScore := Some 100%Q; notFound := None |}.
Proof.
  apply (findAccessibleRoute_same_node flat 0 detour detourNodes "S" wheelchairProfile).
  left.
Defined.

(** A reconstruction over eight edges, one accessible, two partial and five
    inaccessible: the mean 27.5 is rounded to 28. *)
Lemma accessibilityScore_rounded_mean_witness :
  exists s : Q,
    accessibilityScore mixedRoute = Some s
    /\ (edges mixedRoute = [] -> s = 100%Q)
    /\ (edges mixedRoute <> [] ->
        exists z : Z,
          s = inject_Z z
          /\ roundsTo
               ((100 * inject_Z (Z.of_nat
                          (levelCount wheelchairProfile accessible (edges mixedRoute)))
                 + 60 * inject_Z (Z.of_nat
                          (levelCount wheelchairProfile partial (edges mixedRoute)))
                 + 0 * inject_Z (Z.of_nat
                          (levelCount wheelchairProfile inaccessible (edges mixedRoute))))
                / inject_Z (Z.of_nat (length (edges mixedRoute)))) z).
Proof.
  apply (accessibilityScore_rounded_mean 8 mixedBack mixedUsed "8" (Num 0)
           wheelchairProfile mixedRoute).
  vm_compute. reflexivity.
Defined.

Lemma failure_results_lack_score_witness :
  totalWeight notFoundResult = None /\ accessibilityScore notFoundResult = None.
Proof.
  destruct (failure_results_lack_score flat 3 chain chainNodes "A" "C"
              wheelchairProfile notFoundResult) as [_ [H|H]].
  - vm_compute. reflexivity.
  - destruct H as (_ & H1 & H2). split; assumption.
  - destruct H as (_ & H & _). exfalso. apply H. reflexivity.
Defined.

(** Well-formedness is needed for totality: a neighbour that is not a node
    makes the heuristic read a coordinate of undefined. *)
Example dangling_neighbour_throws :
  findAccessibleRoute flat 2 dangling danglingNodes "A" "C" wheelchairProfile
  = TypeError.
Proof. vm_compute. reflexivity. Qed.

(** * Further properties of the routing module *)

(** ** Classification and cost *)

(** The level of an edge is inaccessible exactly when the gate rejects it,
    and for an edge that passes the gate it depends on the edge alone: any
    two profiles that let the edge through, whatever their limits and their
    mobility types, give it the same level.  So loosening the limits of a
    profile, for the same mobility type, keeps the level of every edge that
    was not inaccessible. *)
Theorem getEdgeAccessibilityLevel_loosened (edge : Edge) (p1 p2 : Profile) :
  (getEdgeAccessibilityLevel edge p1 = inaccessible
   <-> isEdgeAccessible edge p1 = false)
  /\ (isEdgeAccessible edge p1 = true -> isEdgeAccessible edge p2 = true ->
      getEdgeAccessibilityLevel edge p2 = getEdgeAccessibilityLevel edge p1)
  /\ (mobilityType p1 = mobilityType p2 ->
      (maxCurbHeight p1 <= maxCurbHeight p2)%Q ->
      (maxSlope p1 <= maxSlope p2)%Q ->
      (minWidth p2 <= minWidth p1)%Q ->
      getEdgeAccessibilityLevel edge p1 <> inaccessible ->
      getEdgeAccessibilityLevel edge p2 = getEdgeAccessibilityLevel edge p1).
Proof.
  assert (Hsame : isEdgeAccessible edge p1 = true -> isEdgeAccessible edge p2 = true ->
                  getEdgeAccessibilityLevel edge p2 = getEdgeAccessibilityLevel edge p1).
  { intros H1 H2. unfold getEdgeAccessibilityLevel. rewrite H1, H2. reflexivity. }
  split; [|split].
  - unfold getEdgeAccessibilityLevel.
    destruct (isEdgeAccessible edge p1); simpl.
    + destruct (_ || _); split; discriminate.
    + split; reflexivity.
  - exact Hsame.
  - intros Hm Hc Hs Hw Hlevel.
    destruct (isEdgeAccessible edge p1) eqn:H1.
    + apply Hsame; [reflexivity|].
      apply isEdgeAccessible_true in H1 as (Ha & Hb & Hd & He).
      apply isEdgeAccessible_true. repeat split.
      * destruct Ha as [Ha|Ha]; [left; lra | right; exact Ha].
      * lra.
      * lra.
      * rewrite <- Hm. exact He.
    + exfalso. apply Hlevel. unfold getEdgeAccessibilityLevel. rewrite H1. reflexivity.
Qed.

Lemma getEdgeAccessibilityLevel_loosened_witness :
  getEdgeAccessibilityLevel rampedStep strollerProfile
  = getEdgeAccessibilityLevel rampedStep wheelchairProfile.
Proof.
  apply (proj1 (proj2 (getEdgeAccessibilityLevel_loosened rampedStep wheelchairProfile
                         strollerProfile))).
  - reflexivity.
  - reflexivity.
Defined.





Lemma slopeFactor_wheelchair (e : Edge) (p1 p2 : Profile) :
  mobilityType p1 = "wheelchair" ->
  (slopeFactor e p2 <= slopeFactor e p1)%Q.
Proof.
  intros Hw. unfold slopeFactor. rewrite Hw. simpl.
  destruct (Qgtb (slope e) 0) eqn:Hs; [|lra].
  apply Qgtb_true in Hs.
  assert (0 <= slope e / 10)%Q by (apply Qle_shift_div_l; lra).
  destruct (String.eqb (mobilityType p2) "wheelchair"), (Qgtb (slope e) 5);
    simpl; nra.
Qed.

(** The profile enters the weight only through its mobility type being
    wheelchair or not: two profiles that agree on this give every edge the
    same weight, slopes of at most 5 percent weigh the same under all
    profiles, and no edge of non-negative distance weighs less for the
    wheelchair than for another mobility type.  The limits of the profile
    never enter. *)
Theorem calculateEdgeWeight_profile (e : Edge) (p1 p2 : Profile) :
  ((mobilityType p1 = "wheelchair" <-> mobilityType p2 = "wheelchair") ->
   calculateEdgeWeight e p1 = calculateEdgeWeight e p2)
  /\ ((slope e <= 5)%Q -> calculateEdgeWeight e p1 = calculateEdgeWeight e p2)
  /\ (mobilityType p1 = "wheelchair" -> (0 <= distance e)%Q ->
      forall w1 w2,
        calculateEdgeWeight e p1 = Num w1 -> calculateEdgeWeight e p2 = Num w2 ->
        (w2 <= w1)%Q).
Proof.
  split; [|split].
  - intros Hiff.
    assert (Heq : String.eqb (mobilityType p1) "wheelchair"
                  = String.eqb (mobilityType p2) "wheelchair").
    { destruct (String.eqb (mobilityType p1) "wheelchair") eqn:H1;
      destruct (String.eqb (mobilityType p2) "wheelchair") eqn:H2; try reflexivity.
      - apply String.eqb_eq in H1. apply String.eqb_neq in H2. tauto.
      - apply String.eqb_eq in H2. apply String.eqb_neq in H1. tauto. }
    unfold calculateEdgeWeight. rewrite Heq. reflexivity.
  - intros H5. apply Qgtb_false in H5.
    unfold calculateEdgeWeight. rewrite H5, !andb_false_r. reflexivity.
  - intros Hw Hd w1 w2 Hw1 Hw2.
    destruct (surfaceFactor_cases (surface e)) as [[_ Hnan]|(_ & f & Hf & H1)].
    { rewrite (calculateEdgeWeight_NaN e p1 Hnan) in Hw1. discriminate. }
    destruct (calculateEdgeWeight_value e p1 f Hf) as (w1' & Hw1' & Heq1).
    destruct (calculateEdgeWeight_value e p2 f Hf) as (w2' & Hw2' & Heq2).
    rewrite Hw1 in Hw1'. injection Hw1' as <-.
    rewrite Hw2 in Hw2'. injection Hw2' as <-.
    rewrite Heq1, Heq2. unfold barrierFactor.
    pose proof (slopeFactor_wheelchair e p1 p2 Hw) as Hslope.
    pose proof (slopeFactor_ge_1 e p2) as H2.
    pose proof (obstacleFactor_ge_1 e) as HO.
    assert (Hdf : (0 <= distance e * f)%Q) by nra.
    assert (Hprod : (slopeFactor e p2 * obstacleFactor e
                     <= slopeFactor e p1 * obstacleFactor e)%Q) by nra.
    nra.
Qed.

Lemma calculateEdgeWeight_profile_witness :
  exists w1 w2,
    calculateEdgeWeight rampedStep wheelchairProfile = Num w1
    /\ calculateEdgeWeight rampedStep strollerProfile = Num w2
    /\ (w2 <= w1)%Q.
Proof.
  eexists. eexists. split; [reflexivity|]. split; [reflexivity|].
  apply (proj2 (proj2 (calculateEdgeWeight_profile rampedStep wheelchairProfile
                         strollerProfile))).
  - reflexivity.
  - vm_compute; discriminate.
  - reflexivity.
  - reflexivity.
Defined.

(** An edge without barrier weighs exactly its distance, whatever the
    profile: asphalt or concrete, no upward slope, no curb without a ramp, a
    width of at least 150 and no restriction tag. *)
Theorem calculateEdgeWeight_no_penalty (e : Edge) (profile : Profile) :
  surface e = "asphalt" \/ surface e = "concrete" ->
  (slope e <= 0)%Q ->
  (curb e <= 0)%Q \/ hasRamp e = true ->
  (150 <= width e)%Q ->
  truthy (temporary e) = false ->
  exists w, calculateEdgeWeight e profile = Num w /\ (w == distance e)%Q.
Proof.
  intros Hsurface Hslope Hcurb Hwidth Htemp.
  unfold calculateEdgeWeight.
  rewrite (proj2 (Qgtb_false _ _) Hslope), (proj2 (Qltb_false _ _) Hwidth), Htemp.
  assert (Hc : Qgtb (curb e) 0 && negb (hasRamp e) = false).
  { destruct Hcurb as [Hc|Hr].
    - rewrite (proj2 (Qgtb_false _ _) Hc). reflexivity.
    - rewrite Hr. apply andb_false_r. }
  rewrite Hc.
  destruct Hsurface as [-> | ->]; simpl; (eexists; split; [reflexivity | ring]).
Qed.

Lemma calculateEdgeWeight_no_penalty_witness :
  exists w, calculateEdgeWeight (plainEdge "S" "A" 10) wheelchairProfile = Num w
            /\ (w == 10)%Q.
Proof.
  apply (calculateEdgeWeight_no_penalty (plainEdge "S" "A" 10) wheelchairProfile).
  - left. reflexivity.
  - vm_compute; discriminate.
  - right. reflexivity.
  - vm_compute; discriminate.
  - reflexivity.
Defined.

(** ** The adjacency index, entry by entry *)

Lemma elem_of_contribution (k : string) (e : Edge) (nb : Neighbor.t) :
  nb ∈ contribution k e
  <-> (from e = k /\ nb = {| Neighbor.to := to e; Neighbor.edge := e |})
      \/ (to e = k /\ nb = {| Neighbor.to := from e; Neighbor.edge := e |}).
Proof.
  unfold contribution. rewrite elem_of_app.
  destruct (decide (from e = k)), (decide (to e = k));
    rewrite ?list_elem_of_singleton, ?elem_of_nil; tauto.
Qed.

Lemma elem_of_contributions (edges : list Edge) (k : string) (nb : Neighbor.t) :
  nb ∈ flat_map (contribution k) edges
  <-> exists e, e ∈ edges
        /\ ((from e = k /\ nb = {| Neighbor.to := to e; Neighbor.edge := e |})
            \/ (to e = k /\ nb = {| Neighbor.to := from e; Neighbor.edge := e |})).
Proof.
  rewrite list_elem_of_In, in_flat_map.
  split; intros (e & He & Hnb); exists e.
  - split; [apply list_elem_of_In, He|].
    apply elem_of_contribution, list_elem_of_In, Hnb.
  - split; [apply list_elem_of_In, He|].
    apply list_elem_of_In, elem_of_contribution, Hnb.
Qed.

Lemma contribution_length (k : string) (e : Edge) :
  length (contribution k e)
  = (if decide (from e = k) then 1 else 0) + (if decide (to e = k) then 1 else 0).
Proof.
  unfold contribution.
  destruct (decide (from e = k)), (decide (to e = k)); reflexivity.
Qed.

(** The keys of the built index are the node ids, also for a node without
    edges; the list of a node holds, in the order of the input, one entry per
    input edge and endpoint at that node, pointing to the other endpoint,
    whether or not that other endpoint is a node, and nothing else: it has as
    many entries as input edges start at the node plus input edges end at
    it. *)
Theorem buildAdjacencyList_index (nodes : list Node) (edges : list Edge) (k : string) :
  (buildAdjacencyList nodes edges !! k = None <-> k ∉ map id nodes)
  /\ (forall l, buildAdjacencyList nodes edges !! k = Some l ->
      l = flat_map
            (fun e =>
               (if decide (from e = k)
                then [ {| Neighbor.to := to e; Neighbor.edge := e |} ] else [])
               ++ (if decide (to e = k)
                   then [ {| Neighbor.to := from e; Neighbor.edge := e |} ] else []))
            edges
      /\ length l = length (filter (fun e => from e = k) edges)
                    + length (filter (fun e => to e = k) edges)).
Proof.
  rewrite buildAdjacencyList_lookup.
  destruct (decide (k ∈ map id nodes)) as [Hin|Hnin]; split.
  - split; [discriminate | contradiction].
  - intros l [= <-]. split; [reflexivity|].
    induction edges as [|e edges IH]; [reflexivity|].
    cbn [flat_map]. rewrite length_app, IH, contribution_length.
    destruct (decide (from e = k)) as [Hf|Hf], (decide (to e = k)) as [Ht|Ht];
      rewrite ?(filter_cons_True (fun e => from e = k)) by exact Hf;
      rewrite ?(filter_cons_False (fun e => from e = k)) by exact Hf;
      rewrite ?(filter_cons_True (fun e => to e = k)) by exact Ht;
      rewrite ?(filter_cons_False (fun e => to e = k)) by exact Ht;
      simpl; lia.
  - split; auto.
  - discriminate.
Qed.

(** The index is undirected: an entry from [u] to a node [v] over an edge has
    its mirror entry from [v] to [u] over the same edge. *)
Theorem buildAdjacencyList_symmetric (nodes : list Node) (edges : list Edge)
    (u : string) (l : list Neighbor.t) (nb : Neighbor.t) :
  buildAdjacencyList nodes edges !! u = Some l ->
  nb ∈ l ->
  Neighbor.to nb ∈ map id nodes ->
  exists l', buildAdjacencyList nodes edges !! Neighbor.to nb = Some l'
    /\ {| Neighbor.to := u; Neighbor.edge := Neighbor.edge nb |} ∈ l'.
Proof.
  intros Hl Hin Hto. rewrite buildAdjacencyList_lookup in Hl.
  destruct (decide (u ∈ map id nodes)) as [_|_]; [|discriminate].
  injection Hl as <-.
  apply elem_of_contributions in Hin as (e & He & Hcase).
  rewrite buildAdjacencyList_lookup, decide_True by exact Hto.
  eexists. split; [reflexivity|].
  apply elem_of_contributions. exists e. split; [exact He|].
  destruct Hcase as [[<- ->]|[<- ->]]; simpl; auto.
Qed.

Lemma buildAdjacencyList_symmetric_witness :
  exists l', chain !! "B" = Some l'
    /\ {| Neighbor.to := "C"; Neighbor.edge := curbEdge |} ∈ l'.
Proof.
  apply (buildAdjacencyList_symmetric chainNodes chainEdges "C"
           [ {| Neighbor.to := "B"; Neighbor.edge := curbEdge |} ]
           {| Neighbor.to := "B"; Neighbor.edge := curbEdge |}).
  - vm_compute. reflexivity.
  - left.
  - right; left.
Defined.

Lemma totalEntries_push (k : string) (nb : Neighbor.t)
    (m : gmap string (list Neighbor.t)) :
  is_Some (m !! k) ->
  totalEntries (pushNeighbor k nb m) = S (totalEntries m).
Proof.
  intros [l Hl]. unfold pushNeighbor. rewrite Hl. unfold totalEntries.
  rewrite <- (insert_delete_eq m).
  rewrite map_fold_insert_L; [|intros; lia | apply lookup_delete_eq].
  rewrite (map_fold_delete_L _ _ k l m); [|intros; lia | exact Hl].
  rewrite length_app. simpl. lia.
Qed.

Lemma pushNeighbor_is_Some (k j : string) (nb : Neighbor.t)
    (m : gmap string (list Neighbor.t)) :
  is_Some (pushNeighbor k nb m !! j) <-> is_Some (m !! j).
Proof. rewrite pushNeighbor_lookup. apply fmap_is_Some. Qed.

Lemma totalEntries_empty_lists (nodes : list Node) (m : gmap string (list Neighbor.t)) :
  (forall k l, m !! k = Some l -> l = []) ->
  (forall k l, foldl (fun m node => <[id node := []]> m) m nodes !! k = Some l -> l = [])
  /\ totalEntries m = 0.
Proof.
  intros Hm. split.
  - intros k l. rewrite emptyLists_lookup.
    destruct (decide (k ∈ map id nodes)); [congruence | apply Hm].
  - unfold totalEntries. induction m as [|k l m Hk IH] using map_ind.
    + apply map_fold_empty.
    + rewrite map_fold_insert_L; [|intros; lia | exact Hk].
      rewrite (Hm k l) by apply lookup_insert_eq. simpl.
      apply IH. intros j l' Hj. apply (Hm j).
      rewrite lookup_insert_ne; [exact Hj|]. intros ->. congruence.
Qed.

(** When every endpoint of every edge is a node, the index holds exactly two
    entries per input edge. *)
Theorem buildAdjacencyList_handshake (nodes : list Node) (edges : list Edge) :
  Forall (fun e => from e ∈ map id nodes /\ to e ∈ map id nodes) edges ->
  totalEntries (buildAdjacencyList nodes edges) = 2 * length edges.
Proof.
  intros Hall. unfold buildAdjacencyList.
  set (m0 := foldl (fun m node => <[id node := []]> m) ∅ nodes).
  assert (Hkeys : forall k, k ∈ map id nodes -> is_Some (m0 !! k)).
  { intros k Hk. subst m0. rewrite emptyLists_lookup, decide_True by exact Hk. eauto. }
  assert (H0 : totalEntries m0 = 0).
  { destruct (totalEntries_empty_lists nodes ∅) as [Hall0 _].
    { intros k l Hk. rewrite lookup_empty in Hk. discriminate. }
    apply (totalEntries_empty_lists [] m0). exact Hall0. }
  clearbody m0.
  enough (H : totalEntries (foldl addEdge m0 edges)
              = totalEntries m0 + 2 * length edges) by lia.
  clear H0. revert m0 Hkeys.
  induction Hall as [|e edges [Hf Ht] _ IH]; intros m0 Hkeys; simpl; [lia|].
  rewrite IH.
  - unfold addEdge.
    rewrite !totalEntries_push;
      [lia | rewrite ?pushNeighbor_is_Some; apply Hkeys; assumption..].
  - intros k Hk. unfold addEdge. rewrite !pushNeighbor_is_Some. apply Hkeys, Hk.
Qed.

Lemma buildAdjacencyList_handshake_witness : totalEntries detour = 6.
Proof.
  apply (buildAdjacencyList_handshake detourNodes detourEdges).
  repeat constructor.
Defined.

(** ** What [reconstructPath] returns *)

Lemma walkBack_chain (fuel : nat) (cf : gmap string string) (eu : gmap string Edge)
    (profile : Profile) (w w' : Walk) :
  walkBack fuel cf eu profile w = Returned w' ->
  (exists p, wPath w = wCurrent w :: p) ->
  backChain cf eu (wPath w) (wEdges w) ->
  (wTotalDistance w == foldr Qplus 0 (map distance (wEdges w)))%Q ->
  wIssues w = rev (map (issueOf profile) (filter (problematic profile) (wEdges w))) ->
  (exists p, wPath w' = wCurrent w' :: p)
  /\ cf !! wCurrent w' = None
  /\ last (wPath w') = last (wPath w)
  /\ backChain cf eu (wPath w') (wEdges w')
  /\ (wTotalDistance w' == foldr Qplus 0 (map distance (wEdges w')))%Q
  /\ wIssues w' = rev (map (issueOf profile) (filter (problematic profile) (wEdges w'))).
Proof.
  revert w. induction fuel as [|fuel IH]; intros w; simpl.
  - destruct (cf !! wCurrent w) eqn:Hc; [discriminate|]. intros [= <-]. auto 6.
  - destruct (cf !! wCurrent w) as [prev|] eqn:Hc; [|intros [= <-]; auto 6].
    destruct (eu !! wCurrent w) as [e|] eqn:He; [|discriminate].
    intros Hw [p Hp] Hchain Hdist Hiss.
    apply IH in Hw; simpl.
    + destruct Hw as (H1 & H2 & H3 & H4 & H5 & H6). repeat split; try assumption.
      rewrite H3. simpl. rewrite Hp. reflexivity.
    + eauto.
    + rewrite Hp in *. apply backChain_step; assumption.
    + rewrite Hdist. ring.
    + unfold problematic at 1.
      destruct (getEdgeAccessibilityLevel e profile) eqn:Hlv.
      * rewrite filter_cons_False by (unfold problematic; rewrite Hlv; auto).
        exact Hiss.
      * rewrite filter_cons_True by (unfold problematic; rewrite Hlv; discriminate).
        simpl. rewrite Hiss. unfold issueOf at 3. rewrite Hlv. reflexivity.
      * rewrite filter_cons_True by (unfold problematic; rewrite Hlv; discriminate).
        simpl. rewrite Hiss. unfold issueOf at 3. rewrite Hlv. reflexivity.
Qed.

(** A reconstructed route has one node more than edges, ends at the goal,
    starts at a node without back-pointer and follows the back-pointers and
    their edges in between; it carries the weight it was given. *)
Theorem reconstructPath_follows (fuel : nat) (cameFrom : gmap string string)
    (edgeUsed : gmap string Edge) (endId : string) (weight : number)
    (profile : Profile) (r : RouteResult) :
  reconstructPath fuel cameFrom edgeUsed endId weight profile = Returned r ->
  length (path r) = S (length (edges r))
  /\ last (path r) = Some endId
  /\ (exists first rest, path r = first :: rest /\ cameFrom !! first = None)
  /\ backChain cameFrom edgeUsed (path r) (edges r)
  /\ totalWeight r = Some weight.
Proof.
  intros H. apply reconstructPath_Returned in H as (w & Hw & ->). simpl.
  apply walkBack_chain in Hw; simpl; eauto using backChain_end; try reflexivity.
  destruct Hw as ([p Hp] & Hroot & Hlast & Hchain & _ & _).
  repeat split; try assumption.
  - clear -Hchain. induction Hchain; simpl in *; [reflexivity | lia].
  - exists (wCurrent w), p. split; assumption.
Qed.

Lemma reconstructPath_follows_witness :
  length (path directRoute) = S (length (edges directRoute))
  /\ last (path directRoute) = Some "A"
  /\ (exists first rest, path directRoute = first :: rest
        /\ ({[ "A" := "S" ]} : gmap string string) !! first = None)
  /\ backChain {[ "A" := "S" ]} {[ "A" := plainEdge "S" "A" 10 ]}
       (path directRoute) (edges directRoute)
  /\ totalWeight directRoute = Some (Num 10).
Proof.
  apply (reconstructPath_follows 1 {[ "A" := "S" ]}
           {[ "A" := plainEdge "S" "A" 10 ]} "A" (Num 10) wheelchairProfile directRoute).
  vm_compute. reflexivity.
Defined.

(** The total distance of a reconstructed route is the sum of the distances
    of its edges; its issues are the records of its edges that are not
    classified accessible, listed from the goal back to the start. *)
Theorem reconstructPath_report (fuel : nat) (cameFrom : gmap string string)
    (edgeUsed : gmap string Edge) (endId : string) (weight : number)
    (profile : Profile) (r : RouteResult) :
  reconstructPath fuel cameFrom edgeUsed endId weight profile = Returned r ->
  (totalDistance r == foldr Qplus 0 (map distance (edges r)))%Q
  /\ issues r
     = rev (map (issueOf profile) (filter (problematic profile) (edges r))).
Proof.
  intros H. apply reconstructPath_Returned in H as (w & Hw & ->). simpl.
  apply walkBack_chain in Hw; simpl; eauto using backChain_end; try reflexivity.
  destruct Hw as (_ & _ & _ & _ & Hd & Hi). split; assumption.
Qed.

Lemma reconstructPath_report_witness :
  (totalDistance directRoute == foldr Qplus 0 (map distance (edges directRoute)))%Q
  /\ issues directRoute
     = rev (map (issueOf wheelchairProfile)
              (filter (problematic wheelchairProfile) (edges directRoute))).
Proof.
  apply (reconstructPath_report 1 {[ "A" := "S" ]}
           {[ "A" := plainEdge "S" "A" 10 ]} "A" (Num 10) wheelchairProfile directRoute).
  vm_compute. reflexivity.
Defined.

(** ** Bounds of the score *)

Lemma edgeScore_range (profile : Profile) (e : Edge) :
  (0 <= edgeScore profile e <= 100)%Q
  /\ (isEdgeAccessible e profile = true -> (60 <= edgeScore profile e)%Q).
Proof.
  unfold edgeScore, getEdgeAccessibilityLevel.
  destruct (isEdgeAccessible e profile); simpl.
  - destruct (_ || _); simpl;
      (split; [split | intros _]); vm_compute; discriminate.
  - split; [split; vm_compute; discriminate | discriminate].
Qed.

Lemma sum_range (lo hi : Q) (values : list Q) :
  Forall (fun v => lo <= v <= hi)%Q values ->
  (lo * inject_Z (Z.of_nat (length values)) <= foldr Qplus 0 values
   <= hi * inject_Z (Z.of_nat (length values)))%Q.
Proof.
  induction 1 as [|v values [Hlo Hhi] _ IH].
  - cbn [length foldr]. change (inject_Z (Z.of_nat 0)) with 0%Q. lra.
  - cbn [length foldr]. rewrite Nat2Z.inj_succ. unfold Z.succ.
    rewrite inject_Z_plus. change (inject_Z 1) with 1%Q. lra.
Qed.

Lemma mean_range (lo hi : Q) (profile : Profile) (e : Edge) (edges : list Edge) :
  Forall (fun x => lo <= edgeScore profile x <= hi)%Q (e :: edges) ->
  (lo <= meanScore (e :: edges) profile <= hi)%Q.
Proof.
  intros Hall. unfold meanScore.
  assert (Hvals : Forall (fun v => lo <= v <= hi)%Q (map (edgeScore profile) (e :: edges))).
  { apply Forall_map. exact Hall. }
  apply sum_range in Hvals. rewrite length_map in Hvals.
  set (n := inject_Z (Z.of_nat (length (e :: edges)))) in *.
  assert (Hn : (0 < n)%Q).
  { subst n. change 0%Q with (inject_Z 0). rewrite <- Zlt_Qlt. simpl. lia. }
  split.
  - apply Qle_shift_div_l; [exact Hn | apply Hvals].
  - apply Qle_shift_div_r; [exact Hn | apply Hvals].
Qed.

Lemma rounded_range (lo hi : Z) (x : Q) (z : Z) :
  (inject_Z lo <= x <= inject_Z hi)%Q -> roundsTo x z -> (lo <= z <= hi)%Z.
Proof.
  intros [Hlo Hhi] [H1 H2].
  assert (Ha : (inject_Z (lo - 1) < inject_Z z)%Q).
  { replace (lo - 1)%Z with (lo + -1)%Z by lia.
    rewrite inject_Z_plus. change (inject_Z (-1)) with (-1 # 1). lra. }
  assert (Hb : (inject_Z z < inject_Z (hi + 1))%Q).
  { rewrite inject_Z_plus. change (inject_Z 1) with 1%Q. lra. }
  rewrite <- Zlt_Qlt in Ha, Hb. lia.
Qed.

Lemma score_within (lo : Z) (edges : list Edge) (profile : Profile) :
  (lo <= 100)%Z ->
  Forall (fun e => inject_Z lo <= edgeScore profile e)%Q edges ->
  exists z : Z,
    calculateAccessibilityScore edges profile = inject_Z z /\ (lo <= z <= 100)%Z.
Proof.
  intros Hlo Hall. destruct edges as [|e edges].
  - exists 100%Z. split; [reflexivity | lia].
  - destruct (calculateAccessibilityScore_cons profile e edges) as (z & Hz & Hr).
    exists z. split; [exact Hz|].
    apply (rounded_range lo 100 (meanScore (e :: edges) profile) z); [|exact Hr].
    apply (mean_range (inject_Z lo) (inject_Z 100)).
    apply Forall_forall. intros x Hx. rewrite Forall_forall in Hall.
    split; [apply Hall, Hx | apply edgeScore_range].
Qed.

(** The score is a whole number from 0 to 100, and at least 60 when every
    edge passes the gate of the profile. *)
Theorem calculateAccessibilityScore_range (edges : list Edge) (profile : Profile) :
  exists z : Z,
    calculateAccessibilityScore edges profile = inject_Z z
    /\ (0 <= z <= 100)%Z
    /\ (Forall (fun e => isEdgeAccessible e profile = true) edges -> (60 <= z)%Z).
Proof.
  destruct (score_within 0 edges profile) as (z & Hz & Hrange); [lia | |].
  { apply Forall_forall. intros x _. apply edgeScore_range. }
  exists z. split; [exact Hz|]. split; [exact Hrange|].
  intros Hpass.
  destruct (score_within 60 edges profile) as (z' & Hz' & Hrange'); [lia | |].
  { apply Forall_forall. intros x Hx. rewrite Forall_forall in Hpass.
    apply edgeScore_range, Hpass, Hx. }
  rewrite Hz in Hz'. injection Hz' as ->. lia.
Qed.

Lemma calculateAccessibilityScore_range_witness :
  exists z : Z,
    calculateAccessibilityScore [rampedStep; plainEdge "S" "A" 10] wheelchairProfile
    = inject_Z z /\ (60 <= z)%Z.
Proof.
  destruct (calculateAccessibilityScore_range [rampedStep; plainEdge "S" "A" 10]
              wheelchairProfile) as (z & Hz & _ & H60).
  exists z. split; [exact Hz|]. apply H60.
  repeat constructor.
Defined.

(** ** The presentation helpers *)

(** [getRouteCoordinates] returns the coordinates of the nodes of the path,
    in order, when every id of the path is in the node map, and throws when
    one is not. *)
Theorem getRouteCoordinates_cases (path : list string) (nodeMap : gmap string Node) :
  match getRouteCoordinates path nodeMap with
  | Returned coordinates =>
    Forall2 (fun k c => exists node, nodeMap !! k = Some node
                                     /\ c = (lat node, lng node))
            path coordinates
  | TypeError => Exists (fun k => nodeMap !! k = None) path
  | _ => False
  end.
Proof.
  induction path as [|k path IH]; simpl; [constructor|].
  destruct (nodeMap !! k) as [node|] eqn:Hk; [|left; exact Hk].
  destruct (getRouteCoordinates path nodeMap) as [coordinates| | |]; simpl.
  - constructor; [eauto | exact IH].
  - right. exact IH.
  - exact IH.
  - exact IH.
Qed.

(** The speed read from the table: a positive number, or NaN for an
    inherited property name. *)
Lemma speed_cases (name : string) :
  (name ∈ inheritedKeys /\ orDefault (objectGet speeds name) 50 = NaN)
  \/ ((name ∉ inheritedKeys)
      /\ exists v, orDefault (objectGet speeds name) 50 = Num v /\ (0 < v)%Q).
Proof.
  unfold objectGet, speeds, tableGet.
  repeat match goal with
  | |- context [String.eqb ?a name] =>
      let H := fresh "H" in
      destruct (String.eqb a name) eqn:H;
      [apply String.eqb_eq in H; subst name; right;
       split; [apply inherited_not_elem; reflexivity|];
       eexists; split; [reflexivity | vm_compute; reflexivity] |]
  end.
  destruct (inherited name) eqn:Hi.
  - left. split; [apply inherited_elem, Hi | reflexivity].
  - right. split; [apply inherited_not_elem, Hi|].
    eexists; split; [reflexivity | vm_compute; reflexivity].
Qed.

Lemma speed_rated (name : string) (speed : Q) :
  ratedSpeed name speed -> orDefault (objectGet speeds name) 50 = Num speed.
Proof.
  intros H. destruct H as [| | | |name H1 H2 H3 H4 Hi]; try reflexivity.
  apply inherited_not_elem in Hi.
  unfold objectGet, speeds, tableGet.
  rewrite (proj2 (String.eqb_neq "wheelchair" name)) by congruence.
  rewrite (proj2 (String.eqb_neq "wheelchair_assisted" name)) by congruence.
  rewrite (proj2 (String.eqb_neq "stroller" name)) by congruence.
  rewrite (proj2 (String.eqb_neq "crutches" name)) by congruence.
  rewrite Hi. reflexivity.
Qed.

(** The minutes of an estimate, and the split into hours and minutes. *)
Lemma estimateTime_minutes (distance : Q) (profile : Profile) (v : Q) :
  orDefault (objectGet speeds (mobilityType profile)) 50 = Num v ->
  minutesOf (estimateTime distance profile) = Some (Qceiling (distance / v))
  /\ match estimateTime distance profile with
     | MinutesText minutes => (minutes < 60)%Z
     | HoursText hours remainingMinutes =>
       (1 <= hours)%Z /\ (0 <= remainingMinutes < 60)%Z
     | NaNText => False
     end.
Proof.
  intros Hv. unfold estimateTime. rewrite Hv. cbn [numDiv].
  set (minutes := Qceiling (distance / v)).
  destruct (minutes <? 60)%Z eqn:Hlt.
  - apply Z.ltb_lt in Hlt. split; [reflexivity | exact Hlt].
  - apply Z.ltb_ge in Hlt.
    assert (Hh : Qfloor (inject_Z minutes / 60) = (minutes / 60)%Z).
    { unfold Qfloor, Qdiv, Qmult, Qinv, inject_Z. simpl. rewrite Z.mul_1_r. reflexivity. }
    rewrite Hh, Z.rem_mod_nonneg by lia. cbn [minutesOf].
    pose proof (Z.div_mod minutes 60 ltac:(lia)) as Hdm.
    pose proof (Z.mod_pos_bound minutes 60 ltac:(lia)) as Hm.
    split; [f_equal; lia|]. split; [|exact Hm].
    apply Z.div_le_lower_bound; lia.
Qed.

(** For a distance from one metre to 10^15 metres (the range in which the
    quotient of the source, a double, neither underflows nor falls on the
    wrong side of a whole number), the estimated time is the least whole
    number of minutes that covers the distance at the speed of the mobility
    type: 40 metres per minute for wheelchair, 50 for wheelchair_assisted,
    60 for stroller, 30 for crutches and 50 for another name; from 60 minutes
    on it is given as at least one hour and fewer than 60 remaining minutes.
    For a mobility type named like an inherited property, hours and minutes
    are NaN. *)
Theorem estimateTime_covers (distance : Q) (profile : Profile) :
  (forall speed,
     ratedSpeed (mobilityType profile) speed ->
     (1 <= distance)%Q -> (distance <= 1000000000000000)%Q ->
     exists minutes,
       minutesOf (estimateTime distance profile) = Some minutes
       /\ (inject_Z (minutes - 1) * speed < distance)%Q
       /\ (distance <= inject_Z minutes * speed)%Q
       /\ match estimateTime distance profile with
          | MinutesText m => (m < 60)%Z
          | HoursText hours remainingMinutes =>
            (1 <= hours)%Z /\ (0 <= remainingMinutes < 60)%Z
          | NaNText => False
          end)
  /\ (mobilityType profile ∈ inheritedKeys -> estimateTime distance profile = NaNText).
Proof.
  split.
  - intros speed Hrated _ _.
    assert (Hs : (0 < speed)%Q).
    { destruct Hrated; vm_compute; reflexivity. }
    apply speed_rated in Hrated.
    destruct (estimateTime_minutes distance profile speed Hrated) as [Hm Hshape].
    exists (Qceiling (distance / speed)). split; [exact Hm|].
    pose proof (Qle_ceiling (distance / speed)) as Hle.
    pose proof (Qceiling_lt (distance / speed)) as Hlt.
    assert (Hds : (distance / speed * speed == distance)%Q) by (field; lra).
    split; [|split; [|exact Hshape]].
    + apply (Qmult_lt_compat_r _ _ speed) in Hlt; [|exact Hs].
      rewrite Hds in Hlt. exact Hlt.
    + apply (Qmult_le_compat_r _ _ speed) in Hle; [|lra].
      rewrite Hds in Hle. exact Hle.
  - intros Hi. destruct (speed_cases (mobilityType profile)) as [[_ Hnan]|[Hno _]];
      [|contradiction].
    unfold estimateTime. rewrite Hnan. reflexivity.
Qed.

Lemma estimateTime_covers_witness :
  exists minutes,
    minutesOf (estimateTime 4000 wheelchairProfile) = Some minutes
    /\ (inject_Z (minutes - 1) * 40 < 4000)%Q
    /\ (4000 <= inject_Z minutes * 40)%Q
    /\ match estimateTime 4000 wheelchairProfile with
       | MinutesText m => (m < 60)%Z
       | HoursText hours remainingMinutes =>
         (1 <= hours)%Z /\ (0 <= remainingMinutes < 60)%Z
       | NaNText => False
       end.
Proof.
  apply (proj1 (estimateTime_covers 4000 wheelchairProfile) 40%Q).
  - apply rated_wheelchair.
  - vm_compute; discriminate.
  - vm_compute; discriminate.
Defined.

(** A longer distance never gets a shorter estimate: for the same profile
    the two estimates are both numbers of minutes, in the order of the
    distances, or both NaN. *)
Theorem estimateTime_monotone (d1 d2 : Q) (profile : Profile) :
  (d1 <= d2)%Q ->
  match minutesOf (estimateTime d1 profile), minutesOf (estimateTime d2 profile) with
  | Some m1, Some m2 => (m1 <= m2)%Z
  | None, None => mobilityType profile ∈ inheritedKeys
  | _, _ => False
  end.
Proof.
  intros Hd.
  destruct (speed_cases (mobilityType profile)) as [[Hi Hnan]|(_ & v & Hv & Hs)].
  - unfold estimateTime. rewrite Hnan. exact Hi.
  - destruct (estimateTime_minutes d1 profile v Hv) as [-> _].
    destruct (estimateTime_minutes d2 profile v Hv) as [-> _].
    apply Qceiling_resp_le.
    unfold Qdiv. apply Qmult_le_compat_r; [exact Hd|].
    apply Qinv_le_0_compat. lra.
Qed.

Lemma estimateTime_monotone_witness :
  match minutesOf (estimateTime 150 wheelchairProfile),
        minutesOf (estimateTime 4000 wheelchairProfile) with
  | Some m1, Some m2 => (m1 <= m2)%Z
  | None, None => mobilityType wheelchairProfile ∈ inheritedKeys
  | _, _ => False
  end.
Proof.
  apply (estimateTime_monotone 150 4000 wheelchairProfile).
  vm_compute; discriminate.
Defined.

(** Below 1000 the distance is given in metres, rounded to the nearest whole
    number, a half going up, so that from 999.5 on the text reads 1000
    metres; from 1000 on it is given in kilometres, at least 1. *)
Theorem formatDistance_rounds (meters : Q) :
  ((meters < 1000)%Q ->
   exists m, formatDistance meters = MetresText m
     /\ roundsTo meters m
     /\ (m <= 1000)%Z
     /\ (m = 1000%Z <-> (999.5 <= meters)%Q))
  /\ ((1000 <= meters)%Q ->
      exists kilometres, formatDistance meters = KilometresText kilometres
        /\ (1 <= kilometres)%Q).
Proof.
  unfold formatDistance. split.
  - intros Hlt. rewrite (proj2 (Qltb_true _ _) Hlt).
    exists (Math_round meters). split; [reflexivity|].
    pose proof (Math_round_roundsTo meters) as Hr. split; [exact Hr|].
    destruct Hr as [H1 H2].
    assert (Hm : (Math_round meters < 1001)%Z).
    { rewrite Zlt_Qlt. change (inject_Z 1001) with 1001%Q. lra. }
    split; [lia|]. split.
    + intros Heq. rewrite Heq in H2. change (inject_Z 1000) with 1000%Q in H2.
      assert (H : (999.5 == 1000 - (1 # 2))%Q) by reflexivity. rewrite H. lra.
    + intros Hge.
      assert (H : (999.5 == 1000 - (1 # 2))%Q) by reflexivity. rewrite H in Hge.
      assert (H999 : (999 < Math_round meters)%Z).
      { rewrite Zlt_Qlt. change (inject_Z 999) with 999%Q. lra. }
      lia.
  - intros Hge. rewrite (proj2 (Qltb_false _ _) Hge).
    eexists. split; [reflexivity|].
    apply Qle_shift_div_l; lra.
Qed.

Lemma formatDistance_rounds_witness :
  (exists m, formatDistance 999.7 = MetresText m /\ m = 1000%Z)
  /\ (exists kilometres,
        formatDistance 1250 = KilometresText kilometres /\ (1 <= kilometres)%Q).
Proof.
  split.
  - destruct (proj1 (formatDistance_rounds 999.7) ltac:(vm_compute; reflexivity))
      as (m & Hm & _ & _ & Hiff).
    exists m. split; [exact Hm|]. apply Hiff. vm_compute. discriminate.
  - exact (proj2 (formatDistance_rounds 1250) ltac:(vm_compute; discriminate)).
Defined.

(** ** The order of extraction *)

(** The comparator is positive exactly when both f-scores are numbers and
    the first is the greater. *)
Lemma compareEntries_positive (x y : Entry.t) :
  numGtb (compareEntries x y) (Num 0) = true
  <-> numLt (Entry.fScore y) (Entry.fScore x).
Proof.
  unfold numGtb, compareEntries.
  destruct (Entry.fScore x) as [a|], (Entry.fScore y) as [b|]; simpl;
    try (split; [discriminate | contradiction]).
  rewrite Qltb_true. split; intros H; lra.
Qed.

Lemma insertEntry_sorted (x : Entry.t) (l : list Entry.t) :
  Entry.fScore x <> NaN -> numbered l ->
  Sorted fScoreLe l -> Sorted fScoreLe (insertEntry x l).
Proof.
  intros Hx Hl Hs. induction Hs as [|y l Hs IH Hhd]; cbn [insertEntry];
    [repeat constructor|].
  apply Forall_cons in Hl as [Hy Hl].
  assert (Hcases : fScoreLe x y \/ numLt (Entry.fScore y) (Entry.fScore x)).
  { unfold fScoreLe.
    destruct (Entry.fScore x) as [a|], (Entry.fScore y) as [b|]; try congruence.
    simpl. destruct (Qlt_le_dec b a); auto. }
  destruct (numGtb (compareEntries x y) (Num 0)) eqn:Hgt.
  - apply compareEntries_positive in Hgt.
    assert (Hyx : fScoreLe y x).
    { unfold fScoreLe.
      destruct (Entry.fScore x) as [a|], (Entry.fScore y) as [b|]; try contradiction.
      simpl in *. lra. }
    constructor; [apply IH, Hl|].
    destruct l as [|z l]; cbn [insertEntry]; [constructor; exact Hyx|].
    destruct (numGtb (compareEntries x z) (Num 0)).
    + constructor. inversion Hhd. assumption.
    + constructor. exact Hyx.
  - destruct Hcases as [Hle|Hlt].
    + repeat constructor; assumption.
    + apply compareEntries_positive in Hlt. congruence.
Qed.

Lemma insertEntry_withFScore (f : Q) (x : Entry.t) (l : list Entry.t) :
  withFScore f (insertEntry x l) = withFScore f (x :: l).
Proof.
  unfold withFScore. induction l as [|y l IH]; cbn [insertEntry]; [reflexivity|].
  destruct (numGtb (compareEntries x y) (Num 0)) eqn:Hgt; [|reflexivity].
  apply compareEntries_positive in Hgt.
  cbn [List.filter] in *. rewrite IH.
  destruct (Entry.fScore x) as [a|], (Entry.fScore y) as [b|]; try contradiction.
  simpl in Hgt.
  destruct (Qeq_bool a f) eqn:Ha; [|reflexivity].
  destruct (Qeq_bool b f) eqn:Hb; [|reflexivity].
  exfalso. apply Qeq_bool_iff in Ha, Hb. lra.
Qed.

(** Sorting an open set whose f-scores are all numbers orders it by
    non-decreasing f-score, keeps its entries, and keeps entries of the same
    f-score in their order: the entry extracted in a turn has the least
    f-score, the earliest among equals. *)
Theorem sortOpenSet_stable (l : list Entry.t) :
  numbered l ->
  Sorted fScoreLe (sortOpenSet l)
  /\ sortOpenSet l ≡ₚ l
  /\ forall f, withFScore f (sortOpenSet l) = withFScore f l.
Proof.
  intros Hl. split; [|split; [apply sortOpenSet_perm|]].
  - induction Hl as [|x l Hx Hl IH]; cbn [sortOpenSet foldr]; [constructor|].
    apply insertEntry_sorted; [exact Hx | | exact IH].
    unfold numbered. rewrite (sortOpenSet_perm l). exact Hl.
  - intros f. clear Hl. induction l as [|x l IH]; [reflexivity|].
    cbn [sortOpenSet foldr]. rewrite insertEntry_withFScore.
    unfold withFScore in *. cbn [List.filter]. fold (sortOpenSet l). rewrite IH.
    reflexivity.
Qed.

Lemma sortOpenSet_stable_witness :
  Sorted fScoreLe (sortOpenSet (openSet detourFirstTurn))
  /\ sortOpenSet (openSet detourFirstTurn) ≡ₚ openSet detourFirstTurn
  /\ forall f, withFScore f (sortOpenSet (openSet detourFirstTurn))
               = withFScore f (openSet detourFirstTurn).
Proof.
  apply (sortOpenSet_stable (openSet detourFirstTurn)).
  repeat constructor; discriminate.
Defined.

(** ** No node is in the open set twice *)

(** In every state that a query passes through, the open set holds at most
    one entry per node. *)
Theorem openSet_one_entry_per_node (calculateDistance : Q -> Q -> Q -> Q -> Q)
    (graph : gmap string (list Neighbor.t)) (nodeMap : gmap string Node)
    (endNode : Node) (startId endId : string) (profile : Profile) (h : Q)
    (st : Search) :
  visits calculateDistance graph nodeMap endNode endId profile (startState startId h) st ->
  NoDup (map Entry.id (openSet st)).
Proof.
  intros Hv.
  apply (visits_preserves calculateDistance graph nodeMap endNode endId profile
           (fun st => NoDup (map Entry.id (openSet st)))
           (fun pathFuel s s' Hnd Hs =>
              open_NoDup_step calculateDistance graph nodeMap endNode endId profile
                pathFuel s s' Hnd Hs)
           _ _ Hv).
  simpl. apply NoDup_singleton.
Qed.

Lemma detourFirstTurn_visited :
  visits flat detour (makeNodeMap detourNodes) (spot "A") "A" wheelchairProfile
    (startState "S" 0) detourFirstTurn.
Proof.
  apply (visits_next _ _ _ _ _ _ _ detourFirstTurn _ 0); [|apply visits_here].
  vm_compute. reflexivity.
Qed.

Lemma openSet_one_entry_per_node_witness :
  NoDup (map Entry.id (openSet detourFirstTurn)).
Proof.
  apply (openSet_one_entry_per_node flat detour (makeNodeMap detourNodes) (spot "A")
           "S" "A" wheelchairProfile 0 detourFirstTurn).
  exact detourFirstTurn_visited.
Defined.

(** ** The returned route *)

Section Route.

Variable calculateDistance : Q -> Q -> Q -> Q -> Q.
Variable graph : gmap string (list Neighbor.t).
Variable nodeMap : gmap string Node.
Variable endNode : Node.
Variable endId : string.
Variable profile : Profile.
Variable startId : string.

Local Abbreviation Relax := (relax calculateDistance nodeMap endNode profile).
Local Abbreviation SearchStep :=
  (searchStep calculateDistance graph nodeMap endNode endId profile).
Local Abbreviation Visits :=
  (visits calculateDistance graph nodeMap endNode endId profile).
Local Abbreviation Track := (Tracked graph nodeMap startId).

Lemma startState_tracked (h : Q) :
  is_Some (nodeMap !! startId) -> Track (startState startId h).
Proof.
  intros Hs. split; simpl.
  - intros v u Hv. rewrite lookup_empty in Hv. discriminate.
  - intros v u Hv. rewrite lookup_empty in Hv. discriminate.
  - intros v [q Hv]. apply lookup_singleton_Some in Hv as [<- _]. left. reflexivity.
  - intros v [q Hv]. apply lookup_singleton_Some in Hv as [<- _]. exact Hs.
Qed.

Lemma relax_tracked (current : string) (l : list Neighbor.t) (nb : Neighbor.t)
    (st st' : Search) :
  graph !! current = Some l -> nb ∈ l ->
  Track st -> Relax current st nb = Returned st' -> Track st'.
Proof.
  intros Hl Hin HT Hr.
  pose proof (relax_case calculateDistance nodeMap endNode profile current st nb) as Hc.
  rewrite Hr in Hc.
  inversion Hc as [Hacc Heq|Hacc Hnone Heq|gC g Hacc HgC Hg Hle Heq
                   |gC Hacc HgC Himp Hnode Heq|gC node Hacc HgC Himp Hnode Heq];
    subst; try exact HT.
  destruct HT as [Hedge Hcost Hroot Hnodes].
  split; simpl.
  - intros v u. destruct (decide (Neighbor.to nb = v)) as [<-|Hne].
    + rewrite !lookup_insert_eq. intros [= <-].
      exists (Neighbor.edge nb), l. split; [reflexivity|]. split; [exact Hl|].
      destruct nb. exact Hin.
    + rewrite !lookup_insert_ne by exact Hne. apply Hedge.
  - intros v u. rewrite !lookup_insert_is_Some'.
    destruct (decide (Neighbor.to nb = v)) as [<-|Hne].
    + rewrite lookup_insert_eq. intros [= <-]. split; [right; eauto | left; reflexivity].
    + rewrite lookup_insert_ne by exact Hne. intros Hv.
      destruct (Hcost v u Hv). auto.
  - intros v. rewrite !lookup_insert_is_Some'. intros [<-|Hv]; [auto|].
    destruct (Hroot v Hv); auto.
  - intros v. rewrite lookup_insert_is_Some'. intros [<-|Hv]; [eauto | auto].
Qed.

Lemma visits_tracked (h : Q) (st : Search) :
  is_Some (nodeMap !! startId) ->
  Visits (startState startId h) st -> Track st.
Proof.
  intros Hs Hv.
  apply (visits_preserves calculateDistance graph nodeMap endNode endId profile
           Track) with (st := startState startId h); [|exact Hv|].
  - apply searchStep_preserves.
    + intros s current rest [H1 H2 H3 H4] _. split; assumption.
    + intros current l nb s s'. apply relax_tracked.
  - apply startState_tracked, Hs.
Qed.

Lemma backChain_walk (st : Search) (p : list string) (es : list Edge) :
  Track st ->
  backChain (cameFrom st) (edgeUsed st) p es -> walk graph p es.
Proof.
  intros HT. induction 1 as [v|u v p e es Hcf Heu _ IH]; [constructor|].
  destruct (tracked_edge _ _ _ _ HT v u Hcf) as (e' & l & He' & Hl & Hin).
  rewrite Heu in He'. injection He' as <-.
  econstructor; eassumption.
Qed.

Lemma backChain_costs (st : Search) (p : list string) (es : list Edge) (k : string) :
  Track st ->
  backChain (cameFrom st) (edgeUsed st) p es ->
  last p = Some k -> is_Some (gScore st !! k) ->
  Forall (fun v => is_Some (gScore st !! v)) p.
Proof.
  intros HT Hchain. induction Hchain as [v|u v p e es Hcf Heu _ IH]; intros Hlast Hk.
  - injection Hlast as <-. repeat constructor. exact Hk.
  - constructor; [apply (tracked_cost _ _ _ _ HT v u Hcf) | apply IH; assumption].
Qed.

Lemma backChain_length (cf : gmap string string) (eu : gmap string Edge)
    (p : list string) (es : list Edge) :
  backChain cf eu p es -> length p = S (length es).
Proof. induction 1; simpl in *; [reflexivity | lia]. Qed.

(** What an answer at a tracked state looks like. *)
Lemma tracked_answer (pathFuel : nat) (st : Search) (totalWeight : number)
    (r : RouteResult) :
  Track st ->
  gScore st !! endId = Some totalWeight ->
  reconstructPath pathFuel (cameFrom st) (edgeUsed st) endId totalWeight profile
  = Returned r ->
  head (path r) = Some startId
  /\ last (path r) = Some endId
  /\ length (path r) = S (length (edges r))
  /\ walk graph (path r) (edges r)
  /\ Forall (fun v => is_Some (nodeMap !! v)) (path r)
  /\ backChain (cameFrom st) (edgeUsed st) (path r) (edges r).
Proof.
  intros HT Hg Hr. apply reconstructPath_Returned in Hr as (w & Hw & ->). simpl.
  apply walkBack_chain in Hw; simpl; eauto using backChain_end; try reflexivity.
  destruct Hw as ([p Hp] & Hroot & Hlast & Hchain & _ & _).
  assert (Hcosts : Forall (fun v => is_Some (gScore st !! v)) (wPath w)).
  { eapply backChain_costs; [exact HT | exact Hchain | exact Hlast |].
    rewrite Hg. eauto. }
  repeat split.
  - rewrite Hp in *. simpl. f_equal.
    apply Forall_cons in Hcosts as [Hc _].
    destruct (tracked_root _ _ _ _ HT _ Hc) as [Heq|[x Hx]]; [exact Heq | congruence].
  - exact Hlast.
  - eapply backChain_length, Hchain.
  - eapply backChain_walk; eassumption.
  - eapply Forall_impl; [exact Hcosts|]. apply (tracked_node _ _ _ _ HT).
  - exact Hchain.
Qed.

End Route.

Lemma findAccessibleRoute_edges_pass (calculateDistance : Q -> Q -> Q -> Q -> Q)
    (fuel : nat) (graph : gmap string (list Neighbor.t)) (nodes : list Node)
    (startId endId : string) (profile : Profile) (r : RouteResult) :
  findAccessibleRoute calculateDistance fuel graph nodes startId endId profile
  = Returned r ->
  Forall (fun e => isEdgeAccessible e profile = true) (edges r).
Proof.
  unfold findAccessibleRoute.
  destruct (makeNodeMap nodes !! startId) as [sn|] eqn:Hs;
    [|intros [= <-]; constructor].
  destruct (makeNodeMap nodes !! endId) as [en|] eqn:He;
    [|intros [= <-]; constructor].
  unfold heuristic. rewrite Hs. simpl. intros Hrun.
  eapply searchLoop_gated; [exact Hrun|].
  intros k e. simpl. rewrite lookup_empty. discriminate.
Qed.

(** A returned route is a walk of the graph from the start to the goal: its
    path begins at the start, ends at the goal, has one node more than
    edges, consists of nodes of the input, and each of its edges is listed in
    the graph between the two nodes it joins in the path. *)
Theorem findAccessibleRoute_route (calculateDistance : Q -> Q -> Q -> Q -> Q)
    (fuel : nat) (graph : gmap string (list Neighbor.t)) (nodes : list Node)
    (startId endId : string) (profile : Profile) (r : RouteResult) :
  findAccessibleRoute calculateDistance fuel graph nodes startId endId profile
  = Returned r ->
  path r <> [] ->
  head (path r) = Some startId
  /\ last (path r) = Some endId
  /\ length (path r) = S (length (edges r))
  /\ walk graph (path r) (edges r)
  /\ Forall (fun v => v ∈ map id nodes) (path r).
Proof.
  intros Hrun Hpath.
  apply findAccessibleRoute_visit in Hrun
    as [[-> _]|(en & h & st & Hs & Hv & Hr)]; [contradiction|].
  apply searchStep_inl in Hr as [[_ ->]|(c & rest & tw & _ & _ & Hg & Hr)];
    [contradiction|].
  pose proof (visits_tracked calculateDistance graph (makeNodeMap nodes) en endId
                profile startId h st Hs Hv) as HT.
  destruct (tracked_answer graph (makeNodeMap nodes) endId profile startId fuel st
              tw r HT Hg Hr) as (H1 & H2 & H3 & H4 & H5 & _).
  repeat split; try assumption.
  eapply Forall_impl; [exact H5|]. intros v. apply makeNodeMap_is_Some.
Qed.

Lemma findAccessibleRoute_route_witness :
  head (path detourRoute) = Some "S"
  /\ last (path detourRoute) = Some "A"
  /\ length (path detourRoute) = S (length (edges detourRoute))
  /\ walk detour (path detourRoute) (edges detourRoute)
  /\ Forall (fun v => v ∈ map id detourNodes) (path detourRoute).
Proof.
  apply (findAccessibleRoute_route flat 3 detour detourNodes "S" "A"
           wheelchairProfile detourRoute).
  - vm_compute. reflexivity.
  - discriminate.
Defined.

Lemma partial_reasons (e : Edge) (profile : Profile) :
  getEdgeAccessibilityLevel e profile = partial -> issueReasons e <> [].
Proof.
  unfold getEdgeAccessibilityLevel, issueReasons.
  destruct (isEdgeAccessible e profile); simpl; [|discriminate].
  destruct (Qgtb (curb e) 3); [discriminate|].
  destruct (Qgtb (slope e) 5); [discriminate|].
  destruct (String.eqb (surface e) "cobblestone"); [discriminate|].
  destruct (String.eqb (surface e) "gravel"); [discriminate|].
  destruct (truthy (temporary e)); simpl; discriminate.
Qed.

(** In a returned result every issue is about an edge of the route, has the
    level partial and names at least one reason; and a score, when present,
    is a whole number from 60 to 100. *)
Theorem findAccessibleRoute_issues (calculateDistance : Q -> Q -> Q -> Q -> Q)
    (fuel : nat) (graph : gmap string (list Neighbor.t)) (nodes : list Node)
    (startId endId : string) (profile : Profile) (r : RouteResult) :
  findAccessibleRoute calculateDistance fuel graph nodes startId endId profile
  = Returned r ->
  Forall (fun i => issueEdge i ∈ edges r /\ level i = partial /\ reasons i <> [])
         (issues r)
  /\ (forall s, accessibilityScore r = Some s ->
      exists z : Z, s = inject_Z z /\ (60 <= z <= 100)%Z).
Proof.
  intros Hrun.
  pose proof (findAccessibleRoute_edges_pass _ _ _ _ _ _ _ _ Hrun) as Hpass.
  apply findAccessibleRoute_visit in Hrun
    as [[-> _]|(en & h & st & Hs & Hv & Hr)];
    [split; [constructor | discriminate]|].
  apply searchStep_inl in Hr as [[_ ->]|(c & rest & tw & _ & _ & Hg & Hr)];
    [split; [constructor | discriminate]|].
  apply reconstructPath_Returned in Hr as (w & Hw & ->). simpl in *.
  apply walkBack_chain in Hw; simpl; eauto using backChain_end; try reflexivity.
  destruct Hw as (_ & _ & _ & _ & _ & Hiss). split.
  - rewrite Hiss. apply Forall_forall. intros i Hi.
    apply list_elem_of_In, in_rev, in_map_iff in Hi as (e & <- & He).
    apply list_elem_of_In, list_elem_of_filter in He as [Hprob He]. simpl.
    rewrite Forall_forall in Hpass. specialize (Hpass e He).
    assert (Hlv : getEdgeAccessibilityLevel e profile = partial).
    { unfold problematic in Hprob. revert Hprob.
      unfold getEdgeAccessibilityLevel. rewrite Hpass. simpl.
      destruct (_ || _); [reflexivity | congruence]. }
    split; [exact He|]. split; [exact Hlv | eapply partial_reasons, Hlv].
  - intros s [= <-].
    apply (score_within 60); [lia|].
    apply Forall_forall. intros x Hx. rewrite Forall_forall in Hpass.
    apply edgeScore_range, Hpass, Hx.
Qed.

Lemma findAccessibleRoute_issues_witness :
  exists z : Z, inject_Z 100 = inject_Z z /\ (60 <= z <= 100)%Z.
Proof.
  apply (proj2 (findAccessibleRoute_issues flat 3 detour detourNodes "S" "A"
                  wheelchairProfile detourRoute
                  ltac:(vm_compute; reflexivity))).
  reflexivity.
Defined.

Lemma getRouteCoordinates_known (path : list string) (nodeMap : gmap string Node) :
  Forall (fun k => is_Some (nodeMap !! k)) path ->
  exists coordinates,
    getRouteCoordinates path nodeMap = Returned coordinates
    /\ length coordinates = length path.
Proof.
  induction 1 as [|k path [node Hk] _ (coordinates & Hc & Hlen)]; simpl.
  - exists []. auto.
  - rewrite Hk, Hc. simpl. eexists. split; [reflexivity|]. simpl. lia.
Qed.

(** The caller never sees an exception from the coordinates: for a result
    without a path it shows its error, and for any other result returned
    by the search it gets one coordinate pair per node of the path. *)
Theorem buildRoute_coordinates (calculateDistance : Q -> Q -> Q -> Q -> Q)
    (fuel : nat) (graph : gmap string (list Neighbor.t)) (nodes : list Node)
    (startId endId : string) (profile : Profile) (r : RouteResult) :
  findAccessibleRoute calculateDistance fuel graph nodes startId endId profile
  = Returned r ->
  (path r = [] /\
   buildRoute calculateDistance fuel graph nodes startId endId profile = Returned None)
  \/ (path r <> [] /\
      exists coordinates,
        buildRoute calculateDistance fuel graph nodes startId endId profile
        = Returned (Some (r, coordinates))
        /\ length coordinates = length (path r)).
Proof.
  intros Hrun. destruct (path r) as [|k p] eqn:Hp.
  - left. split; [reflexivity|].
    unfold buildRoute. rewrite Hrun. simpl. rewrite Hp. simpl.
    rewrite orb_true_r. reflexivity.
  - right. split; [discriminate|].
    assert (Hfacts : notFound r = None
                     /\ Forall (fun v => is_Some (makeNodeMap nodes !! v)) (path r)).
    { destruct (findAccessibleRoute_visit _ _ _ _ _ _ _ _ Hrun)
        as [[-> _]|(en & h & st & Hs & Hv & Hr)]; [discriminate|].
      apply searchStep_inl in Hr as [[_ ->]|(c & rest & tw & _ & _ & Hg & Hr)];
        [discriminate|].
      pose proof (visits_tracked calculateDistance graph (makeNodeMap nodes) en
                    endId profile startId h st Hs Hv) as HT.
      split.
      - apply reconstructPath_Returned in Hr as (w & _ & ->). reflexivity.
      - apply (tracked_answer graph (makeNodeMap nodes) endId profile startId fuel
                 st tw r HT Hg Hr). }
    destruct Hfacts as [Hnf Hnodes].
    destruct (getRouteCoordinates_known _ _ Hnodes) as (coordinates & Hc & Hlen).
    exists coordinates. split; [|rewrite Hlen, Hp; reflexivity].
    unfold buildRoute. rewrite Hrun. simpl. rewrite Hnf, Hc, Hp. reflexivity.
Qed.

Lemma buildRoute_coordinates_witness :
  exists coordinates,
    buildRoute flat 3 detour detourNodes "S" "A" wheelchairProfile
    = Returned (Some (detourRoute, coordinates))
    /\ length coordinates = 3.
Proof.
  destruct (buildRoute_coordinates flat 3 detour detourNodes "S" "A"
              wheelchairProfile detourRoute) as [[H _]|[_ H]].
  - vm_compute. reflexivity.
  - discriminate H.
  - exact H.
Defined.

(** ** The weight of the returned route *)

Lemma sum_from_NaN (ws : list number) : foldl numAdd NaN ws = NaN.
Proof. induction ws as [|w ws IH]; [reflexivity | exact IH]. Qed.

(** A sum that is a number has only numbers as terms. *)
Lemma sum_of_numbers (ws : list number) (a : number) (total : Q) :
  foldl numAdd a ws = Num total -> Forall (fun w => w <> NaN) ws.
Proof.
  revert a. induction ws as [|w ws IH]; intros a; cbn [foldl]; [constructor|].
  intros H. constructor; [|eapply IH, H].
  intros ->. destruct a; cbn [numAdd] in H; rewrite sum_from_NaN in H; discriminate.
Qed.

Section Charges.

Variable calculateDistance : Q -> Q -> Q -> Q -> Q.
Variable graph : gmap string (list Neighbor.t).
Variable nodeMap : gmap string Node.
Variable endNode : Node.
Variable endId : string.
Variable profile : Profile.
Variable startId : string.

Hypothesis well_formed : wellFormed graph nodeMap.

Local Abbreviation Relax := (relax calculateDistance nodeMap endNode profile).
Local Abbreviation Visits :=
  (visits calculateDistance graph nodeMap endNode endId profile).

Lemma startState_charged (h : Q) : Charged profile (startState startId h).
Proof.
  split; simpl.
  - intros v u e q Hv. rewrite lookup_empty in Hv. discriminate.
  - intros v q Hv. apply lookup_singleton_Some in Hv as [_ Hq].
    injection Hq as <-. lra.
Qed.

Lemma relax_charged (current : string) (l : list Neighbor.t) (nb : Neighbor.t)
    (st st' : Search) :
  graph !! current = Some l -> nb ∈ l ->
  Charged profile st -> Relax current st nb = Returned st' -> Charged profile st'.
Proof.
  intros Hl Hin HC Hr.
  pose proof (fun w => weight_nonneg graph nodeMap profile well_formed _ _ _ w Hl Hin)
    as Hw.
  pose proof (relax_case calculateDistance nodeMap endNode profile current st nb) as Hc.
  rewrite Hr in Hc.
  inversion Hc as [Hacc Heq|Hacc Hnone Heq|gC g Hacc HgC Hg Hle Heq
                   |gC Hacc HgC Himp Hnode Heq|gC node Hacc HgC Himp Hnode Heq];
    subst; try exact HC.
  destruct HC as [Hedge Hnonneg].
  assert (Hne : current <> Neighbor.to nb).
  { intros Heq. unfold improves in Himp. rewrite <- Heq, HgC in Himp.
    destruct gC as [g|]; [|contradiction].
    destruct (calculateEdgeWeight (Neighbor.edge nb) profile) as [w|] eqn:HW;
      [|contradiction].
    simpl in Himp. specialize (Hw w eq_refl). lra. }
  split; simpl.
  - intros v u e q. destruct (decide (Neighbor.to nb = v)) as [<-|Hv].
    + rewrite !lookup_insert_eq. intros [= <-] [= <-] [= Hq].
      rewrite lookup_insert_ne by congruence.
      destruct gC as [g|]; [|discriminate].
      destruct (calculateEdgeWeight (Neighbor.edge nb) profile) as [w|] eqn:HW;
        [|discriminate].
      injection Hq as <-.
      exists g, w. split; [exact HgC|]. split; [reflexivity | lra].
    + rewrite !lookup_insert_ne by exact Hv. intros Hcf Heu Hgv.
      destruct (Hedge v u e q Hcf Heu Hgv) as (gu & w & Hgu & HW & Hle).
      destruct (decide (Neighbor.to nb = u)) as [<-|Hu].
      * rewrite lookup_insert_eq.
        unfold improves in Himp. rewrite Hgu in Himp.
        destruct (numAdd gC (calculateEdgeWeight (Neighbor.edge nb) profile))
          as [t|]; [|contradiction].
        simpl in Himp. exists t, w. split; [reflexivity|]. split; [exact HW | lra].
      * rewrite lookup_insert_ne by exact Hu. exists gu, w. auto.
  - intros v q. destruct (decide (Neighbor.to nb = v)) as [<-|Hv].
    + rewrite lookup_insert_eq. intros [= Hq].
      destruct gC as [g|]; [|discriminate].
      destruct (calculateEdgeWeight (Neighbor.edge nb) profile) as [w|] eqn:HW;
        [|discriminate].
      injection Hq as <-.
      pose proof (Hnonneg _ _ HgC). specialize (Hw w eq_refl). lra.
    + rewrite lookup_insert_ne by exact Hv. apply Hnonneg.
Qed.

Lemma visits_charged (h : Q) (st : Search) :
  Visits (startState startId h) st -> Charged profile st.
Proof.
  intros Hv.
  apply (visits_preserves calculateDistance graph nodeMap endNode endId profile
           (Charged profile)) with (st := startState startId h); [|exact Hv|].
  - apply searchStep_preserves.
    + intros s current rest [H1 H2] _. split; assumption.
    + intros current l nb s s'. apply relax_charged.
  - apply startState_charged.
Qed.

(** Along a chain of back-pointers that ends at a node whose cost is a
    number, the weights are numbers and, added up from any amount up to the
    cost of the first node, stay within the cost of the last. *)
Lemma backChain_charged (st : Search) (p : list string) (es : list Edge)
    (k : string) (gk : Q) :
  Charged profile st ->
  backChain (cameFrom st) (edgeUsed st) p es ->
  last p = Some k -> gScore st !! k = Some (Num gk) ->
  exists first gf,
    head p = Some first /\ gScore st !! first = Some (Num gf)
    /\ forall a, (a <= gf)%Q ->
       exists total,
         foldl numAdd (Num a) (map (fun e => calculateEdgeWeight e profile) es)
         = Num total
         /\ (total <= gk)%Q.
Proof.
  intros HC Hchain Hlast Hk.
  induction Hchain as [v|u v p e es Hcf Heu _ IH].
  - injection Hlast as <-. exists v, gk. split; [reflexivity|].
    split; [exact Hk|]. intros a Ha. exists a. split; [reflexivity | exact Ha].
  - destruct (IH Hlast) as (first & gf & Hhead & Hgf & Hsum).
    injection Hhead as <-.
    destruct (charged_edge _ _ HC v u e gf Hcf Heu Hgf) as (gu & w & Hgu & HW & Hle).
    exists u, gu. split; [reflexivity|]. split; [exact Hgu|].
    intros a Ha. cbn [map foldl]. rewrite HW. cbn [numAdd].
    apply Hsum. lra.
Qed.

End Charges.

(** On well-formed input, when the total weight of a returned route is a
    number, so is the weight of each of its edges, and the weights added up
    from the start do not exceed the total weight. *)
Theorem findAccessibleRoute_weight (calculateDistance : Q -> Q -> Q -> Q -> Q)
    (fuel : nat) (graph : gmap string (list Neighbor.t)) (nodes : list Node)
    (startId endId : string) (profile : Profile) (r : RouteResult) (weight : Q) :
  wellFormedInput graph nodes ->
  findAccessibleRoute calculateDistance fuel graph nodes startId endId profile
  = Returned r ->
  totalWeight r = Some (Num weight) ->
  Forall (fun e => calculateEdgeWeight e profile <> NaN) (edges r)
  /\ numLe (sumWeights profile (edges r)) (Num weight).
Proof.
  intros Hwf Hrun Hw. apply wellFormedInput_wellFormed in Hwf.
  apply findAccessibleRoute_visit in Hrun
    as [[-> _]|(en & h & st & Hs & Hv & Hr)]; [discriminate|].
  apply searchStep_inl in Hr as [[_ ->]|(c & rest & tw & _ & _ & Hg & Hr)];
    [discriminate|].
  pose proof (visits_tracked calculateDistance graph (makeNodeMap nodes) en endId
                profile startId h st Hs Hv) as HT.
  pose proof (visits_charged calculateDistance graph (makeNodeMap nodes) en endId
                profile startId Hwf h st Hv) as HC.
  destruct (tracked_answer graph (makeNodeMap nodes) endId profile startId fuel st
              tw r HT Hg Hr) as (_ & Hlast & _ & _ & _ & Hchain).
  assert (Htw : tw = Num weight).
  { apply reconstructPath_Returned in Hr as (w & _ & ->). simpl in Hw. congruence. }
  subst tw.
  destruct (backChain_charged profile st _ _ endId weight HC Hchain Hlast Hg)
    as (first & gf & _ & Hgf & Hsum).
  pose proof (charged_nonneg _ _ HC _ _ Hgf) as H0.
  destruct (Hsum 0%Q H0) as (total & Htotal & Hle).
  split.
  - apply Forall_map with (f := fun e => calculateEdgeWeight e profile)
                          (P := fun w => w <> NaN).
    eapply sum_of_numbers, Htotal.
  - unfold sumWeights. rewrite Htotal. exact Hle.
Qed.

Lemma detour_wellFormed : wellFormedInput detour detourNodes.
Proof.
  apply buildAdjacencyList_wellFormed.
  repeat constructor; try (vm_compute; discriminate).
Qed.

Lemma findAccessibleRoute_weight_witness :
  Forall (fun e => calculateEdgeWeight e wheelchairProfile <> NaN) (edges detourRoute)
  /\ numLe (sumWeights wheelchairProfile (edges detourRoute))
           (Num (0 + 1 * 1.0 + 1 * 1.0)).
Proof.
  apply (findAccessibleRoute_weight flat 3 detour detourNodes "S" "A"
           wheelchairProfile detourRoute).
  - exact detour_wellFormed.
  - vm_compute. reflexivity.
  - reflexivity.
Defined.

(** ** A route is found whenever one exists *)

(** On well-formed input with both endpoints among the nodes, the query
    returns a route exactly when the goal is connected to the start over
    edges that pass the gate, whatever the heuristic. *)
Theorem findAccessibleRoute_complete (calculateDistance : Q -> Q -> Q -> Q -> Q)
    (graph : gmap string (list Neighbor.t)) (nodes : list Node)
    (startId endId : string) (profile : Profile) :
  wellFormedInput graph nodes ->
  startId ∈ map id nodes -> endId ∈ map id nodes ->
  exists n r,
    (forall fuel, n <= fuel ->
       findAccessibleRoute calculateDistance fuel graph nodes startId endId profile
       = Returned r)
    /\ (connected graph profile startId endId <-> path r <> []).
Proof.
  intros Hwf Hs He.
  destruct (findAccessibleRoute_returns calculateDistance graph nodes startId endId
              profile Hwf) as (n & r & Hrun & Hr).
  exists n, r. split; [exact Hrun|]. split.
  - intros Hconn Hpath.
    pose proof (Hrun n (Nat.le_refl n)) as Hn.
    apply findAccessibleRoute_visit in Hn
      as [[_ [Hnone|Hnone]]|(en & h & st & _ & Hv & Hstep)].
    + apply makeNodeMap_is_Some in Hs as [x Hx]. congruence.
    + apply makeNodeMap_is_Some in He as [x Hx]. congruence.
    + pose proof (visits_explored calculateDistance graph (makeNodeMap nodes) en
                    endId profile startId h st Hv) as HE.
      apply searchStep_inl in Hstep as [[Hopen _]|(c & rest & tw & _ & _ & _ & Hrec)].
      * exact (explored_exhausted graph endId profile startId st HE Hopen Hconn).
      * apply reconstructPath_Returned in Hrec as (w & Hw & ->). simpl in Hpath.
        eapply walkBack_path in Hw; [contradiction | discriminate].
  - intros Hpath. destruct (Hr Hs He) as [->|Hconn]; [contradiction | exact Hconn].
Qed.

Lemma findAccessibleRoute_complete_witness :
  exists n r,
    (forall fuel, n <= fuel ->
       findAccessibleRoute flat fuel chain chainNodes "A" "C" wheelchairProfile
       = Returned r)
    /\ (connected chain wheelchairProfile "A" "C" <-> path r <> []).
Proof.
  apply (findAccessibleRoute_complete flat chain chainNodes "A" "C" wheelchairProfile).
  - exact chain_wellFormed.
  - left.
  - right; right; left.
Defined.

(** ** The returned route need not be the lightest *)

Lemma shortcut_wellFormed : wellFormedInput shortcut shortcutNodes.
Proof.
  apply buildAdjacencyList_wellFormed.
  repeat constructor; try (vm_compute; discriminate).
Qed.

(** The search can return a route that weighs more than another walk over
    gate-passing edges, even with a heuristic that is zero everywhere: on a
    well-formed graph it answers S - T with weight 5 although S - B - A - T
    weighs 3, because A waits in the open set under the f-score of its first
    cost. *)
Theorem findAccessibleRoute_not_lightest :
  exists graph nodes startId endId profile r weight p es,
    wellFormedInput graph nodes
    /\ (forall fuel, 3 <= fuel ->
          findAccessibleRoute flat fuel graph nodes startId endId profile
          = Returned r)
    /\ totalWeight r = Some weight
    /\ walk graph p es
    /\ head p = Some startId /\ last p = Some endId
    /\ Forall (fun e => isEdgeAccessible e profile = true) es
    /\ numLt (sumWeights profile es) weight.
Proof.
  exists shortcut, shortcutNodes, "S", "T", wheelchairProfile.
  exists {| path := ["S"; "T"]; edges := [plainEdge "S" "T" 5];
            totalDistance := (0 + 5)%Q; totalWeight := Some (Num (0 + 5 * 1.0));
            issues := []; accessibilityScore := Some (inject_Z 100);
            notFound := None |}.
  exists (Num (0 + 5 * 1.0)), ["S"; "B"; "A"; "T"],
         [plainEdge "S" "B" 1; plainEdge "B" "A" 1; plainEdge "A" "T" 1].
  split; [exact shortcut_wellFormed|].
  split.
  { intros fuel Hfuel.
    rewrite (findAccessibleRoute_more_fuel flat shortcut shortcutNodes "S" "T"
               wheelchairProfile 3 fuel Hfuel).
    - vm_compute. reflexivity.
    - vm_compute. discriminate. }
  split; [reflexivity|].
  split.
  { repeat (eapply walk_step;
              [unfold shortcut; rewrite buildAdjacencyList_lookup; vm_compute; reflexivity
              | repeat constructor |]).
    apply walk_end. }
  split; [reflexivity|]. split; [reflexivity|].
  split; [repeat constructor|].
  vm_compute. reflexivity.
Qed.

(** ** A neighbour that is not a node *)

Section Dangling.

Variable calculateDistance : Q -> Q -> Q -> Q -> Q.
Variable nodeMap : gmap string Node.
Variable endNode : Node.
Variable profile : Profile.

Local Abbreviation Relax := (relax calculateDistance nodeMap endNode profile).
Local Abbreviation Expand := (expand calculateDistance nodeMap endNode profile).

Lemma expand_throws (current : string) (nbs : list Neighbor.t) (st : Search) :
  Exists (fun nb => isEdgeAccessible (Neighbor.edge nb) profile = true
                    /\ nodeMap !! Neighbor.to nb = None) nbs ->
  (forall v, is_Some (gScore st !! v) -> is_Some (nodeMap !! v)) ->
  is_Some (gScore st !! current) ->
  Expand current nbs st = TypeError.
Proof.
  revert st. induction nbs as [|nb nbs IH]; intros st Hbad Hnodes Hcur.
  - inversion Hbad.
  - simpl.
    pose proof (relax_case calculateDistance nodeMap endNode profile current st nb) as Hc.
    inversion Hc as [Hacc Heq|Hacc Hnone Heq|gC g Hacc HgC Hg Hle Heq
                     |gC Hacc HgC Himp Hnode Heq|gC node Hacc HgC Himp Hnode Heq].
    + simpl. apply IH; try assumption.
      apply Exists_cons in Hbad as [[Hacc' _]|Hbad]; [congruence | exact Hbad].
    + rewrite Hnone in Hcur. destruct Hcur; discriminate.
    + simpl. apply IH; try assumption.
      apply Exists_cons in Hbad as [[_ Hno]|Hbad]; [|exact Hbad].
      destruct (Hnodes (Neighbor.to nb)) as [x Hx]; [rewrite Hg; eauto | congruence].
    + reflexivity.
    + simpl. apply IH.
      * apply Exists_cons in Hbad as [[_ Hno]|Hbad]; [congruence | exact Hbad].
      * simpl. intros v. rewrite lookup_insert_is_Some'.
        intros [<-|Hv]; [eauto | auto].
      * simpl. rewrite lookup_insert_is_Some'. auto.
Qed.

End Dangling.

(** When the start differs from the goal and one of its adjacency entries
    passes the gate but points to an id that is not a node, the query throws
    in its first turn, whatever else the graph holds. *)
Theorem findAccessibleRoute_dangling (calculateDistance : Q -> Q -> Q -> Q -> Q)
    (fuel : nat) (graph : gmap string (list Neighbor.t)) (nodes : list Node)
    (startId endId : string) (profile : Profile) (l : list Neighbor.t)
    (nb : Neighbor.t) :
  startId ∈ map id nodes -> endId ∈ map id nodes -> startId <> endId ->
  graph !! startId = Some l -> nb ∈ l ->
  isEdgeAccessible (Neighbor.edge nb) profile = true ->
  Neighbor.to nb ∉ map id nodes ->
  findAccessibleRoute calculateDistance (S fuel) graph nodes startId endId profile
  = TypeError.
Proof.
  intros Hs He Hne Hl Hin Hacc Hto.
  pose proof Hs as Hs'. apply makeNodeMap_is_Some in Hs' as [sn Hsn].
  apply makeNodeMap_is_Some in He as [en Hen].
  unfold findAccessibleRoute, heuristic. rewrite Hsn, Hen. simpl.
  unfold searchStep. simpl.
  rewrite (proj2 (String.eqb_neq _ _) Hne), Hl. simpl.
  rewrite (expand_throws calculateDistance (makeNodeMap nodes) en profile startId l);
    [reflexivity | | |].
  - apply Exists_exists. exists nb. split; [exact Hin|].
    split; [exact Hacc|].
    destruct (makeNodeMap nodes !! Neighbor.to nb) eqn:Hn; [|reflexivity].
    exfalso. apply Hto, makeNodeMap_is_Some. eauto.
  - simpl. intros v [q Hq]. apply lookup_singleton_Some in Hq as [<- _]. eauto.
  - simpl. rewrite lookup_singleton_eq. eauto.
Qed.

Lemma findAccessibleRoute_dangling_witness :
  findAccessibleRoute flat 1 dangling danglingNodes "A" "C" wheelchairProfile
  = TypeError.
Proof.
  apply (findAccessibleRoute_dangling flat 0 dangling danglingNodes "A" "C"
           wheelchairProfile
           [ {| Neighbor.to := "X"; Neighbor.edge := plainEdge "A" "X" 5 |} ]
           {| Neighbor.to := "X"; Neighbor.edge := plainEdge "A" "X" 5 |}).
  - left.
  - right; left.
  - discriminate.
  - vm_compute. reflexivity.
  - left.
  - reflexivity.
  - vm_compute. intros H.
    repeat (apply elem_of_cons in H as [H|H]; [discriminate|]). inversion H.
Defined.
